(** * ynkr: the music import pipeline of [import.py]

    A shallow embedding of the resolution-and-deduplication pipeline
    ([normalize_string], [sanitize_filename], the SQLite ledger helpers,
    the two resolver queries and the per-file body of [main]) together
    with the properties stated about it.

    Conventions.
    - A Python [str] is a list of Unicode code points ([list N]).
    - The Unicode tables behind [str.lower] and [unicodedata.normalize]
      are not part of the repository: they are an interface ([Unicode])
      with the few laws the proofs need ([UnicodeLaws]); [basic_latin]
      is the instance used to run the definitions on concrete inputs.
    - The ledger is the list of rows of the [imports] table in rowid
      order; the file system is a finite map from directory paths to the
      names they contain. *)

From Stdlib Require Import QArith Sorted.
From stdpp Require Import gmap list strings.

Local Open Scope N_scope.

(** ** Python strings *)

Abbreviation pystr := (list N).

(** A literal of the source, as code points. *)
Definition lit (s : string) : pystr :=
  Ascii.N_of_ascii <$> String.list_ascii_of_string s.

(** [str.isspace] for one code point; the same set is matched by [\s] in
    a [str] pattern of [re]. *)
Definition py_isspace (c : N) : bool :=
  ((9 <=? c) && (c <=? 13)) || ((28 <=? c) && (c <=? 32))
  || (c =? 133) || (c =? 160) || (c =? 5760)
  || ((8192 <=? c) && (c <=? 8202))
  || (c =? 8232) || (c =? 8233) || (c =? 8239) || (c =? 8287) || (c =? 12288).

Fixpoint lstrip (s : pystr) : pystr :=
  match s with
  | [] => []
  | c :: s' => if py_isspace c then lstrip s' else s
  end.

Fixpoint rstrip (s : pystr) : pystr :=
  match s with
  | [] => []
  | c :: s' =>
      match rstrip s' with
      | [] => if py_isspace c then [] else [c]
      | r => c :: r
      end
  end.

(** [s.strip()] *)
Definition strip (s : pystr) : pystr := rstrip (lstrip s).

(** [re.sub('[cls]+', rep, s)]: every maximal run of characters of the
    class is replaced by [rep]; [in_run] tells whether the previous
    character belonged to the run being replaced. *)
Fixpoint re_sub_runs (cls : N -> bool) (rep : pystr) (in_run : bool) (s : pystr)
  : pystr :=
  match s with
  | [] => []
  | c :: s' =>
      if cls c
      then (if in_run then [] else rep) ++ re_sub_runs cls rep true s'
      else c :: re_sub_runs cls rep false s'
  end.

(** [re.sub('[cls]', '', s)] *)
Definition re_sub_delete (cls : N -> bool) (s : pystr) : pystr :=
  List.filter (fun c => negb (cls c)) s.

(** [s.split(sep)[0]] *)
Fixpoint split_first (sep : N) (s : pystr) : pystr :=
  match s with
  | [] => []
  | c :: s' => if c =? sep then [] else c :: split_first sep s'
  end.

(** Truth value of a [str]. *)
Definition nonempty (s : pystr) : bool :=
  match s with [] => false | _ => true end.

Definition pystr_eqb (s t : pystr) : bool := bool_decide (s = t).

(** ** The Unicode interface *)

Class Unicode := {
  str_lower : pystr -> pystr;          (* s.lower() *)
  normalize_NFKD : pystr -> pystr;     (* unicodedata.normalize('NFKD', s) *)
  normalize_NFC : pystr -> pystr       (* unicodedata.normalize('NFC', s) *)
}.

(** ** Normalizer *)

(** The character class [\s\-_]. *)
Definition sep_class (c : N) : bool :=
  py_isspace c || (c =? 45) || (c =? 95).

(** The character class [a-z0-9 ]. *)
Definition kept (c : N) : bool :=
  ((97 <=? c) && (c <=? 122)) || ((48 <=? c) && (c <=? 57)) || (c =? 32).

(** The character class of [sanitize_filename]: backslash, slash, colon,
    asterisk, question mark, double quote, less-than, greater-than, bar. *)
Definition illegal (c : N) : bool :=
  (c =? 92) || (c =? 47) || (c =? 58) || (c =? 42) || (c =? 63)
  || (c =? 34) || (c =? 60) || (c =? 62) || (c =? 124).

Section Normalizer.
Context {U : Unicode}.

Definition normalize_string (s : pystr) : pystr :=
  if negb (nonempty s) then []
  else
    let s := str_lower s in
    let s := normalize_NFKD s in
    let s := re_sub_runs sep_class [32] false s in
    let s := re_sub_delete (fun c => negb (kept c)) s in
    strip s.

Definition normalize_filename_for_db (filename : pystr) : pystr :=
  if negb (nonempty filename) then []
  else normalize_NFC filename.
End Normalizer.

Definition sanitize_filename (s : pystr) : pystr :=
  strip (re_sub_delete illegal s).

(** ** A Unicode instance for Basic Latin text

    [str.lower] folds A-Z and leaves the other Basic Latin code points;
    both normal forms leave Basic Latin text unchanged. The one
    composition NFC performs here is LATIN SMALL LETTER E followed by
    COMBINING ACUTE ACCENT (U+0065 U+0301) into U+00E9; the instance
    agrees with Python on text made of Basic Latin, U+00E9 and that
    sequence under NFC, and on Basic Latin text under [lower] and NFKD. *)

Definition ascii_lower_cp (c : N) : N :=
  if (65 <=? c) && (c <=? 90) then c + 32 else c.

Fixpoint compose_e_acute (s : pystr) : pystr :=
  match s with
  | [] => []
  | c :: s' =>
      match s' with
      | d :: s'' =>
          if (c =? 101) && (d =? 769) then 233 :: compose_e_acute s''
          else c :: compose_e_acute s'
      | [] => [c]
      end
  end.

Definition basic_latin : Unicode := {|
  str_lower := map ascii_lower_cp;
  normalize_NFKD := fun s => s;
  normalize_NFC := compose_e_acute
|}.

Local Close Scope N_scope.

(** ** [os.path] on POSIX *)

Definition sep : N := 47%N.
Definition extsep : N := 46%N.

Definition startswith_sep (p : pystr) : bool :=
  match p with c :: _ => (c =? sep)%N | [] => false end.

Definition endswith_sep (p : pystr) : bool :=
  match last p with Some c => (c =? sep)%N | None => false end.

(** [os.path.join(a, b)] *)
Definition os_path_join (a b : pystr) : pystr :=
  if startswith_sep b then b
  else if negb (nonempty a) || endswith_sep a then a ++ b
  else a ++ sep :: b.

(** [s.rfind(c)], [None] standing for -1; [i] is the index of the head. *)
Fixpoint rfind_from (c : N) (s : pystr) (i : nat) : option nat :=
  match s with
  | [] => None
  | x :: s' =>
      match rfind_from c s' (S i) with
      | Some j => Some j
      | None => if (x =? c)%N then Some i else None
      end
  end.

Definition rfind (c : N) (s : pystr) : option nat := rfind_from c s 0.

(** [sepIndex + 1] *)
Definition after_sep (p : pystr) : nat :=
  match rfind sep p with Some i => S i | None => 0 end.

(** [os.path.splitext(p)]: the extension starts at the last dot, unless
    that dot is not after the last separator or only dots stand between
    the separator and it. *)
Definition splitext (p : pystr) : pystr * pystr :=
  match rfind extsep p with
  | Some dotIndex =>
      let filenameIndex := after_sep p in
      if (filenameIndex <=? dotIndex)
         && existsb (fun c => negb (c =? extsep)%N)
                    (take (dotIndex - filenameIndex) (drop filenameIndex p))
      then (take dotIndex p, drop dotIndex p)
      else (p, [])
  | None => (p, [])
  end.

(** [os.path.basename(p)] *)
Definition basename (p : pystr) : pystr := drop (after_sep p) p.

(** ** [difflib.SequenceMatcher(None, a, b).ratio()]

    The matcher of the Python standard library, with [isjunk = None] and
    [autojunk = True] as [is_similar] constructs it. Indices are naturals;
    where the library looks up [j - 1] for [j = 0] the key -1 is never
    present and the default applies. *)

Module difflib.

Abbreviation block := (nat * nat * nat)%type.

(** [__chain_b]: the indices of every element of [b], in increasing
    order, without the elements that are popular in a long [b]. *)
Definition chain_b (b : pystr) : gmap N (list nat) :=
  let b2j :=
    foldl (fun (m : gmap N (list nat)) (ie : nat * N) =>
             <[ie.2 := default [] (m !! ie.2) ++ [ie.1]]> m)
          ∅ (imap (fun i elt => (i, elt)) b) in
  let n := length b in
  if 200 <=? n
  then let ntest := n / 100 + 1 in
       filter (fun kv : N * list nat => length kv.2 <= ntest) b2j
  else b2j.

(** No element is junk when [isjunk] is [None]. *)
Definition isbjunk (x : N) : bool := false.

Definition elt_eqb (x y : option N) : bool :=
  match x, y with Some u, Some v => (u =? v)%N | _, _ => false end.

Definition junk_is (want : bool) (x : option N) : bool :=
  match x with Some u => Bool.eqb (isbjunk u) want | None => false end.

(** The inner loop of [find_longest_match] over the occurrences [js] of
    [a[i]] in [b]. *)
Fixpoint scan_row (j2len : gmap nat nat) (i blo bhi : nat) (js : list nat)
    (newj2len : gmap nat nat) (best : block) : gmap nat nat * block :=
  match js with
  | [] => (newj2len, best)
  | j :: js' =>
      if j <? blo then scan_row j2len i blo bhi js' newj2len best
      else if bhi <=? j then (newj2len, best)
      else
        let k := S (match j with
                    | 0 => 0
                    | S j' => default 0 (j2len !! j')
                    end) in
        let best' := if best.2 <? k then (i + 1 - k, j + 1 - k, k) else best in
        scan_row j2len i blo bhi js' (<[j := k]> newj2len) best'
  end.

(** The outer loop, over [i] in [range(alo, ahi)]. *)
Fixpoint scan_rows (a : pystr) (b2j : gmap N (list nat)) (blo bhi : nat)
    (rows : list nat) (j2len : gmap nat nat) (best : block) : block :=
  match rows with
  | [] => best
  | i :: rows' =>
      let js := match a !! i with
                | Some x => default [] (b2j !! x)
                | None => []
                end in
      let '(newj2len, best') := scan_row j2len i blo bhi js ∅ best in
      scan_rows a b2j blo bhi rows' newj2len best'
  end.

(** [while besti > alo and bestj > blo and (isbjunk(b[bestj-1]) == junk)
    and a[besti-1] == b[bestj-1]] *)
Fixpoint extend_left (a b : pystr) (junk : bool) (alo blo : nat)
    (besti bestj bestsize : nat) {struct besti} : block :=
  match besti, bestj with
  | S i', S j' =>
      if (alo <? besti) && (blo <? bestj)
         && junk_is junk (b !! j') && elt_eqb (a !! i') (b !! j')
      then extend_left a b junk alo blo i' j' (S bestsize)
      else (besti, bestj, bestsize)
  | _, _ => (besti, bestj, bestsize)
  end.

(** [while besti+bestsize < ahi and bestj+bestsize < bhi and ...]; the
    loop runs at most [ahi - (besti + bestsize)] times, which is the
    [fuel] it is started with. *)
Fixpoint extend_right (a b : pystr) (junk : bool) (ahi bhi : nat)
    (besti bestj : nat) (fuel : nat) (bestsize : nat) : nat :=
  match fuel with
  | 0 => bestsize
  | S fuel' =>
      if (besti + bestsize <? ahi) && (bestj + bestsize <? bhi)
         && junk_is junk (b !! (bestj + bestsize))
         && elt_eqb (a !! (besti + bestsize)) (b !! (bestj + bestsize))
      then extend_right a b junk ahi bhi besti bestj fuel' (S bestsize)
      else bestsize
  end.

Definition extend (a b : pystr) (junk : bool) (alo ahi blo bhi : nat)
    (best : block) : block :=
  let '(besti, bestj, bestsize) :=
    extend_left a b junk alo blo best.1.1 best.1.2 best.2 in
  (besti, bestj,
   extend_right a b junk ahi bhi besti bestj (ahi - (besti + bestsize)) bestsize).

Definition find_longest_match (a b : pystr) (b2j : gmap N (list nat))
    (alo ahi blo bhi : nat) : block :=
  let best := scan_rows a b2j blo bhi (seq alo (ahi - alo)) ∅ (alo, blo, 0) in
  let best := extend a b false alo ahi blo bhi best in
  extend a b true alo ahi blo bhi best.

(** The work list of [get_matching_blocks]; the head of [queue] is the
    end of the Python list, where [pop] and [append] operate. [None]
    when [fuel] iterations did not empty the queue. *)
Fixpoint blocks_loop (a b : pystr) (b2j : gmap N (list nat)) (fuel : nat)
    (queue : list (nat * nat * nat * nat)) (matching_blocks : list block)
    : option (list block) :=
  match queue with
  | [] => Some matching_blocks
  | (alo, ahi, blo, bhi) :: queue' =>
      match fuel with
      | 0 => None
      | S fuel' =>
          let '(i, j, k) := find_longest_match a b b2j alo ahi blo bhi in
          if 0 <? k then
            let q1 := if (alo <? i) && (blo <? j)
                      then (alo, i, blo, j) :: queue' else queue' in
            let q2 := if (i + k <? ahi) && (j + k <? bhi)
                      then (i + k, ahi, j + k, bhi) :: q1 else q1 in
            blocks_loop a b b2j fuel' q2 (matching_blocks ++ [(i, j, k)])
          else blocks_loop a b b2j fuel' queue' matching_blocks
      end
  end.

(** Tuple order of [matching_blocks.sort()]. *)
Definition block_leb (x y : block) : bool :=
  let '(i1, j1, k1) := x in
  let '(i2, j2, k2) := y in
  (i1 <? i2) || ((i1 =? i2) && ((j1 <? j2) || ((j1 =? j2) && (k1 <=? k2)))).

Fixpoint insert_block (x : block) (l : list block) : list block :=
  match l with
  | [] => [x]
  | y :: l' => if block_leb x y then x :: l else y :: insert_block x l'
  end.

Definition sort_blocks (l : list block) : list block :=
  foldr insert_block [] l.

(** The loop that merges adjacent blocks, with its pending block. *)
Fixpoint collapse_adjacent (cur : block) (l : list block) : list block :=
  let '(i1, j1, k1) := cur in
  match l with
  | [] => if 0 <? k1 then [cur] else []
  | (i2, j2, k2) :: l' =>
      if (i1 + k1 =? i2) && (j1 + k1 =? j2)
      then collapse_adjacent (i1, j1, k1 + k2) l'
      else (if 0 <? k1 then [cur] else []) ++ collapse_adjacent (i2, j2, k2) l'
  end.

(** Every pass of the work loop removes one range and adds ranges that
    are shorter in total, so [2 * len(a) + 1] passes are enough
    ([blocks_loop_total] below). *)
Definition get_matching_blocks (a b : pystr) : list block :=
  let la := length a in
  let lb := length b in
  let found :=
    default [] (blocks_loop a b (chain_b b) (2 * la + 1) [(0, la, 0, lb)] []) in
  collapse_adjacent (0, 0, 0) (sort_blocks found) ++ [(la, lb, 0)].

Definition matches (a b : pystr) : nat :=
  foldr (fun t acc => t.2 + acc) 0 (get_matching_blocks a b).

(** [_calculate_ratio(matches, len(a) + len(b))] as an exact rational. *)
Definition ratio (a b : pystr) : Q :=
  let length := length a + length b in
  if length =? 0 then 1%Q
  else Qmake (2 * Z.of_nat (matches a b)) (Pos.of_nat length).

End difflib.

(** ** Python values

    What [json.loads] and [dict.get] hand to [main]: the resolver fields
    are whatever the service sent, not necessarily strings. A float only
    matters through its truth value. *)

#[local] Unset Elimination Schemes.
Inductive pyval :=
| PNone
| PBool (b : bool)
| PInt (z : Z)
| PFloat (nonzero : bool)
| PStr (s : pystr)
| PList (l : list pyval)
| PDict (items : list (pystr * pyval)).
#[local] Set Elimination Schemes.

(** [bool(v)] *)
Definition truthy (v : pyval) : bool :=
  match v with
  | PNone => false
  | PBool b => b
  | PInt z => negb (z =? 0)%Z
  | PFloat nonzero => nonzero
  | PStr s => nonempty s
  | PList l => match l with [] => false | _ => true end
  | PDict items => match items with [] => false | _ => true end
  end.

Definition of_option (o : option pystr) : pyval :=
  match o with Some s => PStr s | None => PNone end.

Inductive exn :=
| AttributeError
| TypeError
| ValueError
| UnicodeEncodeError
| OSError
| RequestException
| JSONDecodeError
| APIError.

(** ** The ledger

    A row of the [imports] table. The list of rows is kept in insertion
    order, which is the rowid order [fetchone] and [fetchall] follow; the
    [id] and [date_added] columns, which no lookup reads, are left out. *)

Record row := {
  original_name : pystr;
  ai_artist : pystr;
  ai_title : pystr;
  storage_path : pystr
}.

(** [f"[{reason}]"] *)
Definition bracketed (reason : pystr) : pystr :=
  (91%N :: reason) ++ [93%N].

(** LOWER of SQLite folds the 26 letters of Basic Latin only. *)
Definition sqlite_lower (s : pystr) : pystr := map ascii_lower_cp s.

(** ** The file system

    A finite map from the paths of the existing directories to the names
    of the files they hold. A path exists when it is a directory or the
    join of a directory and one of its names. *)

Abbreviation fs := (gmap pystr (list pystr)).

Definition path_exists (d : fs) (p : pystr) : bool :=
  bool_decide (is_Some (d !! p))
  || existsb (fun dn : pystr * list pystr =>
                existsb (fun n => pystr_eqb (os_path_join dn.1 n) p) dn.2)
             (map_to_list d).

(** [os.makedirs(p, exist_ok=True)] *)
Definition makedirs (p : pystr) (d : fs) : fs :=
  match d !! p with Some _ => d | None => <[p := []]> d end.

(** The effect of a successful [shutil.copy2(src, join(dir, name))]. *)
Definition add_file (dir name : pystr) (d : fs) : fs :=
  alter (fun names => if bool_decide (name ∈ names) then names else names ++ [name])
        dir d.

(** ** The environment of a run *)

(** The answers of the outside world: what mutagen reads from a file,
    what the two services reply, what [json.loads] makes of a text,
    whether a copy fails and whether the tag rewrite of a copy fails. *)

Inductive mutagen_result :=
| MutagenRaises
| MutagenNone
| MutagenTags (tags : list (pystr * list pystr)).

Inductive ollama_reply :=
| OllamaRaises                      (* requests.post raised *)
| OllamaNotJson                     (* response.json() raised *)
| OllamaJson (result : pyval).

Inductive openai_reply :=
| OpenAIRaises                      (* the call or choices[0] raised *)
| OpenAIContent (content : option pystr).

Record env := {
  USE_OLLAMA : bool;
  USE_OPENAI : bool;
  OPENAI_API_KEY : option pystr;
  FUZZY_RATIO : Q;
  dest : pystr;
  dry_run : bool;
  dry_ai : bool;
  debug : bool;
  MutagenFile : pystr -> mutagen_result;
  requests_post : pystr -> pyval -> pyval -> ollama_reply;
  chat_completions_create : pystr -> pyval -> pyval -> openai_reply;
  json_loads : pystr -> option pyval;
  copy2_fails : pystr -> pystr -> bool;
  tag_update_fails : pystr -> bool
}.

(** What a run leaves behind besides the ledger and the files: the
    [log] calls with their level, the requests sent to the two services
    with the inputs they carry, and the copies made. The debug boxes and
    the pauses of debug mode leave no trace here. *)

Inductive level :=
| INFO | SUCCESS | COPIED | WARNING | ERROR | LLM | UNSORTED | DRY.

Inductive event :=
| Log (lv : level)
| AskOllama (filename : pystr) (existing_artist existing_title : pyval)
| AskOpenAI (filename : pystr) (existing_artist existing_title : pyval)
| Copy (src dst : pystr).

Record state := {
  ledger : list row;
  disk : fs;
  events : list event
}.

(** ** Computations that touch the state and may raise *)

Inductive result (A : Type) :=
| Ok (a : A)
| Raised (e : exn).
Arguments Ok {A} a.
Arguments Raised {A} e.

Definition M (A : Type) : Type := state -> result A * state.

Definition ret {A} (a : A) : M A := fun s => (Ok a, s).

Definition bind {A B} (m : M A) (k : A -> M B) : M B :=
  fun s => match m s with
           | (Ok a, s') => k a s'
           | (Raised e, s') => (Raised e, s')
           end.

Definition raise {A} (e : exn) : M A := fun s => (Raised e, s).

(** [try: body except Exception as e: handler] *)
Definition try_except {A} (body : M A) (handler : exn -> M A) : M A :=
  fun s => match body s with
           | (Ok a, s') => (Ok a, s')
           | (Raised e, s') => handler e s'
           end.

#[global] Instance M_ret : MRet M := @ret.
#[global] Instance M_bind : MBind M := fun A B k m => bind m k.

Definition emit (ev : event) : M unit :=
  fun s => (Ok tt, {| ledger := ledger s; disk := disk s; events := events s ++ [ev] |}).

Definition log (lv : level) : M unit := emit (Log lv).

Definition when (c : bool) (m : M unit) : M unit := if c then m else ret tt.

Definition get_ledger : M (list row) := fun s => (Ok (ledger s), s).
Definition get_disk : M fs := fun s => (Ok (disk s), s).

Definition set_disk (d : fs) : M unit :=
  fun s => (Ok tt, {| ledger := ledger s; disk := d; events := events s |}).

(** ** Ledger operations *)

Definition insert_db (name artist title path : pystr) : M unit :=
  fun s => (Ok tt,
            {| ledger := ledger s ++ [Build_row name artist title path];
               disk := disk s; events := events s |}).

Definition insert_db_skipped (name reason : pystr) : M unit :=
  insert_db name (bracketed reason) (bracketed reason) (bracketed reason).

(** [c.execute(SELECT ... WHERE ...); c.fetchone()] *)
Definition fetchone (p : row -> bool) (rows : list row) : option row :=
  List.find p rows.

Section Ledger.
Context {U : Unicode}.

Definition variations (filename : pystr) (rows : list row) : option row :=
  match fetchone (fun r => pystr_eqb (original_name r) filename) rows with
  | Some r => Some r
  | None =>
  match fetchone (fun r => pystr_eqb (sqlite_lower (original_name r))
                                     (sqlite_lower filename)) rows with
  | Some r => Some r
  | None =>
  let normalized := normalize_filename_for_db filename in
  match fetchone (fun r => pystr_eqb (original_name r) normalized) rows with
  | Some r => Some r
  | None =>
  fetchone (fun r => pystr_eqb (sqlite_lower (original_name r))
                               (sqlite_lower normalized)) rows
  end end end.

Definition check_db_by_filename_variations (filename : pystr) : M (option row) :=
  rows ← get_ledger; ret (variations filename rows).

(** A float threshold compares with the float quotient exactly as some
    rational threshold compares with the exact quotient, rounding being
    monotone; the threshold is that rational. *)
Definition is_similar (a : option pystr) (b : pystr) (threshold : Q) : bool :=
  match a with
  | None => false
  | Some a =>
      if negb (nonempty a) || negb (nonempty b) then false
      else Qle_bool threshold (difflib.ratio (str_lower a) (str_lower b))
  end.

(** The loop of [check_db_fuzzy] over [c.fetchall()]. *)
Definition fuzzy_scan (artist title : option pystr) (threshold : Q)
    (rows : list row) : option (pystr * pystr * pystr) :=
  match List.find (fun r => is_similar artist (ai_artist r) threshold
                            && is_similar title (ai_title r) threshold) rows with
  | Some r => Some (ai_artist r, ai_title r, storage_path r)
  | None => None
  end.

Definition check_db_fuzzy (artist title : option pystr) (threshold : Q)
  : M (option (pystr * pystr * pystr)) :=
  rows ← get_ledger; ret (fuzzy_scan artist title threshold rows).
End Ledger.

(** ** MetadataExtractor *)

Definition lookup_key {A} (key : pystr) (items : list (pystr * A)) : option A :=
  match List.find (fun kv => pystr_eqb kv.1 key) items with
  | Some kv => Some kv.2
  | None => None
  end.

Definition get_metadata (e : env) (filepath : pystr) : list (pystr * pystr) :=
  match MutagenFile e filepath with
  | MutagenRaises => []
  | MutagenNone => []
  | MutagenTags audio =>
      omap (fun tag =>
              match lookup_key tag audio with
              | Some (v :: _) => Some (tag, v)
              | _ => None
              end)
           [lit "title"; lit "artist"; lit "album"; lit "date"; lit "year"]
  end.

(** ** The two resolver queries *)

Abbreviation answer := (pyval * pyval * pyval)%type.

Definition none3 : answer := (PNone, PNone, PNone).

(** [result.response]: none of the values [response.json()] can return
    has an attribute of that name. *)
Definition getattr_response (result : pyval) : M pyval :=
  match result with
  | PNone | PBool _ | PInt _ | PFloat _ | PStr _ | PList _ | PDict _ =>
      raise AttributeError
  end.

(** [data.get(key, default)] *)
Definition py_get (data : pyval) (key : pystr) (dflt : pyval) : M pyval :=
  match data with
  | PDict items => ret (default dflt (lookup_key key items))
  | _ => raise AttributeError
  end.

Section Resolver.
Context (e : env).

(** [json.loads(v)] *)
Definition loads (v : pyval) : M pyval :=
  match v with
  | PStr s => match json_loads e s with
              | Some data => ret data
              | None => raise JSONDecodeError
              end
  | _ => raise TypeError
  end.

Definition read_answer (data : pyval) : M answer :=
  use_as_is ← py_get data (lit "use_as_is") (PBool false);
  artist ← py_get data (lit "artist") PNone;
  title ← py_get data (lit "title") PNone;
  ret (use_as_is, artist, title).

(** The prompt of the first service, lines 158-223: an f-string whose
    text shows the two answer formats between single braces. The first
    of them is therefore a replacement field: the [str] use_as_is, to be
    formatted under the specification that follows its colon. No [str]
    takes that specification, so that evaluating the f-string raises
    ValueError on every call, before the fields that follow are looked
    at. (The prompt of the second service doubles its braces.) *)
Definition ollama_prompt (filename : pystr)
    (existing_artist existing_title : pyval) : M pystr :=
  raise ValueError.

Definition query_ollama_for_metadata (filename : pystr)
    (existing_artist existing_title : pyval) : M answer :=
  if negb (USE_OLLAMA e) then ret none3
  else
    prompt ← ollama_prompt filename existing_artist existing_title;
    when (debug e) (log LLM);;
    try_except
      (emit (AskOllama filename existing_artist existing_title);;
       result ← match requests_post e filename existing_artist existing_title with
                | OllamaRaises => raise RequestException
                | OllamaNotJson => raise JSONDecodeError
                | OllamaJson v => ret v
                end;
       when (debug e) (log LLM);;
       response ← getattr_response result;
       if negb (truthy response) then ret none3
       else data ← loads response; read_answer data)
      (fun _ => log ERROR;; ret none3).

Definition key_set : bool :=
  match OPENAI_API_KEY e with Some k => nonempty k | None => false end.

Definition query_openai_for_metadata (filename : pystr)
    (existing_artist existing_title : pyval) : M answer :=
  if negb (USE_OPENAI e && key_set) then ret none3
  else
    try_except
      (emit (AskOpenAI filename existing_artist existing_title);;
       content ← match chat_completions_create e filename
                         existing_artist existing_title with
                 | OpenAIRaises => raise APIError
                 | OpenAIContent c => ret c
                 end;
       when (debug e) (log LLM);;
       if negb (truthy (of_option content)) then ret none3
       else data ← loads (of_option content); read_answer data)
      (fun _ => log ERROR;; ret none3).
End Resolver.

(** ** The per-file body of [main] *)

(** The [continue] (or the end of the body) a file leaves through. *)
Inductive outcome :=
| SkipExact          (* the ledger already knows the file name *)
| SuppressNotAudio
| SkipFuzzyRaw       (* fuzzy match on the embedded tags *)
| SkipDuplicate      (* same normalized title in the artist directory *)
| DryAiPreview
| SkipExistsAsIs     (* use_as_is, destination path taken *)
| CopyAsIs           (* use_as_is, copied (or would copy) *)
| DivertUnsorted
| SkipExists         (* destination path taken *)
| LinkFuzzy          (* fuzzy match on the resolved artist and title *)
| RecordImport.

Record placement := {
  p_artist : option pystr;   (* artist when truthy *)
  p_title : option pystr;    (* title when truthy *)
  dest_dir : pystr;
  dest_name : pystr;
  dest_path : pystr
}.

Definition AUDIO_EXTS : list pystr :=
  [lit ".mp3"; lit ".m4a"; lit ".opus"; lit ".ogg"; lit ".flac"; lit ".wav"; lit ".aac"].

Section Pipeline.
Context {U : Unicode} (e : env).

Definition is_audio_ext (ext : pystr) : bool := bool_decide (ext ∈ AUDIO_EXTS).

Definition is_audio_file (filename : pystr) : bool :=
  is_audio_ext (str_lower (splitext filename).2).

(** [f(v) if v else ...] for an [f] that needs a [str]: [None] when [v]
    is falsy, and the exception [f] raises on a value of another type. *)
Definition as_text (err : exn) (v : pyval) : M (option pystr) :=
  if truthy v
  then match v with PStr s => ret (Some s) | _ => raise err end
  else ret None.

(** Lines 723-728 and 783-789. *)
Definition place_of (fname : pystr) (artist title : pyval) : M placement :=
  let ext := str_lower (splitext fname).2 in
  a ← as_text AttributeError artist;
  let main_artist :=
    match a with
    | Some s => strip (split_first 59%N s)
    | None => lit "Unknown_Artist"
    end in
  let safe_artist :=
    if nonempty main_artist then sanitize_filename main_artist
    else lit "Unknown_Artist" in
  t ← as_text TypeError title;
  let safe_title :=
    match t with
    | Some s => sanitize_filename s
    | None => lit "Unknown_Title"
    end in
  let dest_dir := os_path_join (dest e) safe_artist in
  ret {| p_artist := a; p_title := t; dest_dir := dest_dir;
         dest_name := safe_title ++ ext;
         dest_path := os_path_join dest_dir (safe_title ++ ext) |}.

Definition listdir (dir : pystr) : M (list pystr) :=
  d ← get_disk;
  match d !! dir with
  | Some names => ret names
  | None => raise OSError
  end.

(** Lines 729-738 and 792-801. *)
Definition duplicate_found (pl : placement) : M bool :=
  d ← get_disk;
  if path_exists d (dest_dir pl) then
    names ← listdir (dest_dir pl);
    let existing_files :=
      List.filter (fun f => is_audio_ext (str_lower (splitext f).2)) names in
    let norm_title :=
      match p_title pl with
      | Some t => normalize_string t
      | None => lit "unknown_title"
      end in
    ret (existsb (fun f => pystr_eqb (normalize_string (splitext f).1) norm_title)
                 existing_files)
  else ret false.

(** [shutil.copy2(src, os.path.join(dir, name))] *)
Definition copy2 (src dir name : pystr) : M unit :=
  d ← get_disk;
  if copy2_fails e src (os_path_join dir name)
     || negb (bool_decide (is_Some (d !! dir)))
  then raise OSError
  else set_disk (add_file dir name d);;
       emit (Copy src (os_path_join dir name)).

Definition ensure_dir (dir : pystr) : M unit :=
  d ← get_disk;
  when (negb (path_exists d dir)) (set_disk (makedirs dir d)).

(** The [else] branch of [if dry_run]: create the directory, copy, and
    rewrite the tags of the copy. The rewrite runs inside its own [try]
    and touches the content of the copy only: all it can add to the state
    is the ERROR line of its handler. *)
Definition copy_and_update (fpath : pystr) (pl : placement) : M unit :=
  ensure_dir (dest_dir pl);;
  copy2 fpath (dest_dir pl) (dest_name pl);;
  log COPIED;;
  when (tag_update_fails e (dest_path pl)) (log ERROR).

(** Lines 686-691 and 716-721: what an answer does to artist and title. *)
Definition adopt (ans : answer) (artist title : pyval) : pyval * pyval :=
  let '(use_as_is, llm_artist, llm_title) := ans in
  if truthy use_as_is then (artist, title)
  else if truthy llm_artist && truthy llm_title then (llm_artist, llm_title)
  else (artist, title).

(** [not use_as_is and not (llm_artist and llm_title)] *)
Definition undecided (ans : answer) : bool :=
  let '(use_as_is, llm_artist, llm_title) := ans in
  negb (truthy use_as_is) && negb (truthy llm_artist && truthy llm_title).

(** Lines 692-721, from the answer the first service left. *)
Definition openai_after (first : answer) (fpath : pystr) (artist title : pyval)
  : M (pyval * pyval * pyval) :=
  if USE_OPENAI e && undecided first then
    second ← query_openai_for_metadata e (basename fpath) artist title;
    let '(artist', title') := adopt second artist title in
    ret (second.1.1, artist', title')
  else ret (first.1.1, artist, title).

(** Lines 662-721; the result is [(use_as_is, artist, title)]. *)
Definition resolve (fpath : pystr) (artist title : pyval)
  : M (pyval * pyval * pyval) :=
  first ← (if USE_OLLAMA e
           then query_ollama_for_metadata e (basename fpath) artist title
           else ret none3);
  let '(artist', title') := adopt first artist title in
  openai_after first fpath artist' title'.

(** Lines 744-781. *)
Definition dry_ai_preview (fpath : pystr) (artist title : pyval) : M outcome :=
  ans ← (if USE_OLLAMA e
         then query_ollama_for_metadata e (basename fpath) artist title
         else if USE_OPENAI e
         then query_openai_for_metadata e (basename fpath) artist title
         else ret none3);
  let '(use_as_is, llm_artist, llm_title) := ans in
  (if truthy use_as_is then ret tt
   else if truthy llm_artist && truthy llm_title
   then match llm_artist with
        | PStr _ => ret tt
        | _ => raise TypeError        (* os.path.join(dest, llm_artist) *)
        end
   else ret tt);;
  ret DryAiPreview.

(** Lines 866-879. *)
Definition divert_unsorted (fname fpath : pystr) : M outcome :=
  let UNSORTED_DIR := os_path_join (dest e) (lit "_Unsorted") in
  (if dry_run e || dry_ai e then log DRY
   else
     ensure_dir UNSORTED_DIR;;
     copy2 fpath UNSORTED_DIR (basename fpath);;
     log UNSORTED;;
     insert_db_skipped fname (lit "no_metadata"));;
  ret DivertUnsorted.

(** Lines 783-961. *)
Definition place (fname fpath : pystr) (use_as_is artist title : pyval)
  : M outcome :=
  pl ← place_of fname artist title;
  dup ← duplicate_found pl;
  if (dup : bool) then
    log WARNING;; insert_db_skipped fname (lit "duplicate");; ret SkipDuplicate
  else if truthy use_as_is then
    d ← get_disk;
    if path_exists d (dest_path pl) then log WARNING;; ret SkipExistsAsIs
    else
      (if dry_run e then log DRY else copy_and_update fpath pl);;
      ret CopyAsIs
  else
    match p_artist pl, p_title pl with
    | Some a, Some t =>
        d ← get_disk;
        if path_exists d (dest_path pl) then log WARNING;; ret SkipExists
        else
          (if dry_run e then log DRY else copy_and_update fpath pl);;
          fuzzy_match ← check_db_fuzzy (Some a) (Some t) (19 # 20);
          match fuzzy_match with
          | Some (db_artist, db_title, db_path) =>
              insert_db fname db_artist db_title db_path;;
              log WARNING;; ret LinkFuzzy
          | None =>
              insert_db fname a t (dest_path pl);;
              log SUCCESS;; ret RecordImport
          end
    | _, _ => divert_unsorted fname fpath
    end.

(** The body of [for fname in files], lines 588-961. *)
Definition process_file (root fname : pystr) : M outcome :=
  db_exact ← check_db_by_filename_variations fname;
  match db_exact with
  | Some _ => when (negb (debug e)) (log WARNING);; ret SkipExact
  | None =>
      if negb (is_audio_file fname) then
        insert_db_skipped fname (lit "not_audio");; ret SuppressNotAudio
      else
        let fpath := os_path_join root fname in
        let meta := get_metadata e fpath in
        let artist := lookup_key (lit "artist") meta in
        let title := lookup_key (lit "title") meta in
        fuzzy_match ← (if truthy (of_option artist) && truthy (of_option title)
                       then check_db_fuzzy artist title (FUZZY_RATIO e)
                       else ret None);
        match fuzzy_match with
        | Some (db_artist, db_title, db_path) =>
            insert_db fname db_artist db_title db_path;;
            when (negb (debug e)) (log WARNING);;
            ret SkipFuzzyRaw
        | None =>
            if (USE_OLLAMA e || USE_OPENAI e) && negb (dry_run e) then
              r ← resolve fpath (of_option artist) (of_option title);
              let '(use_as_is, artist', title') := r in
              pl ← place_of fname artist' title';
              dup ← duplicate_found pl;
              if (dup : bool) then
                insert_db_skipped fname (lit "duplicate");; ret SkipDuplicate
              else place fname fpath use_as_is artist' title'
            else if dry_ai e then
              dry_ai_preview fpath (of_option artist) (of_option title)
            else place fname fpath PNone (of_option artist) (of_option title)
        end
  end.

(** [for root, _, files in os.walk(source): for fname in files]; an
    exception leaves the loops. *)
Fixpoint for_each_file (files : list (pystr * pystr)) : M (list outcome) :=
  match files with
  | [] => ret []
  | (root, fname) :: rest =>
      o ← process_file root fname;
      os ← for_each_file rest;
      ret (o :: os)
  end.

(** [main] in its normal mode, from the creation of the destination
    root on; [walk] is what [os.walk(source)] yields. *)
Definition main (walk : list (pystr * list pystr)) : M (list outcome) :=
  d ← get_disk;
  (if negb (bool_decide (is_Some (d !! dest e)))
   then (if dry_run e || dry_ai e then log DRY
         else set_disk (makedirs (dest e) d))
   else ret tt);;
  for_each_file (flat_map (fun rf : pystr * list pystr => map (pair rf.1) rf.2) walk).
End Pipeline.

(** ** Vocabulary of the statements *)

(** What the proofs use of the Unicode tables: lower-casing and NFKD
    leave text made of [a-z0-9 ] as it is. *)
Class UnicodeLaws (U : Unicode) : Prop := {
  lower_kept : forall s, forallb kept s = true -> str_lower s = s;
  NFKD_kept : forall s, forallb kept s = true -> normalize_NFKD s = s
}.

(** No two adjacent spaces. *)
Fixpoint single_spaced (s : pystr) : bool :=
  match s with
  | c :: s' =>
      match s' with
      | d :: _ => negb ((c =? 32)%N && (d =? 32)%N) && single_spaced s'
      | [] => true
      end
  | [] => true
  end.

Definition head_ok (s : pystr) : bool :=
  match s with c :: _ => negb (py_isspace c) | [] => true end.

Fixpoint last_ok (s : pystr) : bool :=
  match s with
  | [] => true
  | c :: s' => match s' with [] => negb (py_isspace c) | _ => last_ok s' end
  end.

(** The row [insert_db_skipped] writes. *)
Definition suppression (name reason : pystr) : row :=
  Build_row name (bracketed reason) (bracketed reason) (bracketed reason).

(** A storage path that is a bracketed reason tag. *)
Definition is_tag (p : pystr) : bool :=
  match p with
  | c :: _ => (c =? 91)%N && match last p with Some d => (d =? 93)%N | None => false end
  | [] => false
  end.

(** The ledger rows a file adds on its way to each exit. The copy on the
    use-as-is path is left open. *)
Definition outcome_writes (e : env) (fname : pystr) (o : outcome) (new : list row)
  : Prop :=
  match o with
  | SkipExact | SkipExists | SkipExistsAsIs | DryAiPreview => new = []
  | SuppressNotAudio => new = [suppression fname (lit "not_audio")]
  | SkipDuplicate => new = [suppression fname (lit "duplicate")]
  | DivertUnsorted =>
      new = if dry_run e || dry_ai e then []
            else [suppression fname (lit "no_metadata")]
  | SkipFuzzyRaw | LinkFuzzy | RecordImport =>
      exists r, new = [r] /\ original_name r = fname
  | CopyAsIs => True
  end.

(** A computation appends [new] to the ledger and ends in [r], with
    [P r new]. *)
Definition appends {A} (m : M A) (P : result A -> list row -> Prop) : Prop :=
  forall s, exists new, ledger (m s).2 = ledger s ++ new /\ P (m s).1 new.

(** May raise, never writes the ledger. *)
Definition quiet {A} (m : M A) : Prop := appends m (fun _ new => new = []).

(** Neither raises nor writes the ledger. *)
Definition calm {A} (m : M A) : Prop :=
  appends m (fun r new => new = [] /\ exists a, r = Ok a).

(** [r] is the first row of [rows] that satisfies [p]. *)
Definition first_hit (p : row -> bool) (rows : list row) (r : row) : Prop :=
  exists pre post, rows = pre ++ r :: post /\ p r = true
                   /\ forall x, x ∈ pre -> p x = false.

Section LedgerVocabulary.
Context {U : Unicode}.

(** The four comparisons of [check_db_by_filename_variations], in the
    order of the source. *)
Definition name_stages (filename : pystr) : list (row -> bool) :=
  let normalized := normalize_filename_for_db filename in
  [ fun r => pystr_eqb (original_name r) filename;
    fun r => pystr_eqb (sqlite_lower (original_name r)) (sqlite_lower filename);
    fun r => pystr_eqb (original_name r) normalized;
    fun r => pystr_eqb (sqlite_lower (original_name r)) (sqlite_lower normalized) ].

End LedgerVocabulary.

Section MatchVocabulary.
Context {U : Unicode}.

(** The row matches the query on both fields: artist and title are given
    and not empty, the two fields of the row are not empty, and each of
    the two ratios reaches the threshold. *)
Definition qualifies (artist title : option pystr) (threshold : Q) (r : row)
  : Prop :=
  exists a t,
    artist = Some a /\ title = Some t
    /\ a <> [] /\ ai_artist r <> [] /\ t <> [] /\ ai_title r <> []
    /\ (threshold <= difflib.ratio (str_lower a) (str_lower (ai_artist r)))%Q
    /\ (threshold <= difflib.ratio (str_lower t) (str_lower (ai_title r)))%Q.
End MatchVocabulary.



(** What one file may do to the ledger: the rows of its exit, and none
    when an exception escapes. *)
Definition file_post (e : env) (fname : pystr) (r : result outcome)
    (new : list row) : Prop :=
  match r with
  | Ok o => outcome_writes e fname o new
  | Raised _ => new = []
  end.

(** ** Scenarios

    Concrete runs: a destination root [/dest], a source directory [/src],
    and the answers of the outside world for each of them. *)

Definition tags_of (artist title : pystr) : mutagen_result :=
  MutagenTags [(lit "artist", [artist]); (lit "title", [title])].

(** A JSON string literal. *)
Definition quoted (s : string) : pystr := (34%N :: lit s) ++ [34%N].

(** The text
    {"use_as_is": false, "artist": "Acraze", "artists": "Acraze", "title": "Do It To It"}
    with the value it decodes to. *)
Definition acraze_reply : pystr :=
  lit "{" ++ quoted "use_as_is" ++ lit ": false, "
  ++ quoted "artist" ++ lit ": " ++ quoted "Acraze" ++ lit ", "
  ++ quoted "artists" ++ lit ": " ++ quoted "Acraze" ++ lit ", "
  ++ quoted "title" ++ lit ": " ++ quoted "Do It To It" ++ lit "}".

Definition acraze_decoded : pyval :=
  PDict [(lit "use_as_is", PBool false);
         (lit "artist", PStr (lit "Acraze"));
         (lit "artists", PStr (lit "Acraze"));
         (lit "title", PStr (lit "Do It To It"))].

(** The text
    {"use_as_is": false, "artist": ["23HOURS", "FRIO", "EDDY"], "title": "Belgisches Viertel"}
    with the value it decodes to: the artist field is a list. *)
Definition artist_list_reply : pystr :=
  lit "{" ++ quoted "use_as_is" ++ lit ": false, "
  ++ quoted "artist" ++ lit ": [" ++ quoted "23HOURS" ++ lit ", "
  ++ quoted "FRIO" ++ lit ", " ++ quoted "EDDY" ++ lit "], "
  ++ quoted "title" ++ lit ": " ++ quoted "Belgisches Viertel" ++ lit "}".

Definition artist_list_decoded : pyval :=
  PDict [(lit "use_as_is", PBool false);
         (lit "artist", PList [PStr (lit "23HOURS"); PStr (lit "FRIO"); PStr (lit "EDDY")]);
         (lit "title", PStr (lit "Belgisches Viertel"))].

Definition decode (s : pystr) : option pyval :=
  if pystr_eqb s acraze_reply then Some acraze_decoded
  else if pystr_eqb s artist_list_reply then Some artist_list_decoded
  else None.

(** No service enabled; every file carries the given tags. *)
Definition offline (dry fails : bool) (tags : mutagen_result) : env := {|
  USE_OLLAMA := false;
  USE_OPENAI := false;
  OPENAI_API_KEY := None;
  FUZZY_RATIO := 19 # 20;
  dest := lit "/dest";
  dry_run := dry;
  dry_ai := false;
  debug := false;
  MutagenFile := fun _ => tags;
  requests_post := fun _ _ _ => OllamaRaises;
  chat_completions_create := fun _ _ _ => OpenAIRaises;
  json_loads := decode;
  copy2_fails := fun _ _ => fails;
  tag_update_fails := fun _ => false
|}.

(** Both services enabled (or only the second), untagged files, and the
    second service answering [content]; the first one answers [ollama]. *)
Definition online (first dry preview : bool) (ollama : ollama_reply) (content : pystr)
  : env := {|
  USE_OLLAMA := first;
  USE_OPENAI := true;
  OPENAI_API_KEY := Some (lit "sk-key");
  FUZZY_RATIO := 19 # 20;
  dest := lit "/dest";
  dry_run := dry;
  dry_ai := preview;
  debug := false;
  MutagenFile := fun _ => MutagenNone;
  requests_post := fun _ _ _ => ollama;
  chat_completions_create := fun _ _ _ => OpenAIContent (Some content);
  json_loads := decode;
  copy2_fails := fun _ _ => false;
  tag_update_fails := fun _ => false
|}.

Definition empty_state : state := {| ledger := []; disk := ∅; events := [] |}.

(** After the import of [first.opus] as ACRAZE - Do It To It. *)
Definition acraze_row : row :=
  Build_row (lit "first.opus") (lit "ACRAZE") (lit "Do It To It")
            (lit "/dest/ACRAZE/Do It To It.opus").

Definition acraze_state : state := {|
  ledger := [acraze_row];
  disk := {[ lit "/dest" := []; lit "/dest/ACRAZE" := [lit "Do It To It.opus"] ]};
  events := []
|}.

(** A destination that holds [Love  Hate.mp3] (two spaces) under [X], and
    an empty ledger. *)
Definition love_hate_state : state := {|
  ledger := [];
  disk := {[ lit "/dest" := []; lit "/dest/X" := [lit "Love  Hate.mp3"] ]};
  events := []
|}.

(** A ledger that only knows [cover.jpg] as not audio. *)
Definition cover_state : state := {|
  ledger := [suppression (lit "cover.jpg") (lit "not_audio")];
  disk := {[ lit "/dest" := [] ]};
  events := []
|}.



(** The destination root exists and is empty. *)
Definition fresh_state : state := {|
  ledger := [];
  disk := {[ lit "/dest" := [] ]};
  events := []
|}.

Definition acraze_tags : mutagen_result := tags_of (lit "ACRAZE") (lit "Do It To It").

(** A second file that the service resolves to Acraze - Do It To It,
    processed against [acraze_state]. *)
Definition acraze_link_run : result outcome * state :=
  process_file (U := basic_latin) (online false false false OllamaRaises acraze_reply)
    (lit "/src") (lit "second.opus") acraze_state.

(** A dry run over one tagged file, from nothing. *)
Definition dry_run_pass : result (list outcome) * state :=
  main (U := basic_latin) (offline true false acraze_tags)
    [(lit "/src", [lit "Do It To It.opus"])] empty_state.

(** Two untagged files, the second service alone enabled and answering
    with a list for the artist. *)
Definition artist_list_pass : result (list outcome) * state :=
  main (U := basic_latin) (online false false false OllamaRaises artist_list_reply)
    [(lit "/src", [lit "a.opus"; lit "b.opus"])] fresh_state.

(** The same two files with both services enabled, the second one
    ready to answer well. *)
Definition two_services_pass : result (list outcome) * state :=
  main (U := basic_latin) (online true false false OllamaRaises acraze_reply)
    [(lit "/src", [lit "a.opus"; lit "b.opus"])] fresh_state.

(** The second service enabled, and its key set to the empty text. *)
Definition empty_key : env := {|
  USE_OLLAMA := false;
  USE_OPENAI := true;
  OPENAI_API_KEY := Some [];
  FUZZY_RATIO := 19 # 20;
  dest := lit "/dest";
  dry_run := false;
  dry_ai := false;
  debug := false;
  MutagenFile := fun _ => MutagenNone;
  requests_post := fun _ _ _ => OllamaRaises;
  chat_completions_create := fun _ _ _ => OpenAIContent (Some acraze_reply);
  json_loads := decode;
  copy2_fails := fun _ _ => false;
  tag_update_fails := fun _ => false
|}.


(** A file tagged X - Love / Hate, processed against [love_hate_state]. *)
Definition love_hate_run : result outcome * state :=
  process_file (U := basic_latin)
    (offline false false (tags_of (lit "X") (lit "Love / Hate")))
    (lit "/src") (lit "lh.mp3") love_hate_state.

(** The first character of a string is not a space. *)
Definition no_leading_space (s : pystr) : bool :=
  match s with c :: _ => negb (c =? 32)%N | [] => true end.

(** A block of the matcher lies in the rows from [alo] up to [hi]. *)
Definition block_within (alo hi : nat) (best : difflib.block) : Prop :=
  alo <= best.1.1 /\ best.1.1 + best.2 <= hi.

(** The rows the matcher has still to search, each range counted once
    more. *)
Definition queue_weight (queue : list (nat * nat * nat * nat)) : nat :=
  foldr (fun q acc => 2 * (q.1.1.2 - q.1.1.1) + 1 + acc) 0 queue.

(** ** The rest of [import.py] *)

Definition AUDIO_EXT_PREFERENCE : list pystr :=
  [lit ".flac"; lit ".wav"; lit ".aac"; lit ".m4a"; lit ".opus"; lit ".ogg"; lit ".mp3"].

(** [best_audio_ext(exts)] for a list of extensions. *)
Definition best_audio_ext (exts : list pystr) : option pystr :=
  match List.find (fun pref => bool_decide (pref ∈ exts)) AUDIO_EXT_PREFERENCE with
  | Some pref => Some pref
  | None => head exts
  end.

(** [s.split(sep)] *)
Fixpoint split_on (sep : N) (s : pystr) : list pystr :=
  match s with
  | [] => [[]]
  | c :: s' =>
      if (c =? sep)%N then [] :: split_on sep s'
      else match split_on sep s' with
           | piece :: pieces => (c :: piece) :: pieces
           | [] => [[c]]
           end
  end.

(** [sep.join(pieces)] *)
Fixpoint join (sep : pystr) (pieces : list pystr) : pystr :=
  match pieces with
  | [] => []
  | [piece] => piece
  | piece :: pieces' => piece ++ sep ++ join sep pieces'
  end.

(** [s < t] on [str]: the order of the code points. *)
Fixpoint pystr_ltb (s t : pystr) : bool :=
  match s, t with
  | _, [] => false
  | [], _ :: _ => true
  | c :: s', d :: t' => (c <? d)%N || ((c =? d)%N && pystr_ltb s' t')
  end.

(** One more element in a sorted list without repeats. *)
Fixpoint insert_sorted (x : pystr) (l : list pystr) : list pystr :=
  match l with
  | [] => [x]
  | y :: l' =>
      if pystr_eqb x y then l
      else if pystr_ltb x y then x :: l
      else y :: insert_sorted x l'
  end.

(** [sorted(set(l))] *)
Definition sorted_set (l : list pystr) : list pystr := foldr insert_sorted [] l.

Section MoreNormalizer.
Context {U : Unicode}.

(** The keys [sorted(set(...))] is applied to in [normalize_artist_list]. *)
Definition artist_keys (artist_str : pystr) : list pystr :=
  let artists :=
    List.filter nonempty (map strip (split_on 59%N artist_str)) in
  map normalize_string artists.

Definition normalize_artist_list (artist_str : pystr) : pystr :=
  join (lit "; ") (sorted_set (artist_keys artist_str)).
End MoreNormalizer.

(** The text of a C string: what stands before the first U+0000. *)
Fixpoint c_str (s : pystr) : pystr :=
  match s with
  | [] => []
  | c :: s' => if (c =? 0)%N then [] else c :: c_str s'
  end.

(** The matcher of LIKE: [%] stands for any run of characters, [_] for
    one character, and the letters of Basic Latin match in either case. *)
Fixpoint like_match (pattern text : pystr) : bool :=
  match pattern with
  | [] => negb (nonempty text)
  | p :: pattern' =>
      if (p =? 37)%N then
        (fix any (t : pystr) : bool :=
           like_match pattern' t
           || match t with [] => false | _ :: t' => any t' end) text
      else
        match text with
        | [] => false
        | c :: text' =>
            ((p =? 95)%N || (ascii_lower_cp p =? ascii_lower_cp c)%N)
            && like_match pattern' text'
        end
  end.

(** [text LIKE pattern] of SQLite, which reads both as C strings. *)
Definition sql_like (pattern text : pystr) : bool :=
  like_match (c_str pattern) (c_str text).

(** A [str] bound to a query is encoded as UTF-8, which has no encoding
    for the surrogate code points U+D800 to U+DFFF; [os.walk] yields such
    code points for the bytes of a file name that do not decode. *)
Definition utf8_encodable (c : N) : bool :=
  negb ((55296 <=? c)%N && (c <=? 57343)%N).

Definition sql_text (s : pystr) : M unit :=
  if forallb utf8_encodable s then ret tt else raise UnicodeEncodeError.

Section MoreLedger.
Context {U : Unicode}.

Definition exact_match (name : pystr) (rows : list row) : option row :=
  match fetchone (fun r => pystr_eqb (original_name r) name) rows with
  | Some r => Some r
  | None =>
      let normalized_name := normalize_filename_for_db name in
      fetchone (fun r => pystr_eqb (original_name r) normalized_name) rows
  end.

Definition check_db_exact (name : pystr) : M (option row) :=
  rows ← get_ledger; ret (exact_match name rows).

(** The loops of [bulk_import_files_to_db] over the names [os.walk]
    yields, with the running [count]. The first query of the lookup binds
    the name as it comes from the walk. *)
Fixpoint bulk_import_loop (e : env) (files : list pystr) (count : nat) : M nat :=
  match files with
  | [] => ret count
  | fname :: rest =>
      sql_text fname;;
      found ← check_db_by_filename_variations fname;
      match found with
      | Some _ => bulk_import_loop e rest count
      | None =>
          (if is_audio_file fname
           then insert_db_skipped fname (lit "bulk_import_audio")
           else insert_db_skipped fname (lit "bulk_import_non_audio"));;
          bulk_import_loop e rest (S count)
      end
  end.

Definition bulk_import_files_to_db (e : env) (walk : list (pystr * list pystr))
  : M nat :=
  log INFO;;
  count ← bulk_import_loop e (flat_map snd walk) 0;
  log SUCCESS;;
  ret count.
End MoreLedger.

(** The row filter of [DELETE ... WHERE ai_artist LIKE "[bulk_import_%]"]. *)
Definition is_bulk_row (r : row) : bool :=
  sql_like (lit "[bulk_import_%]") (ai_artist r).

(** [cleanup_bulk_imports()]; the result is [c.rowcount]. *)
Definition cleanup_bulk_imports : M nat :=
  fun s =>
    let deleted_count := length (List.filter is_bulk_row (ledger s)) in
    (Ok deleted_count,
     {| ledger := List.filter (fun r => negb (is_bulk_row r)) (ledger s);
        disk := disk s;
        events := events s ++ [Log SUCCESS] |}).

(** ** The entry point

    The program from its start: the module body, which builds the client
    of the second service at line 59, then [init_db] and [main] with its
    modes. The client cannot be built without a key: with
    [OPENAI_API_KEY] unset the import of the module ends in an exception,
    whatever the arguments; a key set to the empty text is accepted. The
    flags of a normal run and the absolute destination are those of the
    environment; [abspath] and [walk] stand for [os.path.abspath] and
    [os.walk]. The result is the exit status of the process: the argument
    of [sys.exit], or 1 when an exception escapes. *)



Definition isdir (d : fs) (p : pystr) : bool := bool_decide (is_Some (d !! p)).


Section EntryPoint.
Context {U : Unicode}.

End EntryPoint.

(** ** Vocabulary of the further statements *)

Definition is_request (ev : event) : bool :=
  match ev with AskOllama _ _ _ | AskOpenAI _ _ _ => true | _ => false end.

Definition is_copy (ev : event) : bool :=
  match ev with Copy _ _ => true | _ => false end.

Definition is_openai_request (ev : event) : bool :=
  match ev with AskOpenAI _ _ _ => true | _ => false end.

(** From [s] to [s']: every new event passes [ok], and the disk is the
    same when [fixed_disk] is set. *)
Definition steady (ok : event -> bool) (fixed_disk : bool) (s s' : state) : Prop :=
  (fixed_disk = true -> disk s' = disk s)
  /\ exists evs, events s' = events s ++ evs /\ forallb ok evs = true.

(** A computation is steady from every state. *)
Definition keeps {A} (ok : event -> bool) (fixed_disk : bool) (m : M A) : Prop :=
  forall s, steady ok fixed_disk s (m s).2.

(** The ledger knows the file name. *)
Definition ledgered (fname : pystr) (rows : list row) : Prop :=
  exists r, r ∈ rows /\ original_name r = fname.

Definition not_copy (ev : event) : bool := negb (is_copy ev).
Definition not_request (ev : event) : bool := negb (is_request ev).
Definition not_openai_request (ev : event) : bool := negb (is_openai_request ev).

(** Where [place_of] puts a file: the directory and the path, when it
    does not raise. *)
Definition placed_at (r : result placement * state) : option (pystr * pystr) :=
  match r.1 with
  | Ok pl => Some (dest_dir pl, dest_path pl)
  | Raised _ => None
  end.


(** What a file that ends as a use-as-is copy adds to the ledger. *)
Definition copy_as_is_post (r : result outcome) (new : list row) : Prop :=
  r = Ok CopyAsIs -> new = [].

(** The file names [os.walk] yields, in the order of the loops. *)
Definition walked (walk : list (pystr * list pystr)) : list pystr :=
  flat_map snd walk.

(** The row [bulk_import_files_to_db] writes for a file name. *)
Definition bulk_row {U : Unicode} (fname : pystr) : row :=
  suppression fname
    (if is_audio_file fname then lit "bulk_import_audio"
     else lit "bulk_import_non_audio").

(** Every directory of [d] is a directory of [d'], and holds there the
    names it held, in front of the new ones. *)
Definition fs_le (d d' : fs) : Prop :=
  forall dir names, d !! dir = Some names ->
                    exists more, d' !! dir = Some (names ++ more).

(** A computation that only adds to the file system. *)
Definition grows {A} (m : M A) : Prop :=
  forall s, fs_le (disk s) (disk (m s).2).

(** The names of a walk up to the first one that cannot be bound to a
    query. *)
Fixpoint bindable_prefix (files : list pystr) : list pystr :=
  match files with
  | f :: rest =>
      if forallb utf8_encodable f then f :: bindable_prefix rest else []
  | [] => []
  end.

(** Every name of the walk can be bound. *)
Definition all_bindable (files : list pystr) : bool :=
  forallb (forallb utf8_encodable) files.

(** * Properties *)

(** ** Normalizer *)

Ltac decide_cmp :=
  repeat match goal with
    | |- context [(?a <=? ?b)%N] =>
        first [ rewrite (proj2 (N.leb_le a b)) by lia
              | rewrite (proj2 (N.leb_gt a b)) by lia ]
    | |- context [(?a =? ?b)%N] =>
        first [ rewrite (proj2 (N.eqb_eq a b)) by lia
              | rewrite (proj2 (N.eqb_neq a b)) by lia ]
    end.

Lemma kept_cases c :
  kept c = true ->
  (97 <= c <= 122)%N \/ (48 <= c <= 57)%N \/ c = 32%N.
Proof.
  unfold kept. intros H.
  destruct (N.leb_spec 97 c), (N.leb_spec c 122), (N.leb_spec 48 c),
    (N.leb_spec c 57), (N.eqb_spec c 32); simpl in H; try discriminate; lia.
Qed.

Lemma kept_sep c : kept c = true -> sep_class c = (c =? 32)%N.
Proof.
  intros H. apply kept_cases in H.
  unfold sep_class, py_isspace.
  destruct H as [H | [H | H]]; [| | subst c; reflexivity]; decide_cmp; reflexivity.
Qed.

Lemma sep_class_space c : sep_class c = false -> (c =? 32)%N = false.
Proof.
  intros H. destruct (N.eqb_spec c 32) as [-> | _]; [discriminate H | reflexivity].
Qed.

Lemma forallb_lstrip P s : forallb P s = true -> forallb P (lstrip s) = true.
Proof.
  induction s as [| c s IH]; simpl; [done |].
  intros [Hc Hs]%andb_true_iff. destruct (py_isspace c); [auto |].
  simpl. by rewrite Hc, Hs.
Qed.

Lemma forallb_rstrip P s : forallb P s = true -> forallb P (rstrip s) = true.
Proof.
  induction s as [| c s IH]; simpl; [done |].
  intros [Hc Hs]%andb_true_iff. specialize (IH Hs).
  destruct (rstrip s) as [| d r].
  - destruct (py_isspace c); simpl; [done | by rewrite Hc].
  - change (forallb P (c :: d :: r)) with (P c && forallb P (d :: r)).
    by rewrite Hc, IH.
Qed.

Lemma forallb_strip P s : forallb P s = true -> forallb P (strip s) = true.
Proof. intros H. by apply forallb_rstrip, forallb_lstrip. Qed.

Lemma head_ok_lstrip s : head_ok (lstrip s) = true.
Proof.
  induction s as [| c s IH]; simpl; [done |].
  destruct (py_isspace c) eqn:E; [done | simpl; by rewrite E].
Qed.

Lemma head_ok_rstrip s : head_ok s = true -> head_ok (rstrip s) = true.
Proof.
  destruct s as [| c s]; simpl; [done |].
  destruct (rstrip s); [destruct (py_isspace c) eqn:E |]; simpl; rewrite ?E; done.
Qed.

Lemma last_ok_rstrip s : last_ok (rstrip s) = true.
Proof.
  induction s as [| c s IH]; simpl; [done |].
  destruct (rstrip s) as [| d r].
  - destruct (py_isspace c) eqn:E; simpl; [done | by rewrite E].
  - exact IH.
Qed.

Lemma lstrip_id s : head_ok s = true -> lstrip s = s.
Proof. destruct s as [| c s]; simpl; [done |]. by destruct (py_isspace c). Qed.

Lemma rstrip_id s : last_ok s = true -> rstrip s = s.
Proof.
  induction s as [| c s IH]; [done |].
  destruct s as [| d s].
  - simpl. by destruct (py_isspace c).
  - intros H. change (last_ok (c :: d :: s)) with (last_ok (d :: s)) in H.
    change (rstrip (c :: d :: s))
      with (match rstrip (d :: s) with
            | [] => if py_isspace c then [] else [c]
            | r => c :: r
            end).
    by rewrite (IH H).
Qed.

Lemma strip_stripped s :
  head_ok (strip s) = true /\ last_ok (strip s) = true.
Proof.
  split; [apply head_ok_rstrip, head_ok_lstrip | apply last_ok_rstrip].
Qed.

Lemma strip_id s : head_ok s = true -> last_ok s = true -> strip s = s.
Proof. intros Hh Hl. unfold strip. rewrite (lstrip_id s Hh). by apply rstrip_id. Qed.

Lemma single_spaced_tail c s : single_spaced (c :: s) = true -> single_spaced s = true.
Proof. destruct s; simpl; [done |]. by intros [_ H]%andb_true_iff. Qed.

Lemma single_spaced_lstrip s : single_spaced s = true -> single_spaced (lstrip s) = true.
Proof.
  induction s as [| c s IH]; [done |]. intros H. simpl.
  destruct (py_isspace c); [| done]. apply IH. by eapply single_spaced_tail.
Qed.

Lemma rstrip_head d r s : rstrip s = d :: r -> exists s', s = d :: s'.
Proof.
  destruct s as [| c s]; simpl; [done |].
  destruct (rstrip s); [destruct (py_isspace c) |]; intros [= <- <-]; eauto.
Qed.

Lemma single_spaced_rstrip s : single_spaced s = true -> single_spaced (rstrip s) = true.
Proof.
  induction s as [| c s IH]; [done |]. intros H.
  pose proof (single_spaced_tail _ _ H) as Ht. specialize (IH Ht).
  simpl. destruct (rstrip s) as [| d r] eqn:E.
  - by destruct (py_isspace c).
  - destruct (rstrip_head _ _ _ E) as [s' ->].
    simpl in H. apply andb_true_iff in H as [Hcd _].
    change (single_spaced (c :: d :: r))
      with (negb ((c =? 32)%N && (d =? 32)%N) && single_spaced (d :: r)).
    by rewrite Hcd, IH.
Qed.

Lemma single_spaced_strip s : single_spaced s = true -> single_spaced (strip s) = true.
Proof. intros H. by apply single_spaced_rstrip, single_spaced_lstrip. Qed.

Lemma collapse_single_spaced b s :
  single_spaced (re_sub_runs sep_class [32%N] b s) = true
  /\ (b = true -> no_leading_space (re_sub_runs sep_class [32%N] b s) = true).
Proof.
  revert b. induction s as [| c s IH]; intros b; [done |].
  simpl. destruct (sep_class c) eqn:E.
  - destruct (IH true) as [Hs Hl]. specialize (Hl eq_refl).
    destruct b; simpl; [done |]. split; [| done].
    destruct (re_sub_runs sep_class [32%N] true s) as [| d r]; [done |].
    simpl in Hl. apply negb_true_iff in Hl. rewrite Hl. simpl. exact Hs.
  - destruct (IH false) as [Hs _]. pose proof (sep_class_space _ E) as Hc.
    split; [| intros _; simpl; by rewrite Hc].
    destruct (re_sub_runs sep_class [32%N] false s) as [| d r]; [done |].
    change (negb ((c =? 32)%N && (d =? 32)%N) && single_spaced (d :: r) = true).
    by rewrite Hc, Hs.
Qed.

Lemma collapse_kept b s :
  forallb kept s = true -> forallb kept (re_sub_runs sep_class [32%N] b s) = true.
Proof.
  revert b. induction s as [| c s IH]; intros b; [done |].
  simpl. intros [Hc Hs]%andb_true_iff.
  destruct (sep_class c); [destruct b |].
  - by apply IH.
  - change (forallb kept (re_sub_runs sep_class [32%N] true s) = true). by apply IH.
  - simpl. rewrite Hc. by apply IH.
Qed.

Lemma collapse_id b s :
  forallb kept s = true -> single_spaced s = true ->
  (b = true -> no_leading_space s = true) ->
  re_sub_runs sep_class [32%N] b s = s.
Proof.
  revert b. induction s as [| c s IH]; intros b; [done |].
  intros [Hc Hs]%andb_true_iff Hsp Hb. simpl.
  pose proof (single_spaced_tail _ _ Hsp) as Ht.
  rewrite (kept_sep c Hc). destruct (N.eqb_spec c 32) as [-> | Hne].
  - destruct b; [by specialize (Hb eq_refl) |]. simpl. f_equal.
    apply IH; [done | done |]. intros _.
    destruct s as [| d s]; [done |]. simpl in Hsp.
    apply andb_true_iff in Hsp as [Hd _]. simpl. exact Hd.
  - f_equal. apply IH; [done | done | done].
Qed.

Lemma delete_unkept_id s :
  forallb kept s = true -> re_sub_delete (fun c => negb (kept c)) s = s.
Proof.
  unfold re_sub_delete. induction s as [| c s IH]; [done |].
  simpl. intros [Hc Hs]%andb_true_iff. rewrite Hc. simpl. by rewrite IH.
Qed.

Lemma delete_unkept_kept s :
  forallb kept (re_sub_delete (fun c => negb (kept c)) s) = true.
Proof.
  unfold re_sub_delete. induction s as [| c s IH]; [done |].
  simpl. destruct (kept c) eqn:E; simpl; [by rewrite E |]. exact IH.
Qed.

Section NormalizerFacts.
Context {U : Unicode}.

Lemma normalize_string_kept x : forallb kept (normalize_string x) = true.
Proof.
  unfold normalize_string. destruct (negb (nonempty x)); [done |].
  apply forallb_strip, delete_unkept_kept.
Qed.

Lemma normalize_string_stripped x :
  head_ok (normalize_string x) = true /\ last_ok (normalize_string x) = true.
Proof.
  unfold normalize_string. destruct (negb (nonempty x)); [done |].
  apply strip_stripped.
Qed.

Context {L : UnicodeLaws U}.

Lemma normalize_string_on_kept y :
  forallb kept y = true ->
  normalize_string y = strip (re_sub_runs sep_class [32%N] false y).
Proof.
  intros Hy. unfold normalize_string. destruct y as [| c y]; [done |].
  simpl negb. cbv iota.
  rewrite (lower_kept _ Hy), (NFKD_kept _ Hy).
  by rewrite (delete_unkept_id _ (collapse_kept false _ Hy)).
Qed.

Lemma normalize_string_fixed y :
  forallb kept y = true -> single_spaced y = true ->
  head_ok y = true -> last_ok y = true ->
  normalize_string y = y.
Proof.
  intros Hk Hs Hh Hl. rewrite (normalize_string_on_kept y Hk).
  rewrite (collapse_id false y Hk Hs); [by apply strip_id | done].
Qed.

Lemma normalize_twice_single_spaced x :
  single_spaced (normalize_string (normalize_string x)) = true.
Proof.
  rewrite (normalize_string_on_kept _ (normalize_string_kept x)).
  apply single_spaced_strip, collapse_single_spaced.
Qed.
End NormalizerFacts.

(** C10 (as amended): [normalize_string] is idempotent on every string
    whose normalized form has no two adjacent spaces, and for every
    string the second application yields a fixed point,
    normalize_string(normalize_string(normalize_string(x))) ==
    normalize_string(normalize_string(x)). *)
Theorem normalize_string_idempotent_single_spaced
    (U : Unicode) (L : UnicodeLaws U) (x : pystr) :
  (single_spaced (normalize_string x) = true ->
   normalize_string (normalize_string x) = normalize_string x)
  /\ normalize_string (normalize_string (normalize_string x))
     = normalize_string (normalize_string x).
Proof.
  assert (Hfix : forall y, single_spaced (normalize_string y) = true ->
                 normalize_string (normalize_string y) = normalize_string y).
  { intros y Hs. destruct (normalize_string_stripped y) as [Hh Hl].
    apply normalize_string_fixed; [apply normalize_string_kept | done | done | done]. }
  split; [apply Hfix |].
  apply Hfix, normalize_twice_single_spaced.
Qed.

Lemma ascii_lower_kept s : forallb kept s = true -> map ascii_lower_cp s = s.
Proof.
  induction s as [| c s IH]; [done |].
  simpl. intros [Hc Hs]%andb_true_iff. rewrite (IH Hs). f_equal.
  unfold ascii_lower_cp. apply kept_cases in Hc.
  destruct Hc as [H | [H | ->]]; [| | done]; decide_cmp; try done.
  all: destruct (N.leb_spec 65 c); simpl; decide_cmp; done.
Qed.

#[global] Instance basic_latin_laws : UnicodeLaws basic_latin.
Proof. split; [exact ascii_lower_kept | done]. Qed.

Lemma normalize_string_idempotent_single_spaced_witness :
  (single_spaced (normalize_string (U := basic_latin) (lit "Do It To It")) = true ->
   normalize_string (U := basic_latin)
     (normalize_string (U := basic_latin) (lit "Do It To It"))
   = normalize_string (U := basic_latin) (lit "Do It To It"))
  /\ normalize_string (U := basic_latin)
       (normalize_string (U := basic_latin)
          (normalize_string (U := basic_latin) (lit "Do It To It")))
     = normalize_string (U := basic_latin)
         (normalize_string (U := basic_latin) (lit "Do It To It")).
Proof.
  exact (normalize_string_idempotent_single_spaced
           basic_latin basic_latin_laws (lit "Do It To It")).
Defined.

(** C10 (as stated) fails: with a stripped character between two
    separators, here the text [a ! b], the first application leaves two
    adjacent spaces, which the second one collapses. *)
Lemma normalize_string_not_idempotent :
  normalize_string (U := basic_latin) (lit "a ! b") = lit "a  b"
  /\ normalize_string (U := basic_latin)
       (normalize_string (U := basic_latin) (lit "a ! b")) = lit "a b"
  /\ normalize_string (U := basic_latin)
       (normalize_string (U := basic_latin) (lit "a ! b"))
     <> normalize_string (U := basic_latin) (lit "a ! b").
Proof. vm_compute. split; [done |]. split; [done |]. discriminate. Qed.

(** ** The matcher terminates within its fuel *)

Section MatcherBounds.
Import difflib.

Lemma scan_row_bounds j2len i alo blo bhi js newj2len best :
  alo <= i ->
  map_Forall (fun _ v => v <= i - alo) j2len ->
  map_Forall (fun _ v => v <= S i - alo) newj2len ->
  block_within alo (S i) best ->
  map_Forall (fun _ v => v <= S i - alo)
    (scan_row j2len i blo bhi js newj2len best).1
  /\ block_within alo (S i) (scan_row j2len i blo bhi js newj2len best).2.
Proof.
  intros Hi Hold. revert newj2len best.
  induction js as [| j js IH]; intros newj2len best Hnew Hbest; [done |].
  simpl. destruct (j <? blo); [by apply IH |].
  destruct (bhi <=? j); [done |].
  set (prev := match j with 0 => 0 | S j' => default 0 (j2len !! j') end).
  assert (Hprev : prev <= i - alo).
  { unfold prev. destruct j as [| j']; [lia |].
    destruct (j2len !! j') as [v |] eqn:E; simpl; [| lia].
    exact (Hold j' v E). }
  apply IH.
  - apply map_Forall_insert_2; [lia | done].
  - destruct (best.2 <? S prev); [| done].
    unfold block_within. simpl. lia.
Qed.

Lemma scan_rows_bounds a b2j alo blo bhi n i j2len best :
  alo <= i ->
  map_Forall (fun _ v => v <= i - alo) j2len ->
  block_within alo i best ->
  block_within alo (i + n) (scan_rows a b2j blo bhi (seq i n) j2len best).
Proof.
  revert i j2len best. induction n as [| n IH]; intros i j2len best Hi Hold Hbest.
  - simpl. by rewrite Nat.add_0_r.
  - simpl.
    set (js := match a !! i with Some x => default [] (b2j !! x) | None => [] end).
    assert (Hbest' : block_within alo (S i) best).
    { destruct Hbest. split; lia. }
    pose proof (scan_row_bounds j2len i alo blo bhi js ∅ best Hi Hold
                  (map_Forall_empty _) Hbest') as [Hnew Hb].
    destruct (scan_row j2len i blo bhi js ∅ best) as [newj2len best1].
    simpl in Hnew, Hb.
    replace (i + S n) with (S i + n) by lia.
    apply IH; [lia | | done].
    eapply map_Forall_impl; [exact Hnew |]. simpl. intros _ v Hv. lia.
Qed.

Lemma extend_left_bounds a b junk alo blo besti bestj bestsize :
  alo <= besti ->
  alo <= (extend_left a b junk alo blo besti bestj bestsize).1.1
  /\ (extend_left a b junk alo blo besti bestj bestsize).1.1
     + (extend_left a b junk alo blo besti bestj bestsize).2
     = besti + bestsize.
Proof.
  revert bestj bestsize. induction besti as [| i' IH]; intros bestj bestsize Hlo.
  - simpl. destruct bestj; simpl; lia.
  - simpl. destruct bestj as [| j']; [simpl; lia |].
    destruct (alo <? S i') eqn:E; simpl; [| lia].
    destruct ((blo <? S j') && junk_is junk (b !! j') && elt_eqb (a !! i') (b !! j'));
      [| simpl; lia].
    apply Nat.ltb_lt in E.
    destruct (IH j' (S bestsize) ltac:(lia)) as [H1 H2]. split; [done | lia].
Qed.

Lemma extend_right_bounds a b junk ahi bhi besti bestj fuel bestsize :
  besti + bestsize <= ahi ->
  besti + extend_right a b junk ahi bhi besti bestj fuel bestsize <= ahi.
Proof.
  revert bestsize. induction fuel as [| fuel IH]; intros bestsize H; [done |].
  simpl. destruct (besti + bestsize <? ahi) eqn:E; simpl; [| done].
  destruct ((bestj + bestsize <? bhi) && junk_is junk (b !! (bestj + bestsize))
            && elt_eqb (a !! (besti + bestsize)) (b !! (bestj + bestsize)));
    [| done].
  apply IH. apply Nat.ltb_lt in E. lia.
Qed.

Lemma extend_bounds a b junk alo ahi blo bhi best :
  block_within alo ahi best ->
  block_within alo ahi (extend a b junk alo ahi blo bhi best).
Proof.
  intros [Hlo Hhi]. unfold extend.
  pose proof (extend_left_bounds a b junk alo blo best.1.1 best.1.2 best.2 Hlo)
    as [H1 H2].
  destruct (extend_left a b junk alo blo best.1.1 best.1.2 best.2)
    as [[besti bestj] bestsize].
  simpl in H1, H2. split; simpl; [done |].
  apply extend_right_bounds. lia.
Qed.

Lemma find_longest_match_bounds a b b2j alo ahi blo bhi :
  alo <= ahi ->
  block_within alo ahi (find_longest_match a b b2j alo ahi blo bhi).
Proof.
  intros H. unfold find_longest_match.
  do 2 apply extend_bounds.
  replace ahi with (alo + (ahi - alo)) at 1 by lia.
  apply scan_rows_bounds; [done | apply map_Forall_empty |].
  split; simpl; lia.
Qed.

Lemma blocks_loop_enough a b b2j fuel queue acc :
  queue_weight queue <= fuel ->
  Forall (fun q : nat * nat * nat * nat => q.1.1.1 <= q.1.1.2) queue ->
  is_Some (blocks_loop a b b2j fuel queue acc).
Proof.
  revert queue acc. induction fuel as [| fuel IH]; intros queue acc Hw Hq.
  - destruct queue as [| [[[alo ahi] blo] bhi] queue]; [by eexists |].
    simpl in Hw. lia.
  - destruct queue as [| [[[alo ahi] blo] bhi] queue]; [by eexists |].
    simpl in Hw. apply Forall_cons in Hq as [Hlo Hq]. simpl in Hlo.
    simpl.
    pose proof (find_longest_match_bounds a b b2j alo ahi blo bhi Hlo) as [H1 H2].
    destruct (find_longest_match a b b2j alo ahi blo bhi) as [[i j] k].
    simpl in H1, H2.
    destruct (0 <? k) eqn:Ek; [| apply IH; [lia | done]].
    apply Nat.ltb_lt in Ek.
    apply IH.
    + destruct ((alo <? i) && (blo <? j)), ((i + k <? ahi) && (j + k <? bhi));
        simpl; lia.
    + destruct ((alo <? i) && (blo <? j)) eqn:E1,
               ((i + k <? ahi) && (j + k <? bhi)) eqn:E2;
        repeat apply Forall_cons_2; simpl; try done; lia.
Qed.

Lemma blocks_loop_total a b :
  is_Some (blocks_loop a b (chain_b b) (2 * length a + 1)
             [(0, length a, 0, length b)] []).
Proof.
  apply blocks_loop_enough.
  - simpl. lia.
  - apply Forall_cons_2; [simpl; lia | done].
Qed.
End MatcherBounds.

(** ** ImportLedger *)

Lemma find_first_hit (p : row -> bool) rows r :
  List.find p rows = Some r -> first_hit p rows r.
Proof.
  induction rows as [| x rows IH]; simpl; [done |].
  destruct (p x) eqn:E.
  - intros [= ->]. exists [], rows. split; [done |]. split; [done |]. set_solver.
  - intros H. destruct (IH H) as (pre & post & -> & Hr & Hpre).
    exists (x :: pre), post. split; [done |]. split; [done |].
    intros y [-> | Hy]%elem_of_cons; auto.
Qed.

Lemma find_no_hit (p : row -> bool) rows :
  List.find p rows = None -> forall x, x ∈ rows -> p x = false.
Proof.
  induction rows as [| y rows IH]; simpl; [set_solver |].
  destruct (p y) eqn:E; [done |].
  intros H x [-> | Hx]%elem_of_cons; auto.
Qed.

Section FuzzyLookup.
Context {U : Unicode}.

Lemma is_similar_spec (a : option pystr) (b : pystr) (threshold : Q) :
  is_similar a b threshold = true
  <-> exists x, a = Some x /\ x <> [] /\ b <> []
                /\ (threshold <= difflib.ratio (str_lower x) (str_lower b))%Q.
Proof.
  unfold is_similar. destruct a as [x |]; [| split; [done | by intros (? & ? & _)]].
  destruct x as [| c x]; simpl.
  { split; [done | by intros (? & [= <-] & ? & _)]. }
  destruct b as [| d b]; simpl.
  { split; [done | by intros (? & _ & _ & ? & _)]. }
  rewrite Qle_bool_iff. split.
  - intros H. by exists (c :: x).
  - by intros (? & [= <-] & _ & _ & H).
Qed.

Lemma both_similar_qualifies (artist title : option pystr) (threshold : Q) (r : row) :
  is_similar artist (ai_artist r) threshold
  && is_similar title (ai_title r) threshold = true
  <-> qualifies artist title threshold r.
Proof.
  rewrite andb_true_iff, !is_similar_spec. unfold qualifies. split.
  - intros [(a & -> & Ha & Hra & Hqa) (t & -> & Ht & Hrt & Hqt)].
    by exists a, t.
  - intros (a & t & -> & -> & Ha & Hra & Ht & Hrt & Hqa & Hqt).
    split; [by exists a | by exists t].
Qed.

Lemma not_similar_not_qualifies (artist title : option pystr) (threshold : Q)
    (r : row) :
  is_similar artist (ai_artist r) threshold
  && is_similar title (ai_title r) threshold = false ->
  ~ qualifies artist title threshold r.
Proof.
  intros H Hq. apply both_similar_qualifies in Hq. congruence.
Qed.
End FuzzyLookup.

(** C5 (as amended): [check_db_fuzzy] scans every row of the ledger,
    suppression rows included, in the order of insertion. It returns the
    artist, the title and the storage path of the first row for which
    the ratio of the lower-cased artists and, independently, the ratio
    of the lower-cased titles both reach the threshold, none of the four
    texts being empty; it returns nothing exactly when no row is such a
    row. A row that matches on one field only is never returned, and the
    ledger is left as it is. *)
Theorem check_db_fuzzy_first_qualifying_row
    (U : Unicode) (artist title : option pystr) (threshold : Q) (s : state) :
  exists found,
    check_db_fuzzy artist title threshold s = (Ok found, s)
    /\ match found with
       | Some hit =>
           exists pre r post,
             ledger s = pre ++ r :: post
             /\ hit = (ai_artist r, ai_title r, storage_path r)
             /\ qualifies artist title threshold r
             /\ forall x, x ∈ pre -> ~ qualifies artist title threshold x
       | None =>
           forall x, x ∈ ledger s -> ~ qualifies artist title threshold x
       end.
Proof.
  exists (fuzzy_scan artist title threshold (ledger s)). split; [done |].
  unfold fuzzy_scan.
  destruct (List.find _ (ledger s)) as [r |] eqn:Hfind.
  - destruct (find_first_hit _ _ _ Hfind) as (pre & post & Hl & Hr & Hpre).
    exists pre, r, post. split; [done |]. split; [done |].
    split; [by apply both_similar_qualifies |].
    intros x Hx. apply not_similar_not_qualifies. by apply Hpre.
  - intros x Hx. apply not_similar_not_qualifies.
    by apply (find_no_hit _ _ Hfind).
Qed.

(** C5 (as stated) fails: the scan does not leave suppression rows out; a
    query that reads like a reason tag gets the suppression row back. *)
Lemma check_db_fuzzy_returns_suppression_row :
  (check_db_fuzzy (U := basic_latin)
     (Some (lit "[not_audio]")) (Some (lit "[not_audio]")) (19 # 20) cover_state).1
  = Ok (Some (lit "[not_audio]", lit "[not_audio]", lit "[not_audio]"))
  /\ ledger cover_state = [suppression (lit "cover.jpg") (lit "not_audio")]
  /\ storage_path (suppression (lit "cover.jpg") (lit "not_audio")) = lit "[not_audio]"
  /\ is_tag (lit "[not_audio]") = true.
Proof. vm_compute. done. Qed.




(** ** MetadataResolver *)

Lemma bind_raised {A B} (m : M A) (k : A -> M B) s ex s1 :
  m s = (Raised ex, s1) -> (m ≫= k) s = (Raised ex, s1).
Proof. intros H. unfold mbind, M_bind, bind. by rewrite H. Qed.

Lemma query_ollama_raises (e : env) (filename : pystr) (a t : pyval) (s : state) :
  USE_OLLAMA e = true ->
  query_ollama_for_metadata e filename a t s = (Raised ValueError, s).
Proof. intros H. unfold query_ollama_for_metadata. by rewrite H. Qed.

Lemma query_ollama_disabled (e : env) (filename : pystr) (a t : pyval) (s : state) :
  USE_OLLAMA e = false ->
  query_ollama_for_metadata e filename a t s = (Ok none3, s).
Proof. intros H. unfold query_ollama_for_metadata. by rewrite H. Qed.

(** C6 at the failing input: with the first service enabled, building
    the prompt raises ValueError before the [try] is entered. Whatever
    the service would reply, and for every file name and every pair of
    tags, [query_ollama_for_metadata] returns nothing, sends no request
    and logs nothing; the exception leaves the resolver, and the first
    file that reaches it is dropped with the ledger as it was. Only with
    the service disabled does the function return (None, None, None). *)
Lemma ollama_prompt_raises_before_the_request :
  (forall reply filename a t s,
      query_ollama_for_metadata (online true false false reply acraze_reply)
        filename a t s
      = (Raised ValueError, s))
  /\ (forall reply fpath a t s,
        resolve (online true false false reply acraze_reply) fpath a t s
        = (Raised ValueError, s))
  /\ process_file (U := basic_latin)
       (online true false false (OllamaJson (PDict [])) acraze_reply)
       (lit "/src") (lit "second.opus") acraze_state
     = (Raised ValueError, acraze_state)
  /\ (forall reply filename a t s,
        query_ollama_for_metadata (online false false false reply acraze_reply)
          filename a t s
        = (Ok none3, s)).
Proof.
  split; [by intros; apply query_ollama_raises |].
  split; [| split; [by vm_compute | by intros; apply query_ollama_disabled]].
  intros reply fpath a t s. unfold resolve. cbn [USE_OLLAMA online].
  by rewrite (bind_raised _ _ _ _ _
                (query_ollama_raises (online true false false reply acraze_reply)
                   (basename fpath) a t s eq_refl)).
Qed.

Lemma query_openai_events (e : env) (filename : pystr) (artist title : pyval)
    (s : state) :
  USE_OPENAI e = true -> key_set e = true ->
  exists rest,
    events (query_openai_for_metadata e filename artist title s).2
    = events s ++ AskOpenAI filename artist title :: rest.
Proof.
  intros Hop Hkey.
  unfold query_openai_for_metadata, try_except, when, log, emit, loads, read_answer,
    py_get, mbind, M_bind, bind, raise, ret.
  rewrite Hop, Hkey. simpl.
  destruct (chat_completions_create e filename artist title) as [| [c |]]; simpl;
    destruct (debug e); simpl;
    try (destruct (nonempty c); simpl);
    try (destruct (json_loads e c) as [v |]; simpl);
    try (destruct v; simpl);
    eexists; rewrite <- ?app_assoc; simpl; reflexivity.
Qed.

(** The second service is asked exactly when the first answer is
    undecided, and with the artist and title the first one was given. *)
Lemma openai_after_asks_iff (e : env) (first : answer) (fpath : pystr)
    (artist title : pyval) (s : state) :
  USE_OPENAI e = true -> key_set e = true ->
  (undecided first = true ->
   exists rest,
     events (openai_after e first fpath artist title s).2
     = events s ++ AskOpenAI (basename fpath) artist title :: rest)
  /\ (undecided first = false ->
      openai_after e first fpath artist title s = (Ok (first.1.1, artist, title), s)).
Proof.
  intros Hop Hkey. unfold openai_after. rewrite Hop. simpl. split; intros ->; [| done].
  destruct (query_openai_events e (basename fpath) artist title s Hop Hkey)
    as (rest & Hev).
  unfold mbind, M_bind, bind.
  destruct (query_openai_for_metadata e (basename fpath) artist title s)
    as [[r | ex] s1]; simpl in Hev.
  - destruct (adopt r artist title). by exists rest.
  - by exists rest.
Qed.

(** A call that raises, an empty content, a content that is not JSON and
    a JSON value that is not an object all count as no answer. *)
Lemma query_openai_fault_is_no_answer (e : env) (filename : pystr)
    (artist title : pyval) (s : state) :
  match chat_completions_create e filename artist title with
  | OpenAIRaises => True
  | OpenAIContent None => True
  | OpenAIContent (Some c) =>
      nonempty c = false \/ json_loads e c = None
      \/ exists v, json_loads e c = Some v /\ forall items, v <> PDict items
  end ->
  (query_openai_for_metadata e filename artist title s).1 = Ok none3.
Proof.
  unfold query_openai_for_metadata, try_except, when, log, emit, loads, read_answer,
    py_get, mbind, M_bind, bind, raise, ret.
  destruct (negb (USE_OPENAI e && key_set e)); [done |]. simpl.
  destruct (chat_completions_create e filename artist title) as [| [c |]]; simpl.
  - done.
  - intros [Hc | [Hc | (v & Hc & Hv)]].
    + destruct (debug e); simpl; rewrite Hc; done.
    + destruct (debug e); simpl; destruct (nonempty c); simpl; rewrite ?Hc; done.
    + destruct (debug e); simpl; destruct (nonempty c); simpl; rewrite ?Hc; try done;
        destruct v; simpl; try done; by destruct (Hv items).
  - destruct (debug e); done.
Qed.

(** ** Ledger effect of the pipeline *)

Lemma appends_weaken {A} (m : M A) (P Q : result A -> list row -> Prop) :
  appends m P -> (forall r new, P r new -> Q r new) -> appends m Q.
Proof. intros Hm HPQ s. destruct (Hm s) as (new & Hl & HP). eauto. Qed.

Lemma appends_ret {A} (a : A) (P : result A -> list row -> Prop) :
  P (Ok a) [] -> appends (ret a) P.
Proof. intros HP s. exists []. simpl. by rewrite app_nil_r. Qed.

Lemma appends_mret {A} (a : A) (P : result A -> list row -> Prop) :
  P (Ok a) [] -> appends (mret a) P.
Proof. apply appends_ret. Qed.

Lemma appends_raise {A} (e : exn) (P : result A -> list row -> Prop) :
  P (Raised e) [] -> appends (raise e) P.
Proof. intros HP s. exists []. simpl. by rewrite app_nil_r. Qed.

Lemma appends_bind {A B} (m : M A) (k : A -> M B)
    (Q : result A -> list row -> Prop) (P : result B -> list row -> Prop) :
  appends m Q ->
  (forall a new1, Q (Ok a) new1 -> appends (k a) (fun r new2 => P r (new1 ++ new2))) ->
  (forall e new1, Q (Raised e) new1 -> P (Raised e) new1) ->
  appends (m ≫= k) P.
Proof.
  intros Hm Hk He s. unfold mbind, M_bind, bind.
  destruct (Hm s) as (new1 & Hl1 & HQ).
  destruct (m s) as [[a | e] s1]; simpl in *.
  - destruct (Hk a new1 HQ s1) as (new2 & Hl2 & HP).
    exists (new1 ++ new2). by rewrite Hl2, Hl1, app_assoc.
  - exists new1. eauto.
Qed.

(** After a computation that leaves the ledger alone. *)
Lemma appends_after_quiet {A B} (m : M A) (k : A -> M B)
    (P : result B -> list row -> Prop) :
  quiet m ->
  (forall a, appends (k a) P) ->
  (forall e, P (Raised e) []) ->
  appends (m ≫= k) P.
Proof.
  intros Hm Hk He. eapply appends_bind; [exact Hm | |].
  - intros a new1 ->. apply Hk.
  - intros e new1 ->. apply He.
Qed.

Lemma appends_after_calm {A B} (m : M A) (k : A -> M B)
    (P : result B -> list row -> Prop) :
  calm m -> (forall a, appends (k a) P) -> appends (m ≫= k) P.
Proof.
  intros Hm Hk. eapply appends_bind; [exact Hm | |].
  - intros a new1 [-> _]. apply Hk.
  - intros e new1 [_ [a [=]]].
Qed.

Lemma appends_try_except {A} (body : M A) (handler : exn -> M A)
    (Q P : result A -> list row -> Prop) :
  appends body Q ->
  (forall a new1, Q (Ok a) new1 -> P (Ok a) new1) ->
  (forall e new1, Q (Raised e) new1 ->
     appends (handler e) (fun r new2 => P r (new1 ++ new2))) ->
  appends (try_except body handler) P.
Proof.
  intros Hb Hok Hh s. unfold try_except.
  destruct (Hb s) as (new1 & Hl1 & HQ).
  destruct (body s) as [[a | e] s1]; simpl in *.
  - exists new1. eauto.
  - destruct (Hh e new1 HQ s1) as (new2 & Hl2 & HP).
    exists (new1 ++ new2). by rewrite Hl2, Hl1, app_assoc.
Qed.

Lemma calm_quiet {A} (m : M A) : calm m -> quiet m.
Proof. intros H. eapply appends_weaken; [exact H |]. by intros r new [-> _]. Qed.

Lemma calm_ret {A} (a : A) : calm (ret a).
Proof. apply appends_ret. eauto. Qed.

Lemma calm_mret {A} (a : A) : calm (mret a).
Proof. apply calm_ret. Qed.

Lemma quiet_raise {A} (e : exn) : quiet (@raise A e).
Proof. by apply appends_raise. Qed.

Lemma calm_bind {A B} (m : M A) (k : A -> M B) :
  calm m -> (forall a, calm (k a)) -> calm (m ≫= k).
Proof. intros Hm Hk. by apply appends_after_calm. Qed.

Lemma quiet_bind {A B} (m : M A) (k : A -> M B) :
  quiet m -> (forall a, quiet (k a)) -> quiet (m ≫= k).
Proof. intros Hm Hk. by apply appends_after_quiet. Qed.

Lemma calm_try_except {A} (body : M A) (handler : exn -> M A) :
  quiet body -> (forall e, calm (handler e)) -> calm (try_except body handler).
Proof.
  intros Hb Hh s. unfold try_except.
  destruct (Hb s) as (new1 & Hl1 & ->). rewrite app_nil_r in Hl1.
  destruct (body s) as [[a | e] s1]; simpl in *.
  - exists []. rewrite app_nil_r. eauto.
  - destruct (Hh e s1) as (new2 & Hl2 & HP). exists new2. by rewrite Hl2, Hl1.
Qed.

Lemma calm_get_ledger : calm get_ledger.
Proof. intros s. exists []. simpl. rewrite app_nil_r. eauto. Qed.

Lemma calm_get_disk : calm get_disk.
Proof. intros s. exists []. simpl. rewrite app_nil_r. eauto. Qed.

Lemma calm_set_disk d : calm (set_disk d).
Proof. intros s. exists []. simpl. rewrite app_nil_r. eauto. Qed.

Lemma calm_emit ev : calm (emit ev).
Proof. intros s. exists []. simpl. rewrite app_nil_r. eauto. Qed.

Lemma calm_log lv : calm (log lv).
Proof. apply calm_emit. Qed.

Lemma calm_when c m : calm m -> calm (when c m).
Proof. intros H. destruct c; [exact H | apply calm_ret]. Qed.

Lemma appends_insert_db name artist title path :
  appends (insert_db name artist title path)
    (fun r new => r = Ok tt /\ new = [Build_row name artist title path]).
Proof. intros s. eexists. simpl. eauto. Qed.

Lemma appends_insert_db_skipped name reason :
  appends (insert_db_skipped name reason)
    (fun r new => r = Ok tt /\ new = [suppression name reason]).
Proof. apply appends_insert_db. Qed.

Create HintDb ledger discriminated.
#[local] Hint Resolve calm_ret calm_mret calm_get_ledger calm_get_disk calm_set_disk
  calm_emit calm_log calm_when quiet_raise : ledger.
#[local] Hint Resolve calm_quiet | 10 : ledger.

(** Decompose a computation along its binds and branches. *)
Ltac calm_step :=
  match goal with
  | |- calm (_ ≫= _) => apply calm_bind; [| intros ?]
  | |- quiet (_ ≫= _) => apply quiet_bind; [| intros ?]
  | |- calm (if ?c then _ else _) => destruct c
  | |- quiet (if ?c then _ else _) => destruct c
  | |- calm (match ?x with _ => _ end) => destruct x
  | |- quiet (match ?x with _ => _ end) => destruct x
  | |- calm (let '(_, _) := ?x in _) => destruct x
  | |- quiet (let '(_, _) := ?x in _) => destruct x
  | |- _ => solve [auto with ledger]
  end.

Ltac calm_steps := repeat calm_step.

Section LedgerEffects.
Context {U : Unicode} (e : env).

Lemma calm_check_db_by_filename_variations filename :
  calm (check_db_by_filename_variations filename).
Proof. unfold check_db_by_filename_variations. calm_steps. Qed.

Lemma calm_check_db_fuzzy artist title threshold :
  calm (check_db_fuzzy artist title threshold).
Proof. unfold check_db_fuzzy. calm_steps. Qed.

Lemma quiet_getattr_response v : quiet (getattr_response v).
Proof. unfold getattr_response. calm_steps. Qed.

Lemma quiet_py_get data key dflt : quiet (py_get data key dflt).
Proof. unfold py_get. calm_steps. Qed.

Lemma quiet_loads v : quiet (loads e v).
Proof. unfold loads. calm_steps. Qed.

Hint Resolve quiet_getattr_response quiet_py_get quiet_loads : ledger.

Lemma quiet_read_answer data : quiet (read_answer data).
Proof. unfold read_answer. calm_steps. Qed.

Hint Resolve quiet_read_answer : ledger.

Lemma quiet_query_ollama_for_metadata filename a t :
  quiet (query_ollama_for_metadata e filename a t).
Proof.
  unfold query_ollama_for_metadata, ollama_prompt.
  destruct (negb (USE_OLLAMA e)); [calm_steps |].
  apply quiet_bind; [calm_steps | intros _].
  apply quiet_bind; [calm_steps | intros _].
  apply calm_quiet, calm_try_except; [| intros ?]; calm_steps.
Qed.

Lemma calm_query_openai_for_metadata filename a t :
  calm (query_openai_for_metadata e filename a t).
Proof.
  unfold query_openai_for_metadata.
  destruct (negb (USE_OPENAI e && key_set e)); [calm_steps |].
  apply calm_try_except; [| intros ?]; calm_steps.
Qed.

Hint Resolve calm_check_db_by_filename_variations calm_check_db_fuzzy
  quiet_query_ollama_for_metadata calm_query_openai_for_metadata : ledger.

Lemma quiet_as_text err v : quiet (as_text err v).
Proof. unfold as_text. calm_steps. Qed.

Hint Resolve quiet_as_text : ledger.

Lemma quiet_place_of fname artist title : quiet (place_of e fname artist title).
Proof. unfold place_of. calm_steps. Qed.

Lemma quiet_listdir dir : quiet (listdir dir).
Proof. unfold listdir. calm_steps. Qed.

Hint Resolve quiet_place_of quiet_listdir : ledger.

Lemma quiet_duplicate_found pl : quiet (duplicate_found pl).
Proof. unfold duplicate_found. calm_steps. Qed.

Lemma quiet_copy2 src dir name : quiet (copy2 e src dir name).
Proof. unfold copy2. calm_steps. Qed.

Lemma calm_ensure_dir dir : calm (ensure_dir dir).
Proof. unfold ensure_dir. calm_steps. Qed.

Hint Resolve quiet_duplicate_found quiet_copy2 calm_ensure_dir : ledger.

Lemma quiet_copy_and_update fpath pl : quiet (copy_and_update e fpath pl).
Proof. unfold copy_and_update. calm_steps. Qed.

Lemma calm_openai_after first fpath artist title :
  calm (openai_after e first fpath artist title).
Proof. unfold openai_after. calm_steps. Qed.

Hint Resolve quiet_copy_and_update calm_openai_after : ledger.

Lemma quiet_resolve fpath artist title : quiet (resolve e fpath artist title).
Proof. unfold resolve. calm_steps. Qed.

Hint Resolve quiet_resolve : ledger.

(** One step of a ledger-effect proof: a ledger-neutral prefix is
    skipped, an insertion is recorded, a branch is split. *)
Ltac effect_step :=
  match goal with
  | |- appends (ret _) _ => apply appends_ret; simpl
  | |- appends (mret _) _ => apply appends_mret; simpl
  | |- appends (insert_db_skipped _ _) _ =>
      eapply appends_weaken;
      [apply appends_insert_db_skipped | intros ? ? [-> ->]; simpl]
  | |- appends (insert_db_skipped _ _ ≫= _) _ =>
      eapply appends_bind;
      [apply appends_insert_db_skipped
      | intros ? ? [_ ->]
      | intros ? ? [[=] _]]
  | |- appends (insert_db _ _ _ _ ≫= _) _ =>
      eapply appends_bind;
      [apply appends_insert_db
      | intros ? ? [_ ->]
      | intros ? ? [[=] _]]
  | |- appends (_ ≫= _) _ =>
      first [ apply appends_after_calm; [solve [calm_steps] | intros ?]
            | apply appends_after_quiet;
              [solve [calm_steps] | intros ? | intros ?; simpl; done] ]
  | |- appends (if ?c then _ else _) _ => destruct c eqn:?
  | |- appends (match ?x with _ => _ end) _ => destruct x eqn:?
  | |- appends (let '(_, _) := ?x in _) _ => destruct x eqn:?
  end.

Lemma effect_dry_ai_preview fname fpath artist title :
  appends (dry_ai_preview e fpath artist title) (file_post e fname).
Proof. unfold dry_ai_preview. repeat effect_step; done. Qed.

Lemma effect_divert_unsorted fname fpath :
  appends (divert_unsorted e fname fpath) (file_post e fname).
Proof.
  unfold divert_unsorted.
  eapply appends_bind
    with (Q := fun r new =>
                 match r with
                 | Ok _ => new = if dry_run e || dry_ai e then []
                                 else [suppression fname (lit "no_metadata")]
                 | Raised _ => new = []
                 end).
  - destruct (dry_run e || dry_ai e).
    + eapply appends_weaken; [apply calm_log |]. by intros r new [-> [a ->]].
    + repeat effect_step. done.
  - intros a new1 ->. apply appends_ret. simpl. by rewrite app_nil_r.
  - intros ex new1 ->. done.
Qed.

Ltac effect_done :=
  simpl; rewrite ?app_nil_r; try done; try (eexists; split; [reflexivity | done]).

Lemma effect_place fname fpath use_as_is artist title :
  appends (place e fname fpath use_as_is artist title) (file_post e fname).
Proof.
  unfold place.
  repeat first [ apply effect_divert_unsorted | effect_step ]; effect_done.
Qed.

Lemma effect_process_file root fname :
  appends (process_file e root fname) (file_post e fname).
Proof.
  unfold process_file.
  repeat first [ apply effect_place | apply effect_dry_ai_preview | effect_step ];
    effect_done.
Qed.
End LedgerEffects.

(** C2 (as amended): reaching the not-audio suppression, the raw-fuzzy
    skip, the duplicate skip, the post-resolution fuzzy link or the
    recorded import writes exactly one ledger entry; the unsorted divert
    writes exactly one suppression entry outside the dry modes and none in
    them; the Skip-Exact outcome, the already-exists skips and the dry-ai
    preview write nothing. *)
Theorem terminal_outcome_ledger_writes
    (U : Unicode) (e : env) (root fname : pystr) (s s' : state) (o : outcome) :
  process_file e root fname s = (Ok o, s') ->
  exists new, ledger s' = ledger s ++ new /\ outcome_writes e fname o new.
Proof.
  intros H. destruct (effect_process_file e root fname s) as (new & Hl & HP).
  rewrite H in Hl, HP. simpl in Hl, HP. eauto.
Qed.


(** ** The file system model *)

Lemma path_exists_join (d : fs) dir names name :
  d !! dir = Some names -> name ∈ names ->
  path_exists d (os_path_join dir name) = true.
Proof.
  intros Hd Hn. unfold path_exists. apply orb_true_iff. right.
  apply existsb_exists. exists (dir, names). split.
  - apply list_elem_of_In, elem_of_map_to_list, Hd.
  - simpl. apply existsb_exists. exists name. split.
    + by apply list_elem_of_In.
    + unfold pystr_eqb. by apply bool_decide_eq_true.
Qed.



Lemma bind_ok {A B} (m : M A) (k : A -> M B) s a s1 :
  m s = (Ok a, s1) -> (m ≫= k) s = k a s1.
Proof. intros H. unfold mbind, M_bind, bind. by rewrite H. Qed.

Section Scenario.
Context {U : Unicode} (e : env).






End Scenario.



(** ** Supporting facts *)

(** Starting [extend_right] with more fuel than the distance to [ahi]
    changes nothing: the loop has stopped by then. *)
Lemma extend_right_fuel_enough a b junk ahi bhi besti bestj fuel bestsize :
  ahi - (besti + bestsize) <= fuel ->
  difflib.extend_right a b junk ahi bhi besti bestj fuel bestsize
  = difflib.extend_right a b junk ahi bhi besti bestj
      (ahi - (besti + bestsize)) bestsize.
Proof.
  revert bestsize. induction fuel as [| fuel IH]; intros bestsize H.
  - by replace (ahi - (besti + bestsize)) with 0 by lia.
  - simpl. destruct (besti + bestsize <? ahi) eqn:E.
    + apply Nat.ltb_lt in E.
      replace (ahi - (besti + bestsize)) with (S (ahi - (besti + S bestsize))) by lia.
      simpl. apply Nat.ltb_lt in E. rewrite E. simpl.
      destruct ((bestj + bestsize <? bhi)
                && difflib.junk_is junk (b !! (bestj + bestsize))
                && difflib.elt_eqb (a !! (besti + bestsize)) (b !! (bestj + bestsize)));
        [| done].
      apply IH. apply Nat.ltb_lt in E. lia.
    + apply Nat.ltb_ge in E.
      replace (ahi - (besti + bestsize)) with 0 by lia. done.
Qed.

Lemma bind_ok_inv {A B} (m : M A) (k : A -> M B) s b s' :
  (m ≫= k) s = (Ok b, s') ->
  exists a s1, m s = (Ok a, s1) /\ k a s1 = (Ok b, s').
Proof.
  unfold mbind, M_bind, bind. destruct (m s) as [[a | ex] s1]; [eauto | done].
Qed.

Lemma place_of_inv {U : Unicode} (e : env) fname artist title s pl s1 :
  place_of e fname artist title s = (Ok pl, s1) ->
  s1 = s /\ dest_path pl = os_path_join (dest_dir pl) (dest_name pl).
Proof.
  unfold place_of, as_text, mbind, M_bind, bind, raise, ret.
  destruct (truthy artist); [destruct artist |]; simpl; try done;
    (destruct (truthy title); [destruct title |]; simpl; try done);
    by intros [= <- <-].
Qed.

Lemma duplicate_found_inv {U : Unicode} pl s dup s1 :
  duplicate_found pl s = (Ok dup, s1) -> s1 = s.
Proof.
  unfold duplicate_found, listdir, get_disk, mbind, M_bind, bind, raise, ret.
  destruct (path_exists (disk s) (dest_dir pl)); simpl; [| by intros [= _ <-]].
  destruct (disk s !! dest_dir pl); simpl; [by intros [= _ <-] | done].
Qed.

Lemma copy_and_update_inv (e : env) fpath pl s s1 :
  copy_and_update e fpath pl s = (Ok tt, s1) ->
  ledger s1 = ledger s
  /\ path_exists (disk s1) (os_path_join (dest_dir pl) (dest_name pl)) = true.
Proof.
  unfold copy_and_update, ensure_dir, copy2, makedirs, get_disk, set_disk, log, emit,
    when, mbind, M_bind, bind, raise, ret.
  simpl.
  destruct (path_exists (disk s) (dest_dir pl)) eqn:Hex; simpl.
  - destruct (copy2_fails e fpath _); simpl; [done |].
    destruct (disk s !! dest_dir pl) as [names |] eqn:Hdir; simpl; [| done].
    destruct (tag_update_fails e (dest_path pl)); simpl; intros [= <-]; simpl;
      (split; [done |]);
      (eapply path_exists_join;
       [unfold add_file; rewrite lookup_alter_eq, Hdir; reflexivity |]);
      case_bool_decide; set_solver.
  - assert (Hnone : disk s !! dest_dir pl = None).
    { unfold path_exists in Hex. apply orb_false_iff in Hex as [Hex _].
      apply bool_decide_eq_false in Hex. by apply eq_None_not_Some. }
    rewrite Hnone.
    destruct (copy2_fails e fpath _); simpl; [done |].
    rewrite lookup_insert_eq. simpl.
    destruct (tag_update_fails e (dest_path pl)); simpl; intros [= <-]; simpl;
      (split; [done |]);
      (eapply path_exists_join;
       [unfold add_file; rewrite lookup_alter_eq, lookup_insert_eq; reflexivity |]);
      case_bool_decide; set_solver.
Qed.

(** Outside a dry run the row of a recorded import names a file that is
    on disk when the row is inserted. *)
Lemma place_recorded_import_exists {U : Unicode} (e : env)
    (fname fpath : pystr) (use_as_is artist title : pyval) (s s' : state) :
  dry_run e = false ->
  place e fname fpath use_as_is artist title s = (Ok RecordImport, s') ->
  exists r, last (ledger s') = Some r
            /\ original_name r = fname
            /\ path_exists (disk s') (storage_path r) = true.
Proof.
  intros Hdry H. unfold place in H.
  apply bind_ok_inv in H as (pl & s1 & Hpl & H).
  apply place_of_inv in Hpl as [-> Hpath].
  apply bind_ok_inv in H as (dup & s2 & Hdup & H).
  apply duplicate_found_inv in Hdup as ->.
  destruct dup; [done |].
  destruct (truthy use_as_is).
  { apply bind_ok_inv in H as (d & s3 & _ & H).
    destruct (path_exists d (dest_path pl)); [done |].
    by apply bind_ok_inv in H as (? & ? & _ & H). }
  destruct (p_artist pl) as [a |]; [destruct (p_title pl) as [t |] |].
  2, 3: unfold divert_unsorted in H; by apply bind_ok_inv in H as (? & ? & _ & H).
  apply bind_ok_inv in H as (d & s3 & [= <- <-] & H).
  destruct (path_exists (disk s) (dest_path pl)); [done |].
  rewrite Hdry in H.
  apply bind_ok_inv in H as ([] & s4 & Hcopy & H).
  apply copy_and_update_inv in Hcopy as [Hl Hex].
  apply bind_ok_inv in H as (fm & s5 & [= <- <-] & H).
  destruct (fuzzy_scan (Some a) (Some t) (19 # 20) (ledger s4)) as [[[da dt] dp] |];
    [done |].
  injection H as <-.
  eexists. simpl. rewrite last_snoc. split; [done |]. split; [done |].
  simpl. by rewrite Hpath.
Qed.

Lemma recorded_import_exists_outside_dry_run {U : Unicode} (e : env)
    (root fname : pystr) (s s' : state) :
  dry_run e = false ->
  process_file e root fname s = (Ok RecordImport, s') ->
  exists r, last (ledger s') = Some r
            /\ original_name r = fname
            /\ path_exists (disk s') (storage_path r) = true.
Proof.
  intros Hdry H. unfold process_file in H.
  apply bind_ok_inv in H as (db & s1 & _ & H).
  destruct db. { by apply bind_ok_inv in H as (? & ? & _ & H). }
  destruct (negb (is_audio_file fname)).
  { by apply bind_ok_inv in H as (? & ? & _ & H). }
  cbv zeta in H.
  apply bind_ok_inv in H as (fm & s2 & _ & H).
  destruct fm as [[[? ?] ?] |].
  { apply bind_ok_inv in H as (? & ? & _ & H).
    by apply bind_ok_inv in H as (? & ? & _ & H). }
  destruct ((USE_OLLAMA e || USE_OPENAI e) && negb (dry_run e)).
  - apply bind_ok_inv in H as ([[u a] t] & s3 & _ & H).
    apply bind_ok_inv in H as (pl & s4 & _ & H).
    apply bind_ok_inv in H as (dup & s5 & _ & H).
    destruct dup. { by apply bind_ok_inv in H as (? & ? & _ & H). }
    by eapply place_recorded_import_exists.
  - destruct (dry_ai e).
    { unfold dry_ai_preview in H.
      apply bind_ok_inv in H as ([[? ?] ?] & ? & _ & H).
      by apply bind_ok_inv in H as (? & ? & _ & H). }
    by eapply place_recorded_import_exists.
Qed.

(** ** The pipeline on concrete runs *)

(** ** A copy that fails *)

Section CopyFault.
Context {U : Unicode} (e : env).
Hypothesis Hdry : dry_run e = false.
Hypothesis Hfail : forall src dst, copy2_fails e src dst = true.






Hint Resolve quiet_getattr_response quiet_py_get quiet_loads quiet_read_answer
  calm_check_db_by_filename_variations calm_check_db_fuzzy
  quiet_query_ollama_for_metadata calm_query_openai_for_metadata
  quiet_as_text quiet_place_of quiet_listdir quiet_duplicate_found quiet_copy2
  calm_ensure_dir calm_openai_after quiet_resolve : ledger.






End CopyFault.


(** C1 at the failing input: the resolved pair Acraze - Do It To It
    matches the recorded ACRAZE - Do It To It at the checkpoint after
    resolution; the new row reuses the recorded storage path, but the
    check comes after the copy, and a second file has been written under
    /dest/Acraze. *)
Lemma fuzzy_link_follows_the_copy :
  acraze_link_run.1 = Ok LinkFuzzy
  /\ ledger acraze_link_run.2
     = [acraze_row;
        Build_row (lit "second.opus") (lit "ACRAZE") (lit "Do It To It")
          (lit "/dest/ACRAZE/Do It To It.opus")]
  /\ events acraze_link_run.2
     = [AskOpenAI (lit "second.opus") PNone PNone;
        Copy (lit "/src/second.opus") (lit "/dest/Acraze/Do It To It.opus");
        Log COPIED; Log WARNING]
  /\ path_exists (disk acraze_state) (lit "/dest/Acraze/Do It To It.opus") = false
  /\ path_exists (disk acraze_link_run.2) (lit "/dest/Acraze/Do It To It.opus") = true.
Proof. vm_compute. done. Qed.

(** C2 (as stated) fails: the already-exists skip writes no ledger entry.
    The title Love / Hate is stored as [Love  Hate.mp3]; the duplicate
    scan compares the keys [love  hate] and [love hate], finds none, and
    the taken destination path ends the file with the ledger as it was. *)
Lemma exists_skip_writes_nothing :
  love_hate_run.1 = Ok SkipExists
  /\ ledger love_hate_run.2 = ledger love_hate_state
  /\ ledger love_hate_run.2 = [].
Proof. vm_compute. done. Qed.

Lemma terminal_outcome_ledger_writes_witness :
  exists new,
    ledger (process_file (U := basic_latin) (offline false false acraze_tags)
              (lit "/src") (lit "Do It To It.opus") fresh_state).2
    = ledger fresh_state ++ new
    /\ outcome_writes (offline false false acraze_tags) (lit "Do It To It.opus")
         RecordImport new.
Proof.
  apply (terminal_outcome_ledger_writes basic_latin (offline false false acraze_tags)
           (lit "/src") (lit "Do It To It.opus") fresh_state).
  vm_compute. reflexivity.
Defined.



(** C4 at the failing input: in a dry run nothing is copied, yet the
    import row is inserted, and its storage path, which is no reason tag,
    names a file that does not exist. *)
Lemma dry_run_records_a_missing_file :
  dry_run_pass.1 = Ok [RecordImport]
  /\ ledger dry_run_pass.2
     = [Build_row (lit "Do It To It.opus") (lit "ACRAZE") (lit "Do It To It")
          (lit "/dest/ACRAZE/Do It To It.opus")]
  /\ is_tag (lit "/dest/ACRAZE/Do It To It.opus") = false
  /\ path_exists (disk dry_run_pass.2) (lit "/dest/ACRAZE/Do It To It.opus") = false
  /\ events dry_run_pass.2 = [Log DRY; Log DRY; Log SUCCESS].
Proof. vm_compute. done. Qed.

(** C9 at the two failing inputs. With both services enabled, the
    prompt of the first raises ValueError before any request is sent:
    the second service is never asked, the exception ends the pass on
    the first file, and neither file is ledgered or copied. With the
    second service alone, asked with the inputs of the file, an answer
    that carries a list where the artist should be reaches
    [artist.split] outside any handler, and AttributeError ends the pass
    in the same way. *)
Lemma service_faults_halt_the_pass :
  two_services_pass = (Raised ValueError, fresh_state)
  /\ events two_services_pass.2 = []
  /\ artist_list_pass.1 = Raised AttributeError
  /\ ledger artist_list_pass.2 = []
  /\ disk artist_list_pass.2 = disk fresh_state
  /\ events artist_list_pass.2 = [AskOpenAI (lit "a.opus") PNone PNone].
Proof. vm_compute. done. Qed.

(** * Further properties *)

(** ** What a computation leaves alone *)

Lemma steady_refl ok fixed s : steady ok fixed s s.
Proof. split; [done |]. exists []. by rewrite app_nil_r. Qed.

Lemma steady_trans ok fixed s1 s2 s3 :
  steady ok fixed s1 s2 -> steady ok fixed s2 s3 -> steady ok fixed s1 s3.
Proof.
  intros [Hd1 (ev1 & He1 & Hok1)] [Hd2 (ev2 & He2 & Hok2)]. split.
  - intros Hf. by rewrite Hd2, Hd1.
  - exists (ev1 ++ ev2). rewrite He2, He1, app_assoc. split; [done |].
    rewrite forallb_app. by rewrite Hok1, Hok2.
Qed.

Lemma keeps_ret {A} ok fixed (a : A) : keeps ok fixed (ret a).
Proof. intros s. apply steady_refl. Qed.

Lemma keeps_mret {A} ok fixed (a : A) : keeps ok fixed (mret a).
Proof. apply keeps_ret. Qed.

Lemma keeps_raise {A} ok fixed (ex : exn) : keeps ok fixed (@raise A ex).
Proof. intros s. apply steady_refl. Qed.

Lemma keeps_bind {A B} ok fixed (m : M A) (k : A -> M B) :
  keeps ok fixed m -> (forall a, keeps ok fixed (k a)) -> keeps ok fixed (m ≫= k).
Proof.
  intros Hm Hk s. unfold mbind, M_bind, bind. specialize (Hm s).
  destruct (m s) as [[a | ex] s1]; simpl in *; [| done].
  eapply steady_trans; [exact Hm | apply Hk].
Qed.

Lemma keeps_try_except {A} ok fixed (body : M A) (handler : exn -> M A) :
  keeps ok fixed body -> (forall ex, keeps ok fixed (handler ex)) ->
  keeps ok fixed (try_except body handler).
Proof.
  intros Hb Hh s. unfold try_except. specialize (Hb s).
  destruct (body s) as [[a | ex] s1]; simpl in *; [done |].
  eapply steady_trans; [exact Hb | apply Hh].
Qed.

Lemma keeps_get_ledger ok fixed : keeps ok fixed get_ledger.
Proof. intros s. apply steady_refl. Qed.

Lemma keeps_get_disk ok fixed : keeps ok fixed get_disk.
Proof. intros s. apply steady_refl. Qed.

Lemma keeps_emit ok fixed ev : ok ev = true -> keeps ok fixed (emit ev).
Proof.
  intros H s. split; [done |]. exists [ev]. simpl. by rewrite H.
Qed.

Lemma keeps_log ok fixed lv : ok (Log lv) = true -> keeps ok fixed (log lv).
Proof. apply keeps_emit. Qed.

Lemma keeps_set_disk ok d : keeps ok false (set_disk d).
Proof. intros s. split; [done |]. exists []. simpl. by rewrite app_nil_r. Qed.

Lemma keeps_insert_db ok fixed name artist title path :
  keeps ok fixed (insert_db name artist title path).
Proof. intros s. split; [done |]. exists []. simpl. by rewrite app_nil_r. Qed.

Lemma keeps_insert_db_skipped ok fixed name reason :
  keeps ok fixed (insert_db_skipped name reason).
Proof. apply keeps_insert_db. Qed.

Lemma keeps_when ok fixed c m : keeps ok fixed m -> keeps ok fixed (when c m).
Proof. intros H. destruct c; [exact H | apply keeps_ret]. Qed.

Create HintDb steady discriminated.
#[local] Hint Resolve keeps_ret keeps_mret keeps_raise keeps_get_ledger keeps_get_disk
  keeps_set_disk keeps_insert_db keeps_insert_db_skipped keeps_when : steady.
#[local] Hint Extern 1 (keeps _ _ (log _)) => (apply keeps_log; reflexivity) : steady.
#[local] Hint Extern 1 (keeps _ _ (emit _)) => (apply keeps_emit; reflexivity) : steady.

(** Decompose a computation along its binds and branches; [flags]
    rewrites with what is known of the configuration. *)
Ltac steady_step flags :=
  first
    [ progress flags
    | match goal with
      | |- keeps _ _ (_ ≫= _) => apply keeps_bind; [| intros ?]
      | |- keeps _ _ (try_except _ _) => apply keeps_try_except; [| intros ?]
      | |- keeps _ _ (if ?c then _ else _) => destruct c eqn:?
      | |- keeps _ _ (match ?x with _ => _ end) => destruct x eqn:?
      | |- keeps _ _ (let '(_, _) := ?x in _) => destruct x eqn:?
      end
    | solve [auto with steady] ].

Ltac steady_steps flags := repeat steady_step flags.

Ltac no_flags := fail.

Section SteadyHelpers.
Context {U : Unicode} (e : env) (ok : event -> bool) (fixed : bool).
Hypothesis Hlog : forall lv, ok (Log lv) = true.

Lemma keeps_check_db_by_filename_variations filename :
  keeps ok fixed (check_db_by_filename_variations filename).
Proof. unfold check_db_by_filename_variations. steady_steps no_flags. Qed.

Lemma keeps_check_db_fuzzy artist title threshold :
  keeps ok fixed (check_db_fuzzy artist title threshold).
Proof. unfold check_db_fuzzy. steady_steps no_flags. Qed.

Lemma keeps_place_of fname artist title :
  keeps ok fixed (place_of e fname artist title).
Proof. unfold place_of, as_text. steady_steps no_flags. Qed.

Lemma keeps_duplicate_found pl : keeps ok fixed (duplicate_found pl).
Proof. unfold duplicate_found, listdir. steady_steps no_flags. Qed.

Lemma keeps_read_answer data : keeps ok fixed (read_answer data).
Proof. unfold read_answer, py_get. steady_steps no_flags. Qed.

Lemma keeps_loads v : keeps ok fixed (loads e v).
Proof. unfold loads. steady_steps no_flags. Qed.
End SteadyHelpers.

#[local] Hint Resolve keeps_check_db_by_filename_variations keeps_check_db_fuzzy
  keeps_place_of keeps_duplicate_found keeps_read_answer keeps_loads : steady.

(** ** Dry runs, disabled services, missing key *)

Section DryRun.
Context {U : Unicode} (e : env).
Hypothesis Hdry : dry_run e = true.

Ltac dry_flags := rewrite ?Hdry, ?andb_false_r, ?orb_true_l in *; cbn [negb].

Lemma dry_query_ollama filename a t :
  keeps not_copy true (query_ollama_for_metadata e filename a t).
Proof.
  unfold query_ollama_for_metadata, ollama_prompt, getattr_response. steady_steps no_flags.
Qed.

Lemma dry_query_openai filename a t :
  keeps not_copy true (query_openai_for_metadata e filename a t).
Proof. unfold query_openai_for_metadata. steady_steps no_flags. Qed.

Hint Resolve dry_query_ollama dry_query_openai : steady.

Lemma dry_place fname fpath use_as_is artist title :
  keeps not_copy true (place e fname fpath use_as_is artist title).
Proof. unfold place, divert_unsorted. steady_steps dry_flags. Qed.

Lemma dry_process_file root fname :
  keeps not_copy true (process_file e root fname).
Proof.
  unfold process_file. steady_steps dry_flags;
    first [apply dry_place | unfold dry_ai_preview; steady_steps dry_flags].
Qed.

Lemma dry_for_each_file files : keeps not_copy true (for_each_file e files).
Proof.
  induction files as [| [root fname] rest IH]; simpl; [apply keeps_ret |].
  apply keeps_bind; [apply dry_process_file | intros o].
  apply keeps_bind; [exact IH | intros os; apply keeps_ret].
Qed.

Lemma dry_main walk : keeps not_copy true (main e walk).
Proof.
  unfold main. apply keeps_bind; [apply keeps_get_disk | intros d].
  apply keeps_bind; [| intros _; apply dry_for_each_file].
  steady_steps dry_flags.
Qed.
End DryRun.

Section NoRequests.
Context {U : Unicode} (e : env).

(** Placing a file asks no service. *)
Lemma place_no_request fixed fname fpath use_as_is artist title :
  fixed = false ->
  keeps not_request fixed (place e fname fpath use_as_is artist title).
Proof.
  intros ->. unfold place, divert_unsorted, copy_and_update, ensure_dir, copy2.
  steady_steps no_flags.
Qed.

Hypothesis Hquiet :
  (USE_OLLAMA e = false /\ USE_OPENAI e = false)
  \/ (dry_run e = true /\ dry_ai e = false).

Lemma quiet_process_file root fname :
  keeps not_request false (process_file e root fname).
Proof.
  unfold process_file.
  destruct Hquiet as [[Hol Hop] | [Hdry Hai]].
  - steady_steps ltac:(rewrite ?Hol, ?Hop in *; cbn [negb andb orb]);
      first [ by apply place_no_request
            | unfold dry_ai_preview;
              steady_steps ltac:(rewrite ?Hol, ?Hop in *; cbn [negb andb orb]) ].
  - steady_steps ltac:(rewrite ?Hdry, ?Hai, ?andb_false_r in *; cbn [negb]);
      by apply place_no_request.
Qed.

Lemma quiet_for_each_file files : keeps not_request false (for_each_file e files).
Proof.
  induction files as [| [root fname] rest IH]; simpl; [apply keeps_ret |].
  apply keeps_bind; [apply quiet_process_file | intros o].
  apply keeps_bind; [exact IH | intros os; apply keeps_ret].
Qed.

Lemma quiet_main walk : keeps not_request false (main e walk).
Proof.
  unfold main. apply keeps_bind; [apply keeps_get_disk | intros d].
  apply keeps_bind; [| intros _; apply quiet_for_each_file].
  steady_steps no_flags.
Qed.
End NoRequests.

Section NoKey.
Context {U : Unicode} (e : env).
Hypothesis Hkey : key_set e = false.

Lemma keyless_query_openai filename a t :
  keeps not_openai_request false (query_openai_for_metadata e filename a t).
Proof.
  unfold query_openai_for_metadata. rewrite Hkey, andb_false_r. apply keeps_ret.
Qed.

Lemma keyless_query_ollama filename a t :
  keeps not_openai_request false (query_ollama_for_metadata e filename a t).
Proof.
  unfold query_ollama_for_metadata, ollama_prompt, getattr_response. steady_steps no_flags.
Qed.

Hint Resolve keyless_query_openai keyless_query_ollama : steady.

Lemma keyless_process_file root fname :
  keeps not_openai_request false (process_file e root fname).
Proof.
  unfold process_file, resolve, openai_after, dry_ai_preview, place, divert_unsorted,
    copy_and_update, ensure_dir, copy2.
  steady_steps no_flags.
Qed.

Lemma keyless_for_each_file files :
  keeps not_openai_request false (for_each_file e files).
Proof.
  induction files as [| [root fname] rest IH]; simpl; [apply keeps_ret |].
  apply keeps_bind; [apply keyless_process_file | intros o].
  apply keeps_bind; [exact IH | intros os; apply keeps_ret].
Qed.

Lemma keyless_main walk : keeps not_openai_request false (main e walk).
Proof.
  unfold main. apply keeps_bind; [apply keeps_get_disk | intros d].
  apply keeps_bind; [| intros _; apply keyless_for_each_file].
  steady_steps no_flags.
Qed.
End NoKey.

Lemma forallb_not_copy evs :
  forallb not_copy evs = true -> forall src dst, Copy src dst ∉ evs.
Proof.
  intros H src dst Hin. apply list_elem_of_In in Hin.
  rewrite forallb_forall in H. by specialize (H _ Hin).
Qed.

Lemma forallb_not_request evs :
  forallb not_request evs = true ->
  forall filename a t, (AskOllama filename a t ∉ evs) /\ (AskOpenAI filename a t ∉ evs).
Proof.
  intros H filename a t. rewrite forallb_forall in H.
  split; intros Hin; apply list_elem_of_In in Hin; by specialize (H _ Hin).
Qed.

Lemma forallb_not_openai_request evs :
  forallb not_openai_request evs = true ->
  forall filename a t, AskOpenAI filename a t ∉ evs.
Proof.
  intros H filename a t Hin. apply list_elem_of_In in Hin.
  rewrite forallb_forall in H. by specialize (H _ Hin).
Qed.

(** X1: a dry run leaves the file system as it found it: the pass
    creates no directory and copies no file, whatever the services
    answer and whatever the ledger holds. *)
Theorem dry_run_leaves_the_disk
    (U : Unicode) (e : env) (walk : list (pystr * list pystr)) (s : state) :
  dry_run e = true ->
  disk (main e walk s).2 = disk s
  /\ exists evs, events (main e walk s).2 = events s ++ evs
                 /\ forall src dst, Copy src dst ∉ evs.
Proof.
  intros Hdry. destruct (dry_main e Hdry walk s) as [Hd (evs & Hev & Hok)].
  split; [by apply Hd |]. exists evs. split; [done |]. by apply forallb_not_copy.
Qed.

Lemma dry_run_leaves_the_disk_witness :
  disk dry_run_pass.2 = disk empty_state
  /\ exists evs, events dry_run_pass.2 = events empty_state ++ evs
                 /\ forall src dst, Copy src dst ∉ evs.
Proof.
  exact (dry_run_leaves_the_disk basic_latin (offline true false acraze_tags)
           [(lit "/src", [lit "Do It To It.opus"])] empty_state eq_refl).
Defined.

(** X2: a pass sends no request to either service when both services
    are disabled, and also when the run is a dry run without the dry-ai
    flag. *)
Theorem no_request_when_disabled_or_dry
    (U : Unicode) (e : env) (walk : list (pystr * list pystr)) (s : state) :
  (USE_OLLAMA e = false /\ USE_OPENAI e = false)
  \/ (dry_run e = true /\ dry_ai e = false) ->
  exists evs, events (main e walk s).2 = events s ++ evs
              /\ forall filename a t,
                   (AskOllama filename a t ∉ evs) /\ (AskOpenAI filename a t ∉ evs).
Proof.
  intros H. destruct (quiet_main e H walk s) as [_ (evs & Hev & Hok)].
  exists evs. split; [done |]. by apply forallb_not_request.
Qed.

Lemma no_request_when_disabled_or_dry_witness :
  exists evs,
    events (main (U := basic_latin) (online true true false OllamaRaises acraze_reply)
              [(lit "/src", [lit "a.opus"])] fresh_state).2
    = events fresh_state ++ evs
    /\ forall filename a t,
         (AskOllama filename a t ∉ evs) /\ (AskOpenAI filename a t ∉ evs).
Proof.
  exact (no_request_when_disabled_or_dry basic_latin
           (online true true false OllamaRaises acraze_reply)
           [(lit "/src", [lit "a.opus"])] fresh_state
           (or_intror (conj eq_refl eq_refl))).
Defined.

(** X3: with the key of the second service set to the empty text, the
    program runs and the second service is never asked, even when it is
    enabled. *)
Theorem no_openai_request_without_key
    (U : Unicode) (e : env) (walk : list (pystr * list pystr)) (s : state) :
  OPENAI_API_KEY e = Some [] ->
  exists evs, events (main e walk s).2 = events s ++ evs
              /\ forall filename a t, AskOpenAI filename a t ∉ evs.
Proof.
  intros H.
  assert (Hkey : key_set e = false) by (unfold key_set; by rewrite H).
  destruct (keyless_main e Hkey walk s) as [_ (evs & Hev & Hok)].
  exists evs. split; [done |]. by apply forallb_not_openai_request.
Qed.

Lemma no_openai_request_without_key_witness :
  exists evs,
    events (main (U := basic_latin) empty_key
              [(lit "/src", [lit "a.opus"])] fresh_state).2
    = events fresh_state ++ evs
    /\ forall filename a t, AskOpenAI filename a t ∉ evs.
Proof.
  exact (no_openai_request_without_key basic_latin empty_key
           [(lit "/src", [lit "a.opus"])] fresh_state eq_refl).
Defined.

(** ** The exact-match short circuit *)

Lemma find_some_of_member (p : row -> bool) rows r :
  r ∈ rows -> p r = true -> exists r', List.find p rows = Some r'.
Proof.
  induction rows as [| x rows IH]; [by intros ?%elem_of_nil |].
  intros [-> | Hin]%elem_of_cons Hp; simpl.
  - rewrite Hp. eauto.
  - destruct (p x); eauto.
Qed.

Lemma variations_ledgered {U : Unicode} fname rows :
  ledgered fname rows -> exists r, variations fname rows = Some r.
Proof.
  intros (r & Hin & Hname). unfold variations, fetchone.
  destruct (find_some_of_member
              (fun r => pystr_eqb (original_name r) fname) rows r Hin) as [r' Hr'].
  { unfold pystr_eqb. by apply bool_decide_eq_true. }
  rewrite Hr'. eauto.
Qed.

Lemma process_file_ledgered {U : Unicode} (e : env) root fname s :
  ledgered fname (ledger s) ->
  process_file e root fname s
  = (Ok SkipExact,
     {| ledger := ledger s; disk := disk s;
        events := events s ++ (if debug e then [] else [Log WARNING]) |}).
Proof.
  intros H. destruct (variations_ledgered fname (ledger s) H) as [r Hr].
  unfold process_file, check_db_by_filename_variations, get_ledger, when, log, emit,
    mbind, M_bind, bind, ret.
  simpl. rewrite Hr. destruct (debug e); simpl; [| done].
  rewrite app_nil_r. by destruct s.
Qed.

(** X4: a file whose name the ledger already holds is skipped at once:
    no metadata is read, no service is asked, nothing is copied, and the
    ledger and the file system stay as they are; only a warning is
    logged (outside debug mode). *)
Theorem ledgered_name_is_skipped
    (U : Unicode) (e : env) (root fname : pystr) (s : state) :
  ledgered fname (ledger s) ->
  process_file e root fname s
  = (Ok SkipExact,
     {| ledger := ledger s; disk := disk s;
        events := events s ++ (if debug e then [] else [Log WARNING]) |}).
Proof. apply process_file_ledgered. Qed.

Lemma ledgered_name_is_skipped_witness :
  process_file (U := basic_latin) (online true false false OllamaRaises acraze_reply)
    (lit "/src") (lit "first.opus") acraze_state
  = (Ok SkipExact,
     {| ledger := ledger acraze_state; disk := disk acraze_state;
        events := events acraze_state ++ [Log WARNING] |}).
Proof.
  apply (ledgered_name_is_skipped basic_latin
           (online true false false OllamaRaises acraze_reply)
           (lit "/src") (lit "first.opus") acraze_state).
  exists acraze_row. split; [apply list_elem_of_here | reflexivity].
Defined.

Lemma for_each_file_ledgered {U : Unicode} (e : env) files s :
  (forall root fname, (root, fname) ∈ files -> ledgered fname (ledger s)) ->
  exists evs,
    for_each_file e files s
    = (Ok (replicate (length files) SkipExact),
       {| ledger := ledger s; disk := disk s; events := events s ++ evs |})
    /\ Forall (fun ev => ev = Log WARNING) evs.
Proof.
  revert s. induction files as [| [root fname] rest IH]; intros s H.
  - exists []. simpl. rewrite app_nil_r. by destruct s.
  - simpl. rewrite (bind_ok _ _ _ _ _ (process_file_ledgered e root fname s
                                         (H root fname (list_elem_of_here _ _)))).
    specialize (IH {| ledger := ledger s; disk := disk s;
                      events := events s ++ (if debug e then [] else [Log WARNING]) |}).
    destruct IH as (evs & Hrun & Hevs).
    { intros r f Hin. simpl. apply (H r f). by apply list_elem_of_further. }
    rewrite (bind_ok _ _ _ _ _ Hrun). simpl.
    exists ((if debug e then [] else [Log WARNING]) ++ evs).
    rewrite app_assoc. split; [done |].
    apply Forall_app. split; [| done]. destruct (debug e); by repeat constructor.
Qed.

(** X5: a pass over files that are all in the ledger, with the
    destination root in place, ends normally with every file skipped and
    changes neither the ledger nor the file system; it asks no service
    and copies nothing, its only trace being warnings. *)
Theorem pass_over_ledgered_files_changes_nothing
    (U : Unicode) (e : env) (walk : list (pystr * list pystr)) (s : state) :
  isdir (disk s) (dest e) = true ->
  (forall root names fname,
      (root, names) ∈ walk -> fname ∈ names -> ledgered fname (ledger s)) ->
  exists evs,
    main e walk s
    = (Ok (replicate (length (flat_map snd walk)) SkipExact),
       {| ledger := ledger s; disk := disk s; events := events s ++ evs |})
    /\ Forall (fun ev => ev = Log WARNING) evs.
Proof.
  intros Hdir H. unfold main, get_disk, mbind, M_bind, bind. simpl.
  unfold isdir in Hdir. rewrite Hdir. simpl.
  set (files := flat_map (fun rf : pystr * list pystr => map (pair rf.1) rf.2) walk).
  destruct (for_each_file_ledgered e files s) as (evs & Hrun & Hevs).
  { intros root fname Hin. unfold files in Hin.
    apply list_elem_of_In, in_flat_map in Hin as ([r names] & Hw & Hin).
    simpl in Hin. apply in_map_iff in Hin as (f & [= <- <-] & Hf).
    apply (H r names f); by apply list_elem_of_In. }
  exists evs. split; [| done]. rewrite Hrun. do 3 f_equal.
  unfold files. clear. induction walk as [| [r names] w IH]; [done |].
  simpl. rewrite !length_app, length_map. by rewrite IH.
Qed.

Lemma pass_over_ledgered_files_changes_nothing_witness :
  exists evs,
    main (U := basic_latin) (online true false false OllamaRaises acraze_reply)
      [(lit "/src", [lit "first.opus"; lit "first.opus"])] acraze_state
    = (Ok (replicate
             (length (flat_map snd [(lit "/src", [lit "first.opus"; lit "first.opus"])]))
             SkipExact),
       {| ledger := ledger acraze_state; disk := disk acraze_state;
          events := events acraze_state ++ evs |})
    /\ Forall (fun ev => ev = Log WARNING) evs.
Proof.
  apply (pass_over_ledgered_files_changes_nothing basic_latin
           (online true false false OllamaRaises acraze_reply)
           [(lit "/src", [lit "first.opus"; lit "first.opus"])] acraze_state).
  - vm_compute. reflexivity.
  - intros root names fname Hw Hf.
    apply list_elem_of_singleton in Hw. injection Hw as -> ->.
    exists acraze_row. split; [apply list_elem_of_here |].
    apply elem_of_cons in Hf as [-> | Hf]; [reflexivity |].
    apply list_elem_of_singleton in Hf. by subst.
Defined.

(** X6: once a file has left through an exit that writes the ledger
    (not-audio suppression, raw-fuzzy skip, duplicate skip, fuzzy link,
    recorded import), processing the same name again is an exact-match
    skip that changes neither the ledger nor the file system. *)
Theorem ledgered_outcome_is_not_repeated
    (U : Unicode) (e : env) (root root' fname : pystr) (s s' : state) (o : outcome) :
  process_file e root fname s = (Ok o, s') ->
  o ∈ [SuppressNotAudio; SkipFuzzyRaw; SkipDuplicate; LinkFuzzy; RecordImport] ->
  process_file e root' fname s'
  = (Ok SkipExact,
     {| ledger := ledger s'; disk := disk s';
        events := events s' ++ (if debug e then [] else [Log WARNING]) |}).
Proof.
  intros Hrun Ho. apply process_file_ledgered.
  destruct (effect_process_file e root fname s) as (new & Hl & HP).
  rewrite Hrun in Hl, HP. simpl in Hl, HP. rewrite Hl.
  assert (Hnew : exists r, new = [r] /\ original_name r = fname).
  { repeat (apply elem_of_cons in Ho as [-> | Ho]); simpl in HP;
      try (by eexists; split; [exact HP |]); try done.
    by apply elem_of_nil in Ho. }
  destruct Hnew as (r & -> & Hname). exists r. split; [| done].
  apply elem_of_app. right. apply list_elem_of_here.
Qed.

Lemma ledgered_outcome_is_not_repeated_witness :
  process_file (U := basic_latin) (offline false false acraze_tags)
    (lit "/elsewhere") (lit "Do It To It.opus")
    (process_file (U := basic_latin) (offline false false acraze_tags)
       (lit "/src") (lit "Do It To It.opus") fresh_state).2
  = (Ok SkipExact,
     {| ledger :=
          ledger (process_file (U := basic_latin) (offline false false acraze_tags)
                    (lit "/src") (lit "Do It To It.opus") fresh_state).2;
        disk :=
          disk (process_file (U := basic_latin) (offline false false acraze_tags)
                  (lit "/src") (lit "Do It To It.opus") fresh_state).2;
        events :=
          events (process_file (U := basic_latin) (offline false false acraze_tags)
                    (lit "/src") (lit "Do It To It.opus") fresh_state).2
          ++ [Log WARNING] |}).
Proof.
  apply (ledgered_outcome_is_not_repeated basic_latin (offline false false acraze_tags)
           (lit "/src") (lit "/elsewhere") (lit "Do It To It.opus") fresh_state
           (process_file (U := basic_latin) (offline false false acraze_tags)
              (lit "/src") (lit "Do It To It.opus") fresh_state).2 RecordImport).
  - vm_compute. reflexivity.
  - repeat constructor.
Defined.

(** ** Placement *)




(** X8: the duplicate scan does not look at the extension of the
    incoming file: an audio file in the artist directory whose stem has
    the identity key of the title makes the file a duplicate. *)
Theorem duplicate_found_whatever_the_extension
    (U : Unicode) (pl : placement) (s : state) (names : list pystr) (f t : pystr) :
  disk s !! dest_dir pl = Some names ->
  f ∈ names ->
  is_audio_ext (str_lower (splitext f).2) = true ->
  p_title pl = Some t ->
  normalize_string (splitext f).1 = normalize_string t ->
  duplicate_found pl s = (Ok true, s).
Proof.
  intros Hdir Hf Haudio Ht Hkey.
  unfold duplicate_found, listdir, get_disk, mbind, M_bind, bind, ret.
  assert (Hex : path_exists (disk s) (dest_dir pl) = true).
  { unfold path_exists. apply orb_true_iff. left.
    apply bool_decide_eq_true. by rewrite Hdir. }
  simpl. rewrite Hex. simpl. rewrite Hdir. simpl. rewrite Ht.
  f_equal. f_equal. apply existsb_exists. exists f. split.
  - apply filter_In. split; [by apply list_elem_of_In | done].
  - unfold pystr_eqb. by apply bool_decide_eq_true.
Qed.

Lemma duplicate_found_whatever_the_extension_witness :
  duplicate_found (U := basic_latin)
    {| p_artist := Some (lit "X"); p_title := Some (lit "love hate!");
       dest_dir := lit "/dest/X"; dest_name := lit "love hate!.flac";
       dest_path := lit "/dest/X/love hate!.flac" |} love_hate_state
  = (Ok true, love_hate_state).
Proof.
  apply (duplicate_found_whatever_the_extension basic_latin
           {| p_artist := Some (lit "X"); p_title := Some (lit "love hate!");
              dest_dir := lit "/dest/X"; dest_name := lit "love hate!.flac";
              dest_path := lit "/dest/X/love hate!.flac" |} love_hate_state
           [lit "Love  Hate.mp3"] (lit "Love  Hate.mp3") (lit "love hate!")).
  - vm_compute. reflexivity.
  - apply list_elem_of_here.
  - vm_compute. reflexivity.
  - reflexivity.
  - vm_compute. reflexivity.
Defined.

Lemma split_first_stops sepc a rest :
  sepc ∉ a -> split_first sepc (a ++ sepc :: rest) = a /\ split_first sepc a = a.
Proof.
  induction a as [| c a IH]; intros Hnot; simpl.
  - by rewrite N.eqb_refl.
  - apply not_elem_of_cons in Hnot as [Hc Ha].
    destruct (N.eqb_spec c sepc) as [-> | _]; [done |].
    destruct (IH Ha) as [-> ->]. done.
Qed.

(** X9: only the text before the first semicolon of the artist decides
    where a file goes: collaborators listed after it change neither the
    directory nor the path. *)
Theorem collaborators_do_not_move_the_file
    (U : Unicode) (e : env) (fname a rest : pystr) (title : pyval) (s : state) :
  59%N ∉ a ->
  placed_at (place_of e fname (PStr (a ++ 59%N :: rest)) title s)
  = placed_at (place_of e fname (PStr a) title s).
Proof.
  intros Hnot. destruct (split_first_stops 59%N a rest Hnot) as [H1 H2].
  unfold placed_at, place_of, as_text, mbind, M_bind, bind, raise, ret.
  assert (Htruthy : truthy (PStr (a ++ 59%N :: rest)) = true) by by destruct a.
  rewrite Htruthy. rewrite H1.
  destruct a as [| c a].
  - simpl. destruct (truthy title); [destruct title |]; done.
  - cbn [truthy nonempty]. rewrite H2.
    destruct (truthy title); [destruct title |]; done.
Qed.

Lemma collaborators_do_not_move_the_file_witness :
  placed_at (place_of (U := basic_latin) (offline false false acraze_tags)
               (lit "x.opus") (PStr (lit "23HOURS" ++ 59%N :: lit " FRIO; EDDY"))
               (PStr (lit "Belgisches Viertel")) fresh_state)
  = placed_at (place_of (U := basic_latin) (offline false false acraze_tags)
                 (lit "x.opus") (PStr (lit "23HOURS"))
                 (PStr (lit "Belgisches Viertel")) fresh_state).
Proof.
  apply (collaborators_do_not_move_the_file basic_latin (offline false false acraze_tags)
           (lit "x.opus") (lit "23HOURS") (lit " FRIO; EDDY")
           (PStr (lit "Belgisches Viertel")) fresh_state).
  vm_compute. intros H. repeat (apply elem_of_cons in H as [H | H]; [discriminate H |]).
  by apply elem_of_nil in H.
Defined.

Lemma duplicate_found_state {U : Unicode} pl s : (duplicate_found pl s).2 = s.
Proof.
  unfold duplicate_found, listdir, get_disk, mbind, M_bind, bind, raise, ret. simpl.
  destruct (path_exists (disk s) (dest_dir pl)); [| done]. simpl.
  by destruct (disk s !! dest_dir pl).
Qed.

Lemma duplicate_found_raises {U : Unicode} pl s ex :
  (duplicate_found pl s).1 = Raised ex -> ex = OSError.
Proof.
  unfold duplicate_found, listdir, get_disk, mbind, M_bind, bind, raise, ret. simpl.
  destruct (path_exists (disk s) (dest_dir pl)); [| done]. simpl.
  destruct (disk s !! dest_dir pl); simpl; [done | by intros [= <-]].
Qed.

Lemma place_taken {U : Unicode} (e : env) (fname fpath : pystr)
    (use_as_is artist title : pyval) (s : state) (pl : placement) :
  place_of e fname artist title s = (Ok pl, s) ->
  path_exists (disk s) (dest_path pl) = true ->
  truthy use_as_is = true \/ (is_Some (p_artist pl) /\ is_Some (p_title pl)) ->
  place e fname fpath use_as_is artist title s = (Raised OSError, s)
  \/ exists o rows,
       place e fname fpath use_as_is artist title s
       = (Ok o, {| ledger := rows; disk := disk s;
                   events := events s ++ [Log WARNING] |})
       /\ o ∈ [SkipDuplicate; SkipExists; SkipExistsAsIs].
Proof.
  intros Hpl Hex Hcase. unfold place.
  rewrite (bind_ok _ _ _ _ _ Hpl).
  pose proof (duplicate_found_state pl s) as Hst.
  pose proof (duplicate_found_raises pl s) as Hraise.
  destruct (duplicate_found pl s) as [[dup | ex] s1] eqn:Hdup;
    simpl in Hst; subst s1.
  2:{ left. rewrite (Hraise ex eq_refl) in Hdup. by apply bind_raised. }
  right. rewrite (bind_ok _ _ _ _ _ Hdup).
  destruct dup.
  { eexists SkipDuplicate, _. split; [reflexivity | rewrite !elem_of_cons; auto]. }
  destruct (truthy use_as_is) eqn:Hu.
  - rewrite (bind_ok _ _ s (disk s) s) by done. rewrite Hex.
    eexists SkipExistsAsIs, _. split; [reflexivity | rewrite !elem_of_cons; auto].
  - destruct Hcase as [Hc | [[a Ha] [t Ht]]]; [done |].
    rewrite Ha, Ht. rewrite (bind_ok _ _ s (disk s) s) by done. rewrite Hex.
    eexists SkipExists, _. split; [reflexivity | rewrite !elem_of_cons; auto].
Qed.

(** X10: a destination path that is already taken is never written:
    when the use-as-is verdict holds or both artist and title are
    present, the file ends as a duplicate or an already-exists skip (or
    with the error of an unreadable directory), the file system is left
    as it was and nothing is copied. *)
Theorem taken_destination_is_never_overwritten
    (U : Unicode) (e : env) (fname fpath : pystr) (use_as_is artist title : pyval)
    (s : state) (pl : placement) :
  place_of e fname artist title s = (Ok pl, s) ->
  path_exists (disk s) (dest_path pl) = true ->
  truthy use_as_is = true \/ (is_Some (p_artist pl) /\ is_Some (p_title pl)) ->
  disk (place e fname fpath use_as_is artist title s).2 = disk s
  /\ (exists evs,
        events (place e fname fpath use_as_is artist title s).2 = events s ++ evs
        /\ forall src dst, Copy src dst ∉ evs)
  /\ ((place e fname fpath use_as_is artist title s).1 = Raised OSError
      \/ exists o, (place e fname fpath use_as_is artist title s).1 = Ok o
                   /\ o ∈ [SkipDuplicate; SkipExists; SkipExistsAsIs]).
Proof.
  intros Hpl Hex Hcase.
  destruct (place_taken e fname fpath use_as_is artist title s pl Hpl Hex Hcase)
    as [-> | (o & rows & -> & Ho)]; simpl.
  - split; [done |]. split; [| by left].
    exists []. rewrite app_nil_r. split; [done |]. intros ? ?. apply not_elem_of_nil.
  - split; [done |]. split; [| right; by exists o].
    exists [Log WARNING]. split; [done |]. intros src dst Hin.
    apply list_elem_of_singleton in Hin. discriminate Hin.
Qed.

Lemma taken_destination_is_never_overwritten_witness :
  disk love_hate_run.2 = disk love_hate_state
  /\ (exists evs,
        events love_hate_run.2 = events love_hate_state ++ evs
        /\ forall src dst, Copy src dst ∉ evs)
  /\ (love_hate_run.1 = Raised OSError
      \/ exists o, love_hate_run.1 = Ok o
                   /\ o ∈ [SkipDuplicate; SkipExists; SkipExistsAsIs]).
Proof.
  change love_hate_run
    with (place (U := basic_latin)
            (offline false false (tags_of (lit "X") (lit "Love / Hate")))
            (lit "lh.mp3") (lit "/src/lh.mp3") PNone
            (PStr (lit "X")) (PStr (lit "Love / Hate")) love_hate_state).
  apply (taken_destination_is_never_overwritten basic_latin
           (offline false false (tags_of (lit "X") (lit "Love / Hate")))
           (lit "lh.mp3") (lit "/src/lh.mp3") PNone
           (PStr (lit "X")) (PStr (lit "Love / Hate")) love_hate_state
           {| p_artist := Some (lit "X"); p_title := Some (lit "Love / Hate");
              dest_dir := lit "/dest/X"; dest_name := lit "Love  Hate.mp3";
              dest_path := lit "/dest/X/Love  Hate.mp3" |}).
  - vm_compute. reflexivity.
  - vm_compute. reflexivity.
  - right. split; by eexists.
Defined.

(** X11: outside a dry run, the row of a recorded import is the last row
    of the ledger, carries the name of the file, and its storage path
    names a file that is on disk when the row is inserted. *)
Theorem recorded_import_is_on_disk
    (U : Unicode) (e : env) (root fname : pystr) (s s' : state) :
  dry_run e = false ->
  process_file e root fname s = (Ok RecordImport, s') ->
  exists r, last (ledger s') = Some r
            /\ original_name r = fname
            /\ path_exists (disk s') (storage_path r) = true.
Proof. apply recorded_import_exists_outside_dry_run. Qed.

Lemma recorded_import_is_on_disk_witness :
  exists r,
    last (ledger (process_file (U := basic_latin) (offline false false acraze_tags)
                    (lit "/src") (lit "Do It To It.opus") fresh_state).2) = Some r
    /\ original_name r = lit "Do It To It.opus"
    /\ path_exists
         (disk (process_file (U := basic_latin) (offline false false acraze_tags)
                  (lit "/src") (lit "Do It To It.opus") fresh_state).2)
         (storage_path r) = true.
Proof.
  apply (recorded_import_is_on_disk basic_latin (offline false false acraze_tags)
           (lit "/src") (lit "Do It To It.opus") fresh_state).
  - reflexivity.
  - vm_compute. reflexivity.
Defined.
(** ** The normalizer *)

Lemma forallb_filter_self {A} (p : A -> bool) (l : list A) :
  forallb p (List.filter p l) = true.
Proof.
  induction l as [| x l IH]; [done |]. simpl.
  destruct (p x) eqn:E; [simpl; by rewrite E | done].
Qed.

Lemma filter_forallb_id {A} (p : A -> bool) (l : list A) :
  forallb p l = true -> List.filter p l = l.
Proof.
  induction l as [| x l IH]; [done |]. simpl.
  intros [Hx Hl]%andb_prop. rewrite Hx. by rewrite (IH Hl).
Qed.

Lemma rstrip_nil s : rstrip s = [] -> forallb py_isspace s = true.
Proof.
  induction s as [| c s IH]; [done |]. simpl.
  destruct (rstrip s) eqn:E; [| done].
  destruct (py_isspace c); [| done]. intros _. by rewrite IH.
Qed.

Lemma rstrip_spaces s : forallb py_isspace s = true -> rstrip s = [].
Proof.
  induction s as [| c s IH]; [done |]. simpl.
  intros [Hc Hs]%andb_prop. by rewrite (IH Hs), Hc.
Qed.

Lemma lstrip_spaces s :
  forallb py_isspace (lstrip s) = true <-> forallb py_isspace s = true.
Proof.
  induction s as [| c s IH]; [done |]. simpl.
  destruct (py_isspace c) eqn:E; [done |]. simpl. by rewrite E.
Qed.

Lemma strip_nil s : strip s = [] <-> forallb py_isspace s = true.
Proof.
  unfold strip. rewrite <- lstrip_spaces. split.
  - apply rstrip_nil.
  - apply rstrip_spaces.
Qed.

(** X12: what [sanitize_filename] returns holds none of the nine
    characters it removes, neither starts nor ends with white space, and
    is left as it is by a second call. *)
Theorem sanitize_filename_clean_and_idempotent (s : pystr) :
  forallb (fun c => negb (illegal c)) (sanitize_filename s) = true
  /\ head_ok (sanitize_filename s) = true
  /\ last_ok (sanitize_filename s) = true
  /\ sanitize_filename (sanitize_filename s) = sanitize_filename s.
Proof.
  assert (Hclean : forallb (fun c => negb (illegal c)) (sanitize_filename s) = true).
  { apply forallb_strip, forallb_filter_self. }
  destruct (strip_stripped (re_sub_delete illegal s)) as [Hh Hl].
  repeat split; try done.
  unfold sanitize_filename at 1. unfold re_sub_delete at 1.
  rewrite (filter_forallb_id _ _ Hclean).
  by apply strip_id.
Qed.

(** X13: [sanitize_filename] returns the empty string exactly for the
    texts made of white space and of the characters it removes. *)
Theorem sanitize_filename_empty_iff (s : pystr) :
  sanitize_filename s = []
  <-> forallb (fun c => illegal c || py_isspace c) s = true.
Proof.
  unfold sanitize_filename, re_sub_delete. rewrite strip_nil.
  induction s as [| c s IH]; [done |]. simpl.
  destruct (illegal c); simpl; [done |].
  destruct (py_isspace c); simpl; [done | tauto].
Qed.

(** X14: a key of [normalize_string] is written in lower-case letters,
    digits and spaces only, and neither starts nor ends with a space,
    whatever the text and the Unicode tables. *)
Theorem normalize_string_alphabet (U : Unicode) (s : pystr) :
  forallb kept (normalize_string s) = true
  /\ head_ok (normalize_string s) = true
  /\ last_ok (normalize_string s) = true.
Proof.
  split; [apply normalize_string_kept | apply normalize_string_stripped].
Qed.

(** *** The order of [str] and [sorted(set(...))] *)

Lemma pystr_ltb_irrefl s : pystr_ltb s s = false.
Proof.
  induction s as [| c s IH]; [done |]. simpl.
  rewrite N.ltb_irrefl, N.eqb_refl. by rewrite IH.
Qed.

Lemma pystr_ltb_trans s t u :
  pystr_ltb s t = true -> pystr_ltb t u = true -> pystr_ltb s u = true.
Proof.
  revert t u. induction s as [| c s IH]; intros [| d t] [| x u]; simpl; try done.
  intros Hst Htu.
  apply orb_true_iff in Hst. apply orb_true_iff in Htu. apply orb_true_iff.
  destruct Hst as [Hst | [Hcd Hst]%andb_prop], Htu as [Htu | [Hdx Htu]%andb_prop].
  - left. apply N.ltb_lt. apply N.ltb_lt in Hst, Htu. lia.
  - left. apply N.eqb_eq in Hdx. by subst.
  - left. apply N.eqb_eq in Hcd. by subst.
  - right. apply N.eqb_eq in Hcd, Hdx. subst. rewrite N.eqb_refl. simpl.
    by apply (IH t u).
Qed.

Lemma pystr_ltb_total s t :
  pystr_ltb s t = false -> s <> t -> pystr_ltb t s = true.
Proof.
  revert t. induction s as [| c s IH]; intros [| d t]; simpl; try done.
  intros Hst Hne. apply orb_false_iff in Hst as [Hlt Hst].
  apply N.ltb_ge in Hlt. apply orb_true_iff.
  destruct (N.eqb_spec c d) as [-> | Hcd].
  - right. rewrite N.eqb_refl. simpl. simpl in Hst.
    apply IH; [done | congruence].
  - left. apply N.ltb_lt. lia.
Qed.

Lemma elem_of_insert_sorted x y l :
  y ∈ insert_sorted x l <-> y = x \/ y ∈ l.
Proof.
  induction l as [| z l IH]; simpl.
  - rewrite list_elem_of_singleton, elem_of_nil. tauto.
  - unfold pystr_eqb. case_bool_decide as Hxz.
    + subst. rewrite elem_of_cons. tauto.
    + destruct (pystr_ltb x z); [by rewrite elem_of_cons |].
      rewrite !elem_of_cons, IH. tauto.
Qed.

Lemma elem_of_sorted_set y l : y ∈ sorted_set l <-> y ∈ l.
Proof.
  induction l as [| x l IH]; [done |]. unfold sorted_set in *. simpl.
  rewrite elem_of_insert_sorted, IH, elem_of_cons. tauto.
Qed.

Lemma insert_sorted_sorted x l :
  StronglySorted (fun s t => pystr_ltb s t = true) l ->
  StronglySorted (fun s t => pystr_ltb s t = true) (insert_sorted x l).
Proof.
  induction 1 as [| z l Hl IH Hz]; simpl.
  - repeat constructor.
  - unfold pystr_eqb. case_bool_decide as Hxz; [by constructor |].
    destruct (pystr_ltb x z) eqn:Hlt.
    + constructor; [by constructor |]. constructor; [done |].
      eapply Forall_impl; [exact Hz |]. intros t Ht. simpl in Ht.
      by apply (pystr_ltb_trans x z t).
    + constructor; [done |]. apply Forall_forall. intros t Ht.
      apply elem_of_insert_sorted in Ht as [-> | Ht].
      * by apply pystr_ltb_total.
      * rewrite Forall_forall in Hz. by apply Hz.
Qed.

Lemma sorted_set_sorted l :
  StronglySorted (fun s t => pystr_ltb s t = true) (sorted_set l).
Proof.
  induction l as [| x l IH]; [constructor |]. by apply insert_sorted_sorted.
Qed.

Lemma strictly_sorted_unique l1 l2 :
  StronglySorted (fun s t => pystr_ltb s t = true) l1 ->
  StronglySorted (fun s t => pystr_ltb s t = true) l2 ->
  (forall x, x ∈ l1 <-> x ∈ l2) -> l1 = l2.
Proof.
  intros H1. revert l2. induction H1 as [| a l1 Hs1 IH Ha]; intros l2 H2 Hsame.
  - destruct l2 as [| b l2]; [done |].
    exfalso. apply (not_elem_of_nil b). apply Hsame. left.
  - destruct H2 as [| b l2 Hs2 Hb].
    { exfalso. apply (not_elem_of_nil a). apply Hsame. left. }
    rewrite Forall_forall in Ha. rewrite Forall_forall in Hb.
    assert (a = b) as <-.
    { assert (Hab : a ∈ b :: l2) by (apply Hsame; left).
      assert (Hba : b ∈ a :: l1) by (apply Hsame; left).
      apply elem_of_cons in Hab as [Hab | Hab]; [done |].
      apply elem_of_cons in Hba as [Hba | Hba]; [done |].
      pose proof (pystr_ltb_trans a b a (Ha b Hba) (Hb a Hab)) as Hc.
      by rewrite pystr_ltb_irrefl in Hc. }
    f_equal. apply IH; [done |]. intros x. split; intros Hx.
    + assert (Hx' : x ∈ a :: l2) by (apply Hsame; by right).
      apply elem_of_cons in Hx' as [-> | Hx']; [| done].
      pose proof (Ha a Hx) as Hc. by rewrite pystr_ltb_irrefl in Hc.
    + assert (Hx' : x ∈ a :: l1) by (apply Hsame; by right).
      apply elem_of_cons in Hx' as [-> | Hx']; [| done].
      pose proof (Hb a Hx) as Hc. by rewrite pystr_ltb_irrefl in Hc.
Qed.

Lemma sorted_set_same l1 l2 :
  (forall x, x ∈ l1 <-> x ∈ l2) -> sorted_set l1 = sorted_set l2.
Proof.
  intros Hsame. apply strictly_sorted_unique; try apply sorted_set_sorted.
  intros x. by rewrite !elem_of_sorted_set.
Qed.

Lemma split_on_app sep a b :
  split_on sep (a ++ sep :: b) = split_on sep a ++ split_on sep b.
Proof.
  induction a as [| c a IH]; simpl.
  - by rewrite N.eqb_refl.
  - destruct (c =? sep)%N; [by rewrite IH |].
    rewrite IH. destruct (split_on sep a) as [| piece pieces] eqn:E; [| done].
    destruct a; simpl in E; [done |]. destruct (_ =? _)%N; [done |].
    by destruct (split_on sep a).
Qed.

Lemma artist_keys_app {U : Unicode} a b :
  artist_keys (a ++ 59%N :: b) = artist_keys a ++ artist_keys b.
Proof.
  unfold artist_keys. cbv zeta.
  by rewrite split_on_app, map_app, List.filter_app, map_app.
Qed.

(** X15: [normalize_artist_list] does not depend on the order in which
    the artists are written, nor on an artist being written twice, and
    the keys it joins are strictly increasing. *)
Theorem normalize_artist_list_order_free (U : Unicode) (a b : pystr) :
  normalize_artist_list (a ++ 59%N :: b) = normalize_artist_list (b ++ 59%N :: a)
  /\ normalize_artist_list (a ++ 59%N :: a) = normalize_artist_list a
  /\ StronglySorted (fun s t => pystr_ltb s t = true)
       (sorted_set (artist_keys a)).
Proof.
  unfold normalize_artist_list. rewrite !artist_keys_app. repeat split.
  - f_equal. apply sorted_set_same. intros x. rewrite !elem_of_app. tauto.
  - f_equal. apply sorted_set_same. intros x. rewrite !elem_of_app. tauto.
  - apply sorted_set_sorted.
Qed.
(** ** Tags, extensions and the exact lookup *)

Lemma lookup_key_omap (audio : list (pystr * list pystr)) (key : pystr)
    (tags : list pystr) :
  lookup_key key
    (omap (fun tag =>
             match lookup_key tag audio with
             | Some (v :: _) => Some (tag, v)
             | _ => None
             end) tags)
  = if bool_decide (key ∈ tags)
    then match lookup_key key audio with
         | Some (v :: _) => Some v
         | _ => None
         end
    else None.
Proof.
  set (f := fun tag : pystr =>
              match lookup_key tag audio with
              | Some (v :: _) => Some (tag, v)
              | _ => None
              end).
  induction tags as [| t tags IH]; [done |].
  change (omap f (t :: tags))
    with (match f t with Some y => y :: omap f tags | None => omap f tags end).
  destruct (decide (t = key)) as [-> | Hne].
  - rewrite (bool_decide_eq_true_2 (key ∈ key :: tags)) by left.
    unfold f at 1.
    destruct (lookup_key key audio) as [[| v vs] |] eqn:E.
    + rewrite IH. by destruct (bool_decide _).
    + unfold lookup_key at 1. simpl. unfold pystr_eqb.
      by rewrite bool_decide_eq_true_2.
    + rewrite IH. by destruct (bool_decide _).
  - assert (Hin : bool_decide (key ∈ t :: tags) = bool_decide (key ∈ tags)).
    { apply bool_decide_ext. rewrite elem_of_cons.
      split; [intros [-> | ?]; done | by right]. }
    rewrite Hin, <- IH. unfold f at 1.
    destruct (lookup_key t audio) as [[| v vs] |]; try done.
    unfold lookup_key at 1. simpl. unfold pystr_eqb.
    by rewrite bool_decide_eq_false_2.
Qed.

(** X16: [get_metadata(...).get(key)] is the first value the file holds
    under [key] when [key] is one of title, artist, album, date and year
    and the file holds a non-empty list there; it is absent for every
    other key, for an empty list, and for a file that cannot be read. *)
Theorem get_metadata_first_values (e : env) (filepath key : pystr) :
  lookup_key key (get_metadata e filepath)
  = match MutagenFile e filepath with
    | MutagenTags audio =>
        if bool_decide
             (key ∈ [lit "title"; lit "artist"; lit "album"; lit "date"; lit "year"])
        then match lookup_key key audio with
             | Some (v :: _) => Some v
             | _ => None
             end
        else None
    | _ => None
    end.
Proof.
  unfold get_metadata. destruct (MutagenFile e filepath); try done.
  apply lookup_key_omap.
Qed.

Lemma find_first_index {A} (p : A -> bool) (l : list A) (x : A) :
  List.find p l = Some x ->
  exists i, l !! i = Some x /\ p x = true
            /\ forall j y, l !! j = Some y -> p y = true -> i <= j.
Proof.
  induction l as [| a l IH]; [done |]. simpl.
  destruct (p a) eqn:E.
  - intros [= ->]. exists 0. repeat split; [done |]. intros; lia.
  - intros H. destruct (IH H) as (i & Hi & Hp & Hmin).
    exists (S i). repeat split; [done | done |].
    intros [| j] y Hj Hy; simpl in Hj.
    + injection Hj as ->. congruence.
    + specialize (Hmin j y Hj Hy). lia.
Qed.

(** X17: [best_audio_ext] returns nothing for the empty list only, and
    always a member of the list: the member that stands first in the
    preference order when one of them is listed there, and the head of
    the list otherwise. *)
Theorem best_audio_ext_is_the_most_preferred (exts : list pystr) :
  (best_audio_ext exts = None <-> exts = [])
  /\ (forall x, best_audio_ext exts = Some x -> x ∈ exts)
  /\ (forall j p, AUDIO_EXT_PREFERENCE !! j = Some p -> p ∈ exts ->
        exists i x, best_audio_ext exts = Some x
                    /\ AUDIO_EXT_PREFERENCE !! i = Some x /\ i <= j)
  /\ ((forall p, p ∈ AUDIO_EXT_PREFERENCE -> p ∉ exts) ->
        best_audio_ext exts = head exts).
Proof.
  unfold best_audio_ext.
  destruct (List.find (fun pref => bool_decide (pref ∈ exts)) AUDIO_EXT_PREFERENCE)
    as [x |] eqn:E.
  - destruct (find_first_index _ _ _ E) as (i & Hi & Hx & Hmin).
    apply bool_decide_eq_true in Hx.
    split; [| split; [| split]].
    + split; [done |]. intros ->. by apply not_elem_of_nil in Hx.
    + by intros ? [= <-].
    + intros j p Hj Hp. exists i, x. repeat split; [done |].
      apply (Hmin j p Hj). by apply bool_decide_eq_true.
    + intros Hnone. destruct (Hnone x); [| done].
      by apply list_elem_of_lookup_2 in Hi.
  - split; [| split; [| split]].
    + destruct exts; by split.
    + intros x Hx. destruct exts as [| y exts]; [done |].
      injection Hx as ->. left.
    + intros j p Hj Hp. exfalso.
      apply list_elem_of_lookup_2 in Hj.
      pose proof (find_none _ _ E p) as Hn.
      rewrite <- list_elem_of_In in Hn. specialize (Hn Hj).
      by apply bool_decide_eq_false in Hn.
    + done.
Qed.

(** X18: a name [check_db_exact] finds is found by
    [check_db_by_filename_variations] too, and the two return the same
    row when the literal comparison hits. *)
Theorem exact_hit_is_a_variation_hit (U : Unicode) (name : pystr) (s : state)
    (r : row) :
  (check_db_exact name s).1 = Ok (Some r) ->
  (exists r', (check_db_by_filename_variations name s).1 = Ok (Some r'))
  /\ (original_name r = name ->
      (check_db_by_filename_variations name s).1 = Ok (Some r)).
Proof.
  unfold check_db_exact, check_db_by_filename_variations, get_ledger,
    mbind, M_bind, bind, ret. simpl.
  unfold exact_match, variations.
  destruct (fetchone (fun r0 => pystr_eqb (original_name r0) name) (ledger s))
    as [r0 |] eqn:E1.
  - simpl. intros [= ->]. split; [by exists r | done].
  - cbv zeta. simpl. intros [= E3].
    split.
    + rewrite E3.
      match goal with |- context [match ?x with _ => _ end] => destruct x end;
        by eexists.
    + intros Hr. exfalso.
      apply find_some in E3 as [Hin _].
      pose proof (find_none _ _ E1 r Hin) as Hn. simpl in Hn.
      unfold pystr_eqb in Hn. by apply bool_decide_eq_false in Hn.
Qed.

Lemma exact_hit_is_a_variation_hit_witness :
  (exists r', (check_db_by_filename_variations (U := basic_latin)
                 (lit "first.opus") acraze_state).1 = Ok (Some r'))
  /\ (original_name acraze_row = lit "first.opus" ->
      (check_db_by_filename_variations (U := basic_latin)
         (lit "first.opus") acraze_state).1 = Ok (Some acraze_row)).
Proof.
  apply (exact_hit_is_a_variation_hit basic_latin (lit "first.opus")
           acraze_state acraze_row).
  vm_compute. reflexivity.
Defined.
(** ** The resolver *)

(** The three fields [query_openai_for_metadata] reads from an object. *)
Lemma read_answer_dict (items : list (pystr * pyval)) (s : state) :
  read_answer (PDict items) s
  = (Ok (default (PBool false) (lookup_key (lit "use_as_is") items),
         default PNone (lookup_key (lit "artist") items),
         default PNone (lookup_key (lit "title") items)), s).
Proof. done. Qed.

Lemma query_openai_for_metadata_state
    (e : env) (filename : pystr) (artist title : pyval) (s : state) :
  ledger (query_openai_for_metadata e filename artist title s).2 = ledger s
  /\ disk (query_openai_for_metadata e filename artist title s).2 = disk s
  /\ exists ans, (query_openai_for_metadata e filename artist title s).1 = Ok ans.
Proof.
  unfold query_openai_for_metadata, try_except, when, log, emit, loads, read_answer,
    py_get, mbind, M_bind, bind, raise, ret.
  destruct (negb (USE_OPENAI e && key_set e)); simpl; [by eauto |].
  destruct (chat_completions_create e filename artist title) as [| [c |]]; simpl;
    destruct (debug e); simpl;
    try (destruct (nonempty c); simpl);
    try (destruct (json_loads e c) as [v |]; simpl);
    try (destruct v; simpl);
    by eauto.
Qed.

(** X19: [query_openai_for_metadata] never raises and leaves the ledger
    and the file system alone. Its answer is (None, None, None) unless
    the service is enabled with a key and its reply decodes to an
    object; it is then the three fields of that object, a missing
    [use_as_is] read as False and a missing artist or title as None. *)
Theorem query_openai_for_metadata_never_raises
    (e : env) (filename : pystr) (artist title : pyval) (s : state) :
  ledger (query_openai_for_metadata e filename artist title s).2 = ledger s
  /\ disk (query_openai_for_metadata e filename artist title s).2 = disk s
  /\ ((query_openai_for_metadata e filename artist title s).1 = Ok none3
      \/ exists c items,
           USE_OPENAI e = true /\ key_set e = true
           /\ chat_completions_create e filename artist title
              = OpenAIContent (Some c)
           /\ json_loads e c = Some (PDict items)
           /\ (query_openai_for_metadata e filename artist title s).1
              = Ok (default (PBool false) (lookup_key (lit "use_as_is") items),
                    default PNone (lookup_key (lit "artist") items),
                    default PNone (lookup_key (lit "title") items))).
Proof.
  unfold query_openai_for_metadata, try_except, when, log, emit, loads, read_answer,
    py_get, mbind, M_bind, bind, raise, ret.
  destruct (USE_OPENAI e); simpl; [| by auto].
  destruct (key_set e); simpl; [| by auto].
  destruct (chat_completions_create e filename artist title) as [| [c |]]; simpl.
  - by auto.
  - destruct (debug e); simpl;
      (destruct (nonempty c); simpl; [| by auto]);
      (destruct (json_loads e c) as [v |] eqn:Hv; simpl; [| by auto]);
      (destruct v; simpl; try (by auto));
      (split; [done |]; split; [done |]; right; by eexists c, _).
  - destruct (debug e); simpl; by auto.
Qed.

Lemma resolve_enabled (e : env) (fpath : pystr) (artist title : pyval) (s : state) :
  USE_OLLAMA e = true ->
  resolve e fpath artist title s = (Raised ValueError, s).
Proof.
  intros H. unfold resolve. rewrite H.
  by rewrite (bind_raised _ _ _ _ _
                (query_ollama_raises e (basename fpath) artist title s H)).
Qed.

Lemma resolve_disabled (e : env) (fpath : pystr) (artist title : pyval) (s : state) :
  USE_OLLAMA e = false ->
  resolve e fpath artist title s = openai_after e none3 fpath artist title s.
Proof. intros H. unfold resolve. by rewrite H. Qed.

(** X20: with the second service enabled and a key set, what the
    resolver does depends on the first service alone. Disabled, the
    resolver asks the second service at once, with the artist and the
    title the file came with. Enabled, its prompt raises: the resolver
    ends with ValueError, nothing is sent and nothing has changed. *)
Theorem resolve_asks_the_second_service_without_the_first
    (e : env) (fpath : pystr) (artist title : pyval) (s : state) :
  USE_OPENAI e = true -> key_set e = true ->
  if USE_OLLAMA e
  then resolve e fpath artist title s = (Raised ValueError, s)
  else exists rest,
      events (resolve e fpath artist title s).2
      = events s ++ AskOpenAI (basename fpath) artist title :: rest.
Proof.
  intros Hop Hkey. destruct (USE_OLLAMA e) eqn:Hol.
  - by apply resolve_enabled.
  - rewrite (resolve_disabled e fpath artist title s Hol).
    destruct (openai_after_asks_iff e none3 fpath artist title s Hop Hkey)
      as [Hask _].
    by apply Hask.
Qed.

Lemma resolve_asks_the_second_service_without_the_first_witness :
  exists rest,
    events (resolve (online false false false OllamaRaises acraze_reply)
              (lit "/src/second.opus") PNone PNone empty_state).2
    = events empty_state
      ++ AskOpenAI (basename (lit "/src/second.opus")) PNone PNone :: rest.
Proof.
  apply (resolve_asks_the_second_service_without_the_first
           (online false false false OllamaRaises acraze_reply)
           (lit "/src/second.opus") PNone PNone empty_state); reflexivity.
Defined.

(** X21: the resolver leaves the ledger and the file system alone. With
    the first service disabled it never raises, and it hands back either
    the artist and the title it was given, or a pair of truthy values
    from the second service together with a falsy use-as-is verdict.
    With the first service enabled it raises ValueError, whatever the
    file and whatever the second service. *)
Theorem resolve_result
    (e : env) (fpath : pystr) (artist title : pyval) (s : state) :
  ledger (resolve e fpath artist title s).2 = ledger s
  /\ disk (resolve e fpath artist title s).2 = disk s
  /\ if USE_OLLAMA e
     then resolve e fpath artist title s = (Raised ValueError, s)
     else exists use_as_is artist' title',
         (resolve e fpath artist title s).1 = Ok (use_as_is, artist', title')
         /\ ((artist', title') = (artist, title)
             \/ (truthy use_as_is = false
                 /\ truthy artist' = true /\ truthy title' = true)).
Proof.
  destruct (USE_OLLAMA e) eqn:Hol.
  { by rewrite (resolve_enabled e fpath artist title s Hol). }
  rewrite (resolve_disabled e fpath artist title s Hol).
  unfold openai_after. change (undecided none3) with true. rewrite andb_true_r.
  destruct (USE_OPENAI e).
  2:{ simpl. repeat split; try done. exists PNone, artist, title. by auto. }
  destruct (query_openai_for_metadata_state e (basename fpath) artist title s)
    as (Hl2 & Hd2 & ans & Hans).
  destruct (query_openai_for_metadata e (basename fpath) artist title s)
    as [r2 s2] eqn:E2. simpl in Hl2, Hd2, Hans. subst r2.
  rewrite (bind_ok _ _ _ _ _ E2).
  destruct ans as [[u la] lt]. unfold adopt.
  destruct (truthy u) eqn:Hu; simpl.
  - repeat split; try done. exists u, artist, title. by auto.
  - destruct (truthy la) eqn:Hla; simpl;
      [destruct (truthy lt) eqn:Hlt; simpl |];
      repeat split; try done.
    + exists u, la, lt. by auto.
    + exists u, artist, title. by auto.
    + exists u, artist, title. by auto.
Qed.

(** X22: a reply of the second service that decodes to an object is
    read field by field: the answer is the value under [use_as_is]
    (False when missing) with the values under [artist] and [title]
    (None when missing), passed on as they are, whatever their types;
    the one request sent is the only trace besides debug lines. *)
Theorem query_openai_for_metadata_reads_the_object
    (e : env) (filename c : pystr) (artist title : pyval)
    (items : list (pystr * pyval)) (s : state) :
  USE_OPENAI e = true -> key_set e = true ->
  chat_completions_create e filename artist title = OpenAIContent (Some c) ->
  nonempty c = true ->
  json_loads e c = Some (PDict items) ->
  (query_openai_for_metadata e filename artist title s).1
  = Ok (default (PBool false) (lookup_key (lit "use_as_is") items),
        default PNone (lookup_key (lit "artist") items),
        default PNone (lookup_key (lit "title") items))
  /\ events (query_openai_for_metadata e filename artist title s).2
     = events s ++ AskOpenAI filename artist title
                   :: (if debug e then [Log LLM] else []).
Proof.
  intros Hop Hkey Hchat Hc Hjson.
  unfold query_openai_for_metadata, try_except, when, log, emit, loads, read_answer,
    py_get, mbind, M_bind, bind, raise, ret.
  rewrite Hop, Hkey, Hchat. simpl. rewrite Hc.
  destruct (debug e); simpl; rewrite Hjson; simpl; rewrite <- ?app_assoc; done.
Qed.

Lemma query_openai_for_metadata_reads_the_object_witness :
  (query_openai_for_metadata (online false false false OllamaRaises acraze_reply)
     (lit "second.opus") PNone PNone empty_state).1
  = Ok (default (PBool false)
          (lookup_key (lit "use_as_is")
             [(lit "use_as_is", PBool false);
              (lit "artist", PStr (lit "Acraze"));
              (lit "artists", PStr (lit "Acraze"));
              (lit "title", PStr (lit "Do It To It"))]),
        default PNone
          (lookup_key (lit "artist")
             [(lit "use_as_is", PBool false);
              (lit "artist", PStr (lit "Acraze"));
              (lit "artists", PStr (lit "Acraze"));
              (lit "title", PStr (lit "Do It To It"))]),
        default PNone
          (lookup_key (lit "title")
             [(lit "use_as_is", PBool false);
              (lit "artist", PStr (lit "Acraze"));
              (lit "artists", PStr (lit "Acraze"));
              (lit "title", PStr (lit "Do It To It"))]))
  /\ events (query_openai_for_metadata
               (online false false false OllamaRaises acraze_reply)
               (lit "second.opus") PNone PNone empty_state).2
     = events empty_state ++ AskOpenAI (lit "second.opus") PNone PNone
         :: (if debug (online false false false OllamaRaises acraze_reply)
             then [Log LLM] else []).
Proof.
  apply (query_openai_for_metadata_reads_the_object
           (online false false false OllamaRaises acraze_reply)
           (lit "second.opus") acraze_reply PNone PNone
           [(lit "use_as_is", PBool false);
            (lit "artist", PStr (lit "Acraze"));
            (lit "artists", PStr (lit "Acraze"));
            (lit "title", PStr (lit "Do It To It"))] empty_state);
    vm_compute; reflexivity.
Defined.
(** ** Growth of the ledger *)

Section LedgerGrowth.
Context {U : Unicode} (e : env).

Hint Resolve quiet_getattr_response quiet_py_get quiet_loads quiet_read_answer
  calm_check_db_by_filename_variations calm_check_db_fuzzy
  quiet_query_ollama_for_metadata calm_query_openai_for_metadata
  quiet_as_text quiet_place_of quiet_listdir quiet_duplicate_found quiet_copy2
  calm_ensure_dir quiet_copy_and_update calm_openai_after quiet_resolve : ledger.

(** One step along a computation that may insert rows on its way. *)
Ltac row_step :=
  match goal with
  | |- appends (ret _) _ => apply appends_ret; simpl
  | |- appends (mret _) _ => apply appends_mret; simpl
  | |- appends (insert_db_skipped _ _) _ =>
      eapply appends_weaken;
      [apply appends_insert_db_skipped | intros ? ? [-> ->]; simpl]
  | |- appends (insert_db_skipped _ _ ≫= _) _ =>
      eapply appends_bind;
      [apply appends_insert_db_skipped
      | intros ? ? [_ ->]
      | intros ? ? [[=] _]]
  | |- appends (insert_db _ _ _ _ ≫= _) _ =>
      eapply appends_bind;
      [apply appends_insert_db
      | intros ? ? [_ ->]
      | intros ? ? [[=] _]]
  | |- appends (_ ≫= _) _ =>
      first [ apply appends_after_calm; [solve [calm_steps] | intros ?]
            | apply appends_after_quiet;
              [solve [calm_steps] | intros ? | intros ?; simpl; done] ]
  | |- appends (if ?c then _ else _) _ => destruct c eqn:?
  | |- appends (match ?x with _ => _ end) _ => destruct x eqn:?
  | |- appends (let '(_, _) := ?x in _) _ => destruct x eqn:?
  end.

Lemma copy_as_is_dry_ai_preview fpath artist title :
  appends (dry_ai_preview e fpath artist title) copy_as_is_post.
Proof. unfold dry_ai_preview, copy_as_is_post. repeat row_step; done. Qed.

Lemma copy_as_is_divert_unsorted fname fpath :
  appends (divert_unsorted e fname fpath) copy_as_is_post.
Proof.
  unfold divert_unsorted.
  eapply appends_bind with (Q := fun _ _ => True).
  - destruct (dry_run e || dry_ai e).
    + eapply appends_weaken; [apply calm_log | done].
    + repeat row_step. done.
  - intros a new1 _. apply appends_ret. done.
  - done.
Qed.

Lemma copy_as_is_place fname fpath use_as_is artist title :
  appends (place e fname fpath use_as_is artist title) copy_as_is_post.
Proof.
  unfold place.
  repeat first [ apply copy_as_is_divert_unsorted | row_step ];
    unfold copy_as_is_post; simpl; rewrite ?app_nil_r; done.
Qed.

Lemma copy_as_is_process_file root fname :
  appends (process_file e root fname) copy_as_is_post.
Proof.
  unfold process_file.
  repeat first [ apply copy_as_is_place | apply copy_as_is_dry_ai_preview | row_step ];
    unfold copy_as_is_post; simpl; rewrite ?app_nil_r; done.
Qed.

Lemma process_file_rows root fname s :
  exists new,
    ledger (process_file e root fname s).2 = ledger s ++ new
    /\ length new <= 1
    /\ (forall x, x ∈ new -> original_name x = fname)
    /\ ((process_file e root fname s).1 = Ok CopyAsIs -> new = []).
Proof.
  destruct (effect_process_file e root fname s) as (new & Hl & Hpost).
  destruct (copy_as_is_process_file root fname s) as (new' & Hl' & Hcopy).
  assert (new' = new) as -> by (rewrite Hl in Hl'; by apply app_inv_head in Hl').
  exists new. split; [done |]. unfold copy_as_is_post in Hcopy.
  assert (Hshape : new = [] \/ exists r, new = [r] /\ original_name r = fname).
  { destruct (process_file e root fname s) as [[o | ex] s']; simpl in *;
      [| by left].
    destruct o; simpl in Hpost;
      first [ left; exact Hpost
            | right; exact Hpost
            | right; eexists; split; [exact Hpost | reflexivity]
            | left; by apply Hcopy
            | destruct (dry_run e || dry_ai e);
              [ left; exact Hpost
              | right; eexists; split; [exact Hpost | reflexivity] ] ]. }
  split; [| split; [| exact Hcopy]].
  - destruct Hshape as [-> | (r & -> & _)]; simpl; lia.
  - intros x Hx. destruct Hshape as [-> | (r & -> & Hr)].
    + by apply not_elem_of_nil in Hx.
    + by apply list_elem_of_singleton in Hx as ->.
Qed.

Lemma for_each_file_rows files s :
  exists new,
    ledger (for_each_file e files s).2 = ledger s ++ new
    /\ length new <= length files
    /\ forall x, x ∈ new -> original_name x ∈ files.*2.
Proof.
  revert s. induction files as [| [root fname] rest IH]; intros s; simpl.
  - exists []. rewrite app_nil_r. split; [done |]. split; [simpl; lia |].
    intros x Hx. by apply not_elem_of_nil in Hx.
  - destruct (process_file_rows root fname s) as (new1 & Hl1 & Hn1 & Hx1 & _).
    unfold mbind, M_bind, bind.
    destruct (process_file e root fname s) as [[o | ex] s1]; simpl in *.
    + destruct (IH s1) as (new2 & Hl2 & Hn2 & Hx2).
      destruct (for_each_file e rest s1) as [[os | ex] s2]; simpl in *;
        exists (new1 ++ new2);
        (split; [by rewrite Hl2, Hl1, app_assoc |]);
        (split; [rewrite length_app; lia |]);
        intros x [Hx | Hx]%elem_of_app;
        [ rewrite (Hx1 x Hx); left | right; by apply Hx2
        | rewrite (Hx1 x Hx); left | right; by apply Hx2 ].
    + exists new1. split; [done |]. split; [lia |].
      intros x Hx. rewrite (Hx1 x Hx). left.
Qed.
End LedgerGrowth.

(** X23: whatever way a file leaves the body of the loop, an exception
    included, the ledger keeps the rows it had and gains at most one,
    which carries the name of the file; a use-as-is copy gains none, so
    that the same file is resolved again by the next pass. *)
Theorem file_adds_at_most_one_row
    (U : Unicode) (e : env) (root fname : pystr) (s : state) :
  exists new,
    ledger (process_file e root fname s).2 = ledger s ++ new
    /\ length new <= 1
    /\ (forall x, x ∈ new -> original_name x = fname)
    /\ ((process_file e root fname s).1 = Ok CopyAsIs -> new = []).
Proof. apply process_file_rows. Qed.

(** X24: a pass never deletes or rewrites a ledger row: the ledger it
    leaves is the one it found followed by new rows, no more of them
    than files walked, each under the name of one of these files. An
    exception that ends the pass early does not change this. *)
Theorem pass_only_appends_to_the_ledger
    (U : Unicode) (e : env) (walk : list (pystr * list pystr)) (s : state) :
  exists new,
    ledger (main e walk s).2 = ledger s ++ new
    /\ length new <= length (walked walk)
    /\ forall x, x ∈ new -> original_name x ∈ walked walk.
Proof.
  unfold main.
  set (files := flat_map (fun rf : pystr * list pystr => map (pair rf.1) rf.2) walk).
  assert (Hfiles : files.*2 = walked walk).
  { unfold files, walked. clear. induction walk as [| [root names] walk IH]; [done |].
    simpl. rewrite fmap_app, IH. f_equal.
    induction names as [| n names IHn]; [done |]. simpl. by f_equal. }
  assert (Hlen : length files = length (walked walk)).
  { by rewrite <- Hfiles, length_fmap. }
  rewrite (bind_ok _ _ s (disk s) s) by done.
  set (prep := if negb (bool_decide (is_Some (disk s !! dest e)))
               then (if dry_run e || dry_ai e then log DRY
                     else set_disk (makedirs (dest e) (disk s)))
               else ret tt).
  assert (Hprep : exists s1, prep s = (Ok tt, s1) /\ ledger s1 = ledger s).
  { unfold prep. destruct (negb _); [| by eexists].
    destruct (dry_run e || dry_ai e); by eexists. }
  destruct Hprep as (s1 & Hs1 & Hl1).
  rewrite (bind_ok _ _ _ _ _ Hs1).
  destruct (for_each_file_rows e files s1) as (new & Hl & Hn & Hx).
  exists new. rewrite Hl, Hl1. split; [done |]. split; [lia |].
  intros x Hin. rewrite <- Hfiles. by apply Hx.
Qed.
(** ** Bulk import and its cleanup *)

Lemma variations_is_Some {U : Unicode} (fname : pystr) (rows : list row) :
  is_Some (variations fname rows)
  <-> exists r, r ∈ rows /\ existsb (fun p => p r) (name_stages fname) = true.
Proof.
  unfold variations, fetchone, name_stages. cbv zeta. simpl. split.
  - intros [r Hr].
    repeat match type of Hr with
           | match List.find ?p ?l with _ => _ end = _ =>
               let E := fresh "E" in destruct (List.find p l) eqn:E
           end;
      match goal with
      | E : List.find _ _ = Some ?x |- _ =>
          apply find_some in E as [Hin Hp]; exists x;
          split; [by apply list_elem_of_In |];
          rewrite Hp, ?orb_true_r; done
      | _ => idtac
      end.
  - intros (r & Hin & Hp). apply list_elem_of_In in Hin.
    repeat match goal with
           | |- is_Some (match List.find ?p ?l with _ => _ end) =>
               let E := fresh "E" in
               destruct (List.find p l) eqn:E; [by eexists |];
               pose proof (find_none _ _ E r Hin)
           end.
    match goal with
    | |- is_Some (List.find ?p ?l) =>
        let E := fresh "E" in
        destruct (List.find p l) eqn:E; [by eexists |];
        pose proof (find_none _ _ E r Hin)
    end.
    simpl in *. repeat match goal with H : _ = false |- _ => rewrite H in Hp end.
    done.
Qed.

Lemma variations_mono {U : Unicode} (fname : pystr) (rows more : list row) :
  is_Some (variations fname rows) -> is_Some (variations fname (rows ++ more)).
Proof.
  rewrite !variations_is_Some. intros (r & Hin & Hp). exists r.
  split; [apply elem_of_app; by left | done].
Qed.

Lemma variations_none_prefix {U : Unicode} (fname : pystr) (rows more : list row) :
  variations fname (rows ++ more) = None -> variations fname rows = None.
Proof.
  intros Hnone. destruct (variations fname rows) as [r |] eqn:E; [| done].
  destruct (variations_mono fname rows more) as [r' Hr']; [by eexists |].
  congruence.
Qed.

Lemma bulk_import_loop_cons {U : Unicode} (e : env) (fname : pystr)
    (rest : list pystr) (count : nat) (s : state) :
  bulk_import_loop e (fname :: rest) count s
  = if forallb utf8_encodable fname
    then match variations fname (ledger s) with
         | Some _ => bulk_import_loop e rest count s
         | None =>
             bulk_import_loop e rest (S count)
               {| ledger := ledger s ++ [bulk_row fname]; disk := disk s;
                  events := events s |}
         end
    else (Raised UnicodeEncodeError, s).
Proof.
  cbn [bulk_import_loop].
  unfold sql_text, check_db_by_filename_variations, get_ledger, mbind, M_bind, bind,
    ret, raise.
  destruct (forallb utf8_encodable fname); [| done].
  simpl. destruct (variations fname (ledger s)); [done |].
  unfold bulk_row. by destruct (is_audio_file fname).
Qed.

Lemma bulk_import_loop_spec {U : Unicode} (e : env) (files : list pystr)
    (count : nat) (s : state) :
  exists new,
    bulk_import_loop e files count s
    = (if all_bindable files then Ok (count + length new)
       else Raised UnicodeEncodeError,
       {| ledger := ledger s ++ new; disk := disk s; events := events s |})
    /\ sublist new (bulk_row <$> bindable_prefix files)
    /\ (forall pre r post,
          new = pre ++ r :: post ->
          variations (original_name r) (ledger s ++ pre) = None)
    /\ (forall fname, fname ∈ bindable_prefix files ->
          is_Some (variations fname (ledger s ++ new))).
Proof.
  revert count s. induction files as [| fname rest IH]; intros count s.
  - exists []. simpl. rewrite Nat.add_0_r, app_nil_r.
    split; [by destruct s |]. split; [constructor |].
    split; [by intros [| ? ?] ? ? ? | intros ? Hx; by apply not_elem_of_nil in Hx].
  - rewrite bulk_import_loop_cons. unfold all_bindable. simpl.
    destruct (forallb utf8_encodable fname) eqn:Henc; simpl.
    2:{ exists []. rewrite app_nil_r. split; [by destruct s |].
        split; [constructor |].
        split; [by intros [| ? ?] ? ? ? | intros ? Hx; by apply not_elem_of_nil in Hx]. }
    destruct (variations fname (ledger s)) as [hit |] eqn:Hv.
    + destruct (IH count s) as (new & Hrun & Hsub & Hmin & Hall).
      exists new. split; [exact Hrun |].
      split; [by apply sublist_cons |]. split; [exact Hmin |].
      intros f [Hf | Hf]%elem_of_cons; [subst f | by apply Hall].
      apply variations_mono. by eexists.
    + set (s1 := {| ledger := ledger s ++ [bulk_row fname]; disk := disk s;
                    events := events s |}).
      destruct (IH (S count) s1) as (new & Hrun & Hsub & Hmin & Hall).
      exists (bulk_row fname :: new).
      split; [| split; [| split]].
      * rewrite Hrun. simpl. rewrite <- app_assoc. simpl.
        fold (all_bindable rest). destruct (all_bindable rest); [| done].
        do 2 f_equal. lia.
      * by apply sublist_skip.
      * intros [| x pre] r post Hnew; simpl in Hnew.
        -- injection Hnew as <- _. by rewrite app_nil_r.
        -- injection Hnew as <- Hnew.
           specialize (Hmin pre r post Hnew). simpl in Hmin.
           by rewrite <- app_assoc in Hmin.
      * simpl in Hall. rewrite <- app_assoc in Hall. simpl in Hall.
        intros f [Hf | Hf]%elem_of_cons; [subst f | by apply Hall].
        destruct (variations_ledgered fname (ledger s ++ bulk_row fname :: new))
          as [r Hr]; [| by eexists].
        exists (bulk_row fname). split; [| done].
        apply elem_of_app. right. left.
Qed.

Lemma bulk_import_files_to_db_spec {U : Unicode} (e : env)
    (walk : list (pystr * list pystr)) (s : state) :
  exists new,
    bulk_import_files_to_db e walk s
    = (if all_bindable (walked walk) then Ok (length new)
       else Raised UnicodeEncodeError,
       {| ledger := ledger s ++ new; disk := disk s;
          events := events s ++ Log INFO
                      :: (if all_bindable (walked walk) then [Log SUCCESS] else []) |})
    /\ sublist new (bulk_row <$> bindable_prefix (walked walk))
    /\ (forall pre r post,
          new = pre ++ r :: post ->
          variations (original_name r) (ledger s ++ pre) = None)
    /\ (forall fname, fname ∈ bindable_prefix (walked walk) ->
          is_Some (variations fname (ledger s ++ new))).
Proof.
  unfold bulk_import_files_to_db, walked.
  set (s0 := {| ledger := ledger s; disk := disk s;
                events := events s ++ [Log INFO] |}).
  destruct (bulk_import_loop_spec e (flat_map snd walk) 0 s0)
    as (new & Hrun & Hsub & Hmin & Hall).
  exists new. split; [| by split].
  rewrite (bind_ok _ _ s tt s0) by done.
  destruct (all_bindable (flat_map snd walk)).
  - rewrite (bind_ok _ _ _ _ _ Hrun).
    unfold log, emit, mbind, M_bind, bind, ret. simpl.
    by rewrite <- app_assoc.
  - by rewrite (bind_raised _ _ _ _ _ Hrun).
Qed.

Lemma bulk_rows_of_names {U : Unicode} (new : list row) (names : list pystr) (r : row) :
  sublist new (bulk_row <$> names) -> r ∈ new ->
  exists fname, fname ∈ names /\ r = bulk_row fname.
Proof.
  intros Hsub Hr. pose proof (elem_of_sublist _ _ _ Hr Hsub) as Hin.
  apply list_elem_of_fmap in Hin as (f & -> & Hf). by exists f.
Qed.

(** X25: a bulk import leaves the file system alone and asks no service.
    It takes the walked names in order, up to the first one that cannot
    be bound to a query, where it ends with UnicodeEncodeError and
    without its closing line; it returns the number of rows it appended
    when there is no such name. The rows it appends are suppression rows
    of walked names, tagged as audio or non-audio after the extension,
    in the order of the walk, each for a name that no earlier row, of
    the ledger or of this import, is found for; every name it took is
    found in the ledger afterwards. *)
Theorem bulk_import_suppresses_the_unknown_names
    (U : Unicode) (e : env) (walk : list (pystr * list pystr)) (s : state) :
  exists new,
    bulk_import_files_to_db e walk s
    = (if all_bindable (walked walk) then Ok (length new)
       else Raised UnicodeEncodeError,
       {| ledger := ledger s ++ new; disk := disk s;
          events := events s ++ Log INFO
                      :: (if all_bindable (walked walk) then [Log SUCCESS] else []) |})
    /\ sublist new (bulk_row <$> bindable_prefix (walked walk))
    /\ (forall pre r post,
          new = pre ++ r :: post ->
          variations (original_name r) (ledger s ++ pre) = None)
    /\ (forall fname, fname ∈ bindable_prefix (walked walk) ->
          is_Some (variations fname (ledger s ++ new))).
Proof. apply bulk_import_files_to_db_spec. Qed.

(** X26: a second bulk import over the same files adds nothing: it
    returns 0 where the first one returned, and ends with the same
    exception where the first one did. *)
Theorem bulk_import_twice_adds_nothing
    (U : Unicode) (e : env) (walk : list (pystr * list pystr)) (s : state) :
  (bulk_import_files_to_db e walk (bulk_import_files_to_db e walk s).2).1
  = match (bulk_import_files_to_db e walk s).1 with
    | Ok _ => Ok 0
    | Raised ex => Raised ex
    end
  /\ ledger (bulk_import_files_to_db e walk (bulk_import_files_to_db e walk s).2).2
     = ledger (bulk_import_files_to_db e walk s).2.
Proof.
  destruct (bulk_import_files_to_db_spec e walk s) as (new & -> & _ & _ & Hall).
  cbn [fst snd].
  match goal with
  | |- context [bulk_import_files_to_db e walk ?st] =>
      destruct (bulk_import_files_to_db_spec e walk st)
        as (new2 & -> & Hsub2 & Hmin2 & _)
  end.
  assert (new2 = []) as ->.
  { destruct new2 as [| r new2]; [done |].
    destruct (bulk_rows_of_names _ _ r Hsub2) as (f & Hf & ->); [left |].
    specialize (Hmin2 [] (bulk_row f) new2 eq_refl).
    destruct (Hall f Hf) as [r' Hr']. simpl in Hmin2. rewrite app_nil_r in Hmin2.
    change (original_name (bulk_row f)) with f in Hmin2. congruence. }
  simpl. rewrite app_nil_r. split; [| done].
  by destruct (all_bindable (walked walk)).
Qed.
Lemma is_bulk_row_bulk_row {U : Unicode} (fname : pystr) :
  is_bulk_row (bulk_row fname) = true.
Proof. unfold bulk_row. by destruct (is_audio_file fname). Qed.

Lemma filter_bulk_rows (new : list row) :
  (forall r, r ∈ new -> is_bulk_row r = true) ->
  List.filter (fun r => negb (is_bulk_row r)) new = []
  /\ List.filter is_bulk_row new = new.
Proof.
  induction new as [| r new IH]; [done |]. intros Hall. simpl.
  rewrite (Hall r) by left. simpl.
  destruct IH as [IH1 IH2]; [intros x Hx; apply Hall; by right |].
  by rewrite IH1, IH2.
Qed.

(** X27: on a ledger that holds no row of a bulk import, a cleanup after
    a bulk import gives the ledger back as it was. It reports as many
    deleted rows as the import added, which is the count the import
    returned, unless the import ended with UnicodeEncodeError. *)
Theorem cleanup_undoes_a_bulk_import
    (U : Unicode) (e : env) (walk : list (pystr * list pystr)) (s : state) :
  forallb (fun r => negb (is_bulk_row r)) (ledger s) = true ->
  ledger (cleanup_bulk_imports (bulk_import_files_to_db e walk s).2).2 = ledger s
  /\ exists n,
       (cleanup_bulk_imports (bulk_import_files_to_db e walk s).2).1 = Ok n
       /\ length (ledger (bulk_import_files_to_db e walk s).2)
          = length (ledger s) + n
       /\ (bulk_import_files_to_db e walk s).1
          = if all_bindable (walked walk) then Ok n else Raised UnicodeEncodeError.
Proof.
  intros Hclean.
  destruct (bulk_import_files_to_db_spec e walk s) as (new & -> & Hsub & _).
  assert (Hbulk : forall r, r ∈ new -> is_bulk_row r = true).
  { intros r Hr. destruct (bulk_rows_of_names _ _ r Hsub Hr) as (f & _ & ->).
    apply is_bulk_row_bulk_row. }
  destruct (filter_bulk_rows new Hbulk) as [Hdrop Hkeep].
  assert (Hnone : List.filter is_bulk_row (ledger s) = []).
  { clear -Hclean. induction (ledger s) as [| r l IH]; [done |]. simpl in *.
    apply andb_prop in Hclean as [Hr Hl]. apply negb_true_iff in Hr.
    rewrite Hr. by apply IH. }
  unfold cleanup_bulk_imports. simpl.
  rewrite !List.filter_app, Hdrop, Hkeep, app_nil_r, Hnone.
  rewrite (filter_forallb_id _ _ Hclean). split; [done |].
  exists (length new). split; [done |]. split; [by rewrite length_app | done].
Qed.

Lemma cleanup_undoes_a_bulk_import_witness :
  ledger (cleanup_bulk_imports
            (bulk_import_files_to_db (U := basic_latin)
               (offline false false MutagenNone)
               [(lit "/src", [lit "a.mp3"; lit "cover.jpg"])] acraze_state).2).2
  = ledger acraze_state
  /\ exists n,
       (cleanup_bulk_imports
          (bulk_import_files_to_db (U := basic_latin)
             (offline false false MutagenNone)
             [(lit "/src", [lit "a.mp3"; lit "cover.jpg"])] acraze_state).2).1
       = Ok n
       /\ length (ledger (bulk_import_files_to_db (U := basic_latin)
                            (offline false false MutagenNone)
                            [(lit "/src", [lit "a.mp3"; lit "cover.jpg"])]
                            acraze_state).2)
          = length (ledger acraze_state) + n
       /\ (bulk_import_files_to_db (U := basic_latin)
             (offline false false MutagenNone)
             [(lit "/src", [lit "a.mp3"; lit "cover.jpg"])] acraze_state).1
          = if all_bindable (walked [(lit "/src", [lit "a.mp3"; lit "cover.jpg"])])
            then Ok n else Raised UnicodeEncodeError.
Proof.
  apply (cleanup_undoes_a_bulk_import basic_latin (offline false false MutagenNone)
           [(lit "/src", [lit "a.mp3"; lit "cover.jpg"])] acraze_state).
  vm_compute. reflexivity.
Defined.

Lemma like_match_percent (p t : pystr) :
  like_match (37%N :: p) t
  = like_match p t
    || match t with [] => false | _ :: t' => like_match (37%N :: p) t' end.
Proof. by destruct t. Qed.

Lemma like_match_percent_inv (p t : pystr) :
  like_match (37%N :: p) t = true ->
  exists pre post, t = pre ++ post /\ like_match p post = true.
Proof.
  induction t as [| c t IH]; rewrite like_match_percent.
  - rewrite orb_false_r. intros H. by exists [], [].
  - intros [H | H]%orb_prop.
    + by exists [], (c :: t).
    + destruct (IH H) as (pre & post & -> & Hp). by exists (c :: pre), post.
Qed.

Lemma like_match_literal (p : N) (pattern : pystr) (c : N) (text : pystr) :
  (p =? 37)%N = false -> (p =? 95)%N = false ->
  like_match (p :: pattern) (c :: text) = true ->
  ascii_lower_cp c = ascii_lower_cp p /\ like_match pattern text = true.
Proof.
  intros H37 H95. simpl. rewrite H37, H95. simpl.
  intros [Hc Ht]%andb_prop. apply N.eqb_eq in Hc. by split.
Qed.

Lemma like_match_any_one (pattern : pystr) (c : N) (text : pystr) :
  like_match (95%N :: pattern) (c :: text) = true -> like_match pattern text = true.
Proof. simpl. done. Qed.

Lemma like_match_nonempty (p : N) (pattern : pystr) :
  (p =? 37)%N = false -> like_match (p :: pattern) [] = false.
Proof. intros H. simpl. by rewrite H. Qed.

Lemma is_bulk_row_shape (r : row) :
  is_bulk_row r = true ->
  exists c1 c2 mid,
    ascii_lower_cp <$> c_str (ai_artist r)
    = lit "[bulk" ++ [c1] ++ lit "import" ++ [c2] ++ mid ++ lit "]".
Proof.
  unfold is_bulk_row, sql_like.
  change (c_str (lit "[bulk_import_%]")) with (lit "[bulk_import_%]").
  generalize (c_str (ai_artist r)). intros t H.
  change (lit "[bulk_import_%]")
    with (91 :: 98 :: 117 :: 108 :: 107 :: 95 :: 105 :: 109 :: 112 :: 111 :: 114
          :: 116 :: 95 :: 37 :: [93])%N in H.
  repeat match type of H with
         | like_match (95%N :: _) ?t = true =>
             destruct t as [| ? ?]; [discriminate H |];
             apply like_match_any_one in H
         | like_match (37%N :: _) _ = true => fail 1
         | like_match (_ :: _) ?t = true =>
             destruct t as [| ? ?];
             [by rewrite like_match_nonempty in H |];
             apply like_match_literal in H as [? H]; [| done | done]
         end.
  apply like_match_percent_inv in H as (mid & post & -> & H).
  destruct post as [| c post]; [by rewrite like_match_nonempty in H |].
  apply like_match_literal in H as [Hc H]; [| done | done].
  destruct post; [| done].
  eexists _, _, (ascii_lower_cp <$> mid). simpl.
  rewrite fmap_app. simpl.
  repeat match goal with Hx : ascii_lower_cp _ = _ |- _ => rewrite Hx; clear Hx end.
  reflexivity.
Qed.

(** X28: a cleanup leaves the file system alone and removes rows, never
    changes one. A row it removes has an artist field that reads, up to
    the first NUL and the case of its letters, [[bulk], one character,
    [import], one character, any text, and a closing bracket; the rows
    the pipeline writes for files that are not audio, for duplicates and
    for files without metadata stay. *)
Theorem cleanup_removes_only_bulk_shaped_rows (s : state) :
  disk (cleanup_bulk_imports s).2 = disk s
  /\ (forall r, r ∈ ledger s -> r ∉ ledger (cleanup_bulk_imports s).2 ->
        exists c1 c2 mid,
          ascii_lower_cp <$> c_str (ai_artist r)
          = lit "[bulk" ++ [c1] ++ lit "import" ++ [c2] ++ mid ++ lit "]")
  /\ (forall fname reason,
        reason ∈ [lit "not_audio"; lit "duplicate"; lit "no_metadata"] ->
        suppression fname reason ∈ ledger s ->
        suppression fname reason ∈ ledger (cleanup_bulk_imports s).2).
Proof.
  assert (Hkept : forall r, r ∈ ledger s -> is_bulk_row r = false ->
                            r ∈ ledger (cleanup_bulk_imports s).2).
  { intros r Hin E. unfold cleanup_bulk_imports. simpl.
    apply list_elem_of_In, filter_In.
    split; [by apply list_elem_of_In | by rewrite E]. }
  split; [done |]. split.
  - intros r Hin Hout. apply is_bulk_row_shape.
    destruct (is_bulk_row r) eqn:E; [done |]. destruct Hout. by apply Hkept.
  - intros fname reason Hreason Hin. apply Hkept; [done |].
    rewrite !elem_of_cons, elem_of_nil in Hreason.
    destruct Hreason as [-> | [-> | [-> | []]]]; reflexivity.
Qed.
(** ** The entry point *)


(** ** Growth of the file system *)

Lemma fs_le_refl d : fs_le d d.
Proof. intros dir names H. exists []. by rewrite app_nil_r. Qed.

Lemma fs_le_trans d1 d2 d3 : fs_le d1 d2 -> fs_le d2 d3 -> fs_le d1 d3.
Proof.
  intros H12 H23 dir names H. destruct (H12 dir names H) as (m1 & H1).
  destruct (H23 dir _ H1) as (m2 & H2). exists (m1 ++ m2).
  by rewrite app_assoc.
Qed.

Lemma fs_le_makedirs p d : fs_le d (makedirs p d).
Proof.
  unfold makedirs. destruct (d !! p) eqn:E; [apply fs_le_refl |].
  intros dir names H. exists []. rewrite app_nil_r.
  rewrite lookup_insert_ne; [done | intros ->; congruence].
Qed.

Lemma fs_le_add_file dir name d : fs_le d (add_file dir name d).
Proof.
  intros dir' names H. unfold add_file.
  destruct (decide (dir = dir')) as [<- | Hne].
  - rewrite lookup_alter. destruct (decide (dir = dir)); [| done].
    rewrite H. simpl. case_bool_decide.
    + exists []. by rewrite app_nil_r.
    + by exists [name].
  - rewrite lookup_alter_ne by done. exists []. by rewrite app_nil_r.
Qed.

Lemma fs_le_path_exists d d' p :
  fs_le d d' -> path_exists d p = true -> path_exists d' p = true.
Proof.
  intros Hle. unfold path_exists at 1. intros [H | H]%orb_prop.
  - apply bool_decide_eq_true in H as [names H].
    destruct (Hle p names H) as (more & H'). unfold path_exists.
    rewrite (bool_decide_eq_true_2 (is_Some (d' !! p))); [done | by eexists].
  - apply existsb_exists in H as ([dir names] & Hin & H).
    apply list_elem_of_In, elem_of_map_to_list in Hin.
    apply existsb_exists in H as (n & Hn & Hp). simpl in Hp.
    unfold pystr_eqb in Hp. apply bool_decide_eq_true in Hp as <-.
    destruct (Hle dir names Hin) as (more & H').
    apply (path_exists_join d' dir (names ++ more) n H').
    apply elem_of_app. left. by apply list_elem_of_In.
Qed.

Lemma grows_fixed {A} ok (m : M A) : keeps ok true m -> grows m.
Proof. intros H s. destruct (H s) as [Hd _]. rewrite (Hd eq_refl). apply fs_le_refl. Qed.

Lemma grows_ret {A} (a : A) : grows (ret a).
Proof. intros s. apply fs_le_refl. Qed.

Lemma grows_mret {A} (a : A) : grows (mret a).
Proof. apply grows_ret. Qed.

Lemma grows_raise {A} (ex : exn) : grows (@raise A ex).
Proof. intros s. apply fs_le_refl. Qed.

Lemma grows_bind {A B} (m : M A) (k : A -> M B) :
  grows m -> (forall a, grows (k a)) -> grows (m ≫= k).
Proof.
  intros Hm Hk s. unfold mbind, M_bind, bind. specialize (Hm s).
  destruct (m s) as [[a | ex] s1]; simpl in *; [| done].
  eapply fs_le_trans; [exact Hm | apply Hk].
Qed.

Lemma grows_try_except {A} (body : M A) (handler : exn -> M A) :
  grows body -> (forall ex, grows (handler ex)) -> grows (try_except body handler).
Proof.
  intros Hb Hh s. unfold try_except. specialize (Hb s).
  destruct (body s) as [[a | ex] s1]; simpl in *; [done |].
  eapply fs_le_trans; [exact Hb | apply Hh].
Qed.

Lemma grows_get_ledger : grows get_ledger.
Proof. intros s. apply fs_le_refl. Qed.

Lemma grows_get_disk : grows get_disk.
Proof. intros s. apply fs_le_refl. Qed.

Lemma grows_emit ev : grows (emit ev).
Proof. intros s. apply fs_le_refl. Qed.

Lemma grows_log lv : grows (log lv).
Proof. apply grows_emit. Qed.

Lemma grows_insert_db name artist title path :
  grows (insert_db name artist title path).
Proof. intros s. apply fs_le_refl. Qed.

Lemma grows_insert_db_skipped name reason : grows (insert_db_skipped name reason).
Proof. apply grows_insert_db. Qed.

Lemma grows_when c m : grows m -> grows (when c m).
Proof. intros H. destruct c; [exact H | apply grows_ret]. Qed.

Lemma grows_ensure_dir dir : grows (ensure_dir dir).
Proof.
  intros s. unfold ensure_dir, get_disk, when, set_disk, mbind, M_bind, bind, ret.
  simpl. destruct (negb (path_exists (disk s) dir)); simpl;
    [apply fs_le_makedirs | apply fs_le_refl].
Qed.

Lemma grows_copy2 (e : env) src dir name : grows (copy2 e src dir name).
Proof.
  intros s.
  unfold copy2, get_disk, set_disk, emit, raise, mbind, M_bind, bind, ret.
  simpl. destruct (_ || _); simpl; [apply fs_le_refl | apply fs_le_add_file].
Qed.

Create HintDb grow discriminated.
#[local] Hint Resolve grows_ret grows_mret grows_raise grows_get_ledger grows_get_disk
  grows_emit grows_log grows_insert_db grows_insert_db_skipped grows_when
  grows_ensure_dir grows_copy2 : grow.

(** Decompose a computation along its binds and branches. *)
Ltac grow_step :=
  match goal with
  | |- grows (_ ≫= _) => apply grows_bind; [| intros ?]
  | |- grows (try_except _ _) => apply grows_try_except; [| intros ?]
  | |- grows (if ?c then _ else _) => destruct c eqn:?
  | |- grows (match ?x with _ => _ end) => destruct x eqn:?
  | |- grows (let '(_, _) := ?x in _) => destruct x eqn:?
  | |- _ => solve [auto with grow]
  end.

Ltac grow_steps := repeat grow_step.

Section DiskGrowth.
Context {U : Unicode} (e : env).

Lemma grows_query_ollama filename a t :
  grows (query_ollama_for_metadata e filename a t).
Proof. apply (grows_fixed not_copy), dry_query_ollama. Qed.

Lemma grows_query_openai filename a t :
  grows (query_openai_for_metadata e filename a t).
Proof. apply (grows_fixed not_copy), dry_query_openai. Qed.

Hint Resolve grows_query_ollama grows_query_openai : grow.

Lemma grows_process_file root fname : grows (process_file e root fname).
Proof.
  unfold process_file, check_db_by_filename_variations, check_db_fuzzy, resolve,
    openai_after, dry_ai_preview, place, divert_unsorted, copy_and_update,
    place_of, as_text, duplicate_found, listdir.
  grow_steps.
Qed.

Lemma grows_for_each_file files : grows (for_each_file e files).
Proof.
  induction files as [| [root fname] rest IH]; simpl; [apply grows_ret |].
  apply grows_bind; [apply grows_process_file | intros o].
  apply grows_bind; [exact IH | intros os; apply grows_ret].
Qed.

Lemma grows_main walk : grows (main e walk).
Proof.
  intros s. unfold main. rewrite (bind_ok _ _ s (disk s) s) by done.
  set (prep := if negb (bool_decide (is_Some (disk s !! dest e)))
               then (if dry_run e || dry_ai e then log DRY
                     else set_disk (makedirs (dest e) (disk s)))
               else ret tt).
  assert (Hprep : exists s1, prep s = (Ok tt, s1) /\ fs_le (disk s) (disk s1)).
  { unfold prep. destruct (negb _); [| eexists; split; [done | apply fs_le_refl]].
    destruct (dry_run e || dry_ai e); eexists; (split; [done |]); simpl.
    - apply fs_le_refl.
    - apply fs_le_makedirs. }
  destruct Hprep as (s1 & Hs1 & Hle).
  rewrite (bind_ok _ _ _ _ _ Hs1).
  eapply fs_le_trans; [exact Hle | apply grows_for_each_file].
Qed.
End DiskGrowth.

(** X30: a pass only adds to the file system. Every directory it found
    is still there afterwards and holds the names it held, in the same
    order, before any new one; so every path that existed before the
    pass exists after it, also when an exception ends the pass. *)
Theorem pass_only_adds_to_the_file_system
    (U : Unicode) (e : env) (walk : list (pystr * list pystr)) (s : state) :
  fs_le (disk s) (disk (main e walk s).2)
  /\ forall p, path_exists (disk s) p = true ->
               path_exists (disk (main e walk s).2) p = true.
Proof.
  pose proof (grows_main e walk s) as H. split; [exact H |].
  intros p. by apply fs_le_path_exists.
Qed.
